(** * Associative word-transition memory: a shallow embedding

    This development embeds the word-transition core of the repository:

    - [Tokenizer]: the expression [text.toLowerCase().match(/\b\w+\b/g) || []]
      used by every ingest and generate entry point;
    - [DocumentProcessor]: the static word table of
      [src/lib/document/DocumentProcessor.ts]
      ([addWordTransition], [processText], [getNextWordProbabilities]);
    - [QuantumMemory]: the React component of [unnamed/part_004]
      ([processText], [consolidateMemory], [generateResponse],
      [saveMemory], [loadMemory] and the quantum/holographic helpers);
    - [Panel]: the statistics ([updateStats], [calculateQuantumFidelity])
      and the context lookup ([getRelevantContext]) of the component;
    - [DocumentText], [DocumentTable]: the rest of the document processor
      ([tokenizeText], [countTokens], [createChunks], [generateResponse],
      [getWordStats]).

    Conventions.  A JavaScript [Map] whose iteration order is observable
    (the successor table of a word) is an association list in insertion
    order; a [Map] or [Set] that is only probed by key is a [gmap] or [gset].
    Integer counters are [nat].  In [DocumentProcessor] a probability is the
    exact rational [count / total]; in [QuantumMemory] every other number is
    a real, so IEEE rounding, NaN and infinities are outside the model.
    [Math.random] and [Date.now] read from oracles carried by the world.
    The world also holds the console, each line with the method that wrote
    it, the storage, and the oracle that tells when [localStorage.setItem]
    throws.  [JSON.stringify] and [JSON.parse] are parameters, on plain
    values; the conversions between a memory and a plain value are the
    component's own and are embedded.

    A callback of the component is a function from the [memory] it captured
    and the world to the state it hands to [setMemory] (for
    [generateResponse], the state it has written in place) and the new world.
    Node objects are shared between the captured map and the copies made of
    it, so a write to a node is a write to the store that holds the nodes by
    key.  The statistics [updateStats] computes are a function of the nodes
    it is given; the React state that displays them, the WebGL scene and the
    file and network handlers are not part of the model. *)

From Stdlib Require Import Reals Lra Lia ZArith QArith Qabs Qround List Sorting Permutation.
From Stdlib Require Import String Ascii.
From stdpp Require Import gmap strings pretty list.

(** ** Arrays: the stable comparison sort of [Array.prototype.sort] *)

Module JsArray.

Section Sort.
Context {A : Type}.
(** [keep a b] holds when the comparator applied to [(a, b)] is not positive,
    that is when [a] may stay in front of [b]. *)
Variable keep : A -> A -> bool.

Fixpoint insert (x : A) (l : list A) : list A :=
  match l with
  | [] => [x]
  | y :: l' => if keep x y then x :: y :: l' else y :: insert x l'
  end.

Fixpoint sort (l : list A) : list A :=
  match l with
  | [] => []
  | x :: l' => insert x (sort l')
  end.

End Sort.

(** [words[i], words[i + 1]] for [i] from [0] to [words.length - 2]. *)
Fixpoint pairs {A : Type} (l : list A) : list (A * A) :=
  match l with
  | x :: ((y :: _) as l') => (x, y) :: pairs l'
  | _ => []
  end.

End JsArray.

(** ** Maps with observable insertion order *)

Module JsMap.

Section Ops.
Context {V : Type}.

Fixpoint get (k : string) (m : list (string * V)) : option V :=
  match m with
  | [] => None
  | (k', v) :: m' => if String.eqb k k' then Some v else get k m'
  end.

Definition has (k : string) (m : list (string * V)) : bool :=
  match get k m with Some _ => true | None => false end.

(** [Map.prototype.set]: an existing key keeps its position. *)
Fixpoint set (k : string) (v : V) (m : list (string * V)) : list (string * V) :=
  match m with
  | [] => [(k, v)]
  | (k', v') :: m' =>
      if String.eqb k k' then (k, v) :: m' else (k', v') :: set k v m'
  end.

End Ops.

End JsMap.

(** ** Sets of strings in insertion order *)

Module JsSet.

Definition has (x : string) (s : list string) : bool :=
  existsb (String.eqb x) s.

(** [Set.prototype.add]: a member already present is not added again. *)
Definition add (x : string) (s : list string) : list string :=
  if has x s then s else s ++ [x].

End JsSet.

(** ** Strings: [slice] *)

Module JsString.

Fixpoint take (n : nat) (s : string) : string :=
  match n, s with
  | S n', String c s' => String c (take n' s')
  | _, _ => EmptyString
  end.

Fixpoint drop (n : nat) (s : string) : string :=
  match n, s with
  | S n', String _ s' => drop n' s'
  | _, _ => s
  end.

(** [s.slice(i, j)] for [0 <= i <= j]. *)
Definition slice (i j : nat) (s : string) : string := take (j - i) (drop i s).

Definition is_empty (s : string) : bool :=
  match s with EmptyString => true | _ => false end.

End JsString.

(** ** Tokenizer *)

Module Tokenizer.

Definition between (lo hi : nat) (c : ascii) : bool :=
  (lo <=? nat_of_ascii c)%nat && (nat_of_ascii c <=? hi)%nat.

Definition is_upper (c : ascii) : bool := between 65 90 c.

(** The character class [\w]: letters, digits and the underscore. *)
Definition is_word_char (c : ascii) : bool :=
  between 97 122 c || between 65 90 c || between 48 57 c
  || (nat_of_ascii c =? 95)%nat.

Definition lower_char (c : ascii) : ascii :=
  if is_upper c then ascii_of_nat (nat_of_ascii c + 32) else c.

(** [String.prototype.toLowerCase] on 8-bit text. *)
Fixpoint toLowerCase (s : string) : string :=
  match s with
  | EmptyString => EmptyString
  | String c s' => String (lower_char c) (toLowerCase s')
  end.

Definition flush (cur : string) (acc : list string) : list string :=
  match cur with
  | EmptyString => acc
  | _ => acc ++ [cur]
  end.

(** [s.match(/\b\w+\b/g) || []]: the maximal runs of word characters, left
    to right.  [cur] is the run being read, [acc] the runs already closed. *)
Fixpoint match_words (s : string) (cur : string) (acc : list string) : list string :=
  match s with
  | EmptyString => flush cur acc
  | String c s' =>
      if is_word_char c
      then match_words s' (cur +:+ String c EmptyString) acc
      else match_words s' EmptyString (flush cur acc)
  end.

Definition tokenize (text : string) : list string :=
  match_words (toLowerCase text) EmptyString [].

(** [Array.prototype.join(' ')]. *)
Fixpoint join (ws : list string) : string :=
  match ws with
  | [] => EmptyString
  | [w] => w
  | w :: ws' => w +:+ " " +:+ join ws'
  end.

End Tokenizer.

(** ** DocumentProcessor: the static word table *)

Module DocumentProcessor.

Local Open Scope Q_scope.

Record WordData := mkWordData {
  word : string;
  frequency : nat;
  hue : Q;
  saturation : Q;
  nextWords : list (string * nat);
  totalTransitions : nat
}.

Record TransitionProbability := mkTP {
  tp_word : string;
  probability : Q
}.

(** The class state: the static [words] map together with the stream read
    by [Math.random] and the number of draws made so far. *)
Record State := mkState {
  words : gmap string WordData;
  random : nat -> Q;
  draws : nat
}.

Definition empty (rnd : nat -> Q) : State :=
  {| words := ∅; random := rnd; draws := 0 |}.

Definition addWordTransition (st : State) (currentWord nextWord : string) : State :=
  let st1 :=
    match words st !! currentWord with
    | Some _ => st
    | None =>
        {| words := <[currentWord :=
                       {| word := currentWord;
                          frequency := 0;
                          hue := random st (draws st);
                          saturation := (5 # 10) + random st (S (draws st)) * (5 # 10);
                          nextWords := [];
                          totalTransitions := 0 |}]> (words st);
           random := random st;
           draws := S (S (draws st)) |}
    end in
  match words st1 !! currentWord with
  | None => st1
  | Some wordData =>
      let n := match JsMap.get nextWord (nextWords wordData) with
               | Some c => c
               | None => O
               end in
      {| words := <[currentWord :=
                     {| word := word wordData;
                        frequency := S (frequency wordData);
                        hue := hue wordData;
                        saturation := saturation wordData;
                        nextWords := JsMap.set nextWord (S n) (nextWords wordData);
                        totalTransitions := S (totalTransitions wordData) |}]> (words st1);
         random := random st1;
         draws := draws st1 |}
  end.

(** The loop of [processText]; the progress events and the yields to the
    event loop do not touch the table. *)
Definition processText (st : State) (text : string) : State :=
  fold_left (fun s p => addWordTransition s (fst p) (snd p))
            (JsArray.pairs (Tokenizer.tokenize text)) st.

Definition ratio (count total : nat) : Q :=
  inject_Z (Z.of_nat count) / inject_Z (Z.of_nat total).

(** The comparator [(a, b) => b.probability - a.probability] is not positive
    exactly when [b.probability <= a.probability]. *)
Definition by_probability (a b : TransitionProbability) : bool :=
  Qle_bool (probability b) (probability a).

Definition getNextWordProbabilities (st : State) (currentWord : string)
  : list TransitionProbability :=
  match words st !! currentWord with
  | None => []
  | Some wordData =>
      JsArray.sort by_probability
        (List.map (fun e => {| tp_word := fst e;
                               probability := ratio (snd e) (totalTransitions wordData) |})
                  (nextWords wordData))
  end.

End DocumentProcessor.

(** ** QuantumMemory: numbers, complex amplitudes and patterns *)

Module QuantumMemory.

Local Open Scope R_scope.

(** The [Complex] class of mathjs, restricted to the methods the component
    calls: [mul], [neg], [conjugate] and [abs]. *)
Record Complex := mkComplex { re : R; im : R }.

Definition Cmul (a b : Complex) : Complex :=
  {| re := re a * re b - im a * im b; im := re a * im b + im a * re b |}.

(** [z.mul(k)] for a number [k]: the number is read as [k + 0i]. *)
Definition Cscale (z : Complex) (k : R) : Complex := Cmul z {| re := k; im := 0 |}.

Definition Cneg (z : Complex) : Complex := {| re := - re z; im := - im z |}.

Definition Cconjugate (z : Complex) : Complex := {| re := re z; im := - im z |}.

Definition Cabs (z : Complex) : R := sqrt (re z * re z + im z * im z).

(** The remainder operator [%] on numbers: the quotient is truncated towards
    zero, so the result carries the sign of the dividend. *)
Definition trunc (x : R) : Z :=
  if Rle_dec 0 x then Int_part x else (- Int_part (- x))%Z.

Definition js_rem (x y : R) : R := x - y * IZR (trunc (x / y)).

Record QuantumState := mkQuantumState {
  amplitude : Complex;
  phase : R
}.

Record HolographicPattern := mkHolographicPattern {
  intensity : list R;
  pattern_phase : list R
}.

Record Color := mkColor {
  hue : R;
  saturation : R;
  brightness : R;
  alpha : R
}.

Record Vector3 := mkVector3 { x : R; y : R; z : R }.

(** A value of the [next] map: [{ word, count }]. *)
Record Successor := mkSuccessor {
  succ_word : string;
  succ_count : nat
}.

Record WordNode := mkWordNode {
  word : string;
  count : nat;
  next : list (string * Successor);
  color : Color;
  documents : list string;
  lastAccessed : R;
  strength : R;
  quantumState : QuantumState;
  holographicPattern : HolographicPattern;
  entangledNodes : list string;
  position : Vector3
}.

Record Memory := mkMemory {
  nodes : gmap string WordNode;
  totalDocuments : nat;
  lastConsolidation : R;
  quantumCoherence : R;
  documentContents : gmap string string
}.

(** The console method a line was written with. *)
Inductive ConsoleMethod := ConsoleWarn | ConsoleError.

(** What the component reads from and writes to outside its own state:
    the streams behind [Math.random] and [Date.now] with the number of values
    already taken, the console, and [localStorage].  [quota_exceeded ls k v]
    tells whether [localStorage.setItem(k, v)] throws when the storage holds
    [ls]; a call that throws leaves the storage as it was. *)
Record World := mkWorld {
  random : nat -> R;
  draws : nat;
  clock : nat -> R;
  ticks : nat;
  console : list (ConsoleMethod * string);
  localStorage : gmap string string;
  quota_exceeded : gmap string string -> string -> string -> bool
}.

(** The plain values that [JSON.stringify] takes and [JSON.parse] gives. *)
#[local] Set Warnings "-register-all".
Inductive Json :=
| JNull
| JBool (b : bool)
| JNumber (r : R)
| JString (s : string)
| JArray (items : list Json)
| JObject (fields : list (string * Json)).
#[local] Set Warnings "+register-all".

(** *** Constants *)

Definition MEMORY_KEY_PREFIX : string := "quantum_holographic_network_".
Definition CHUNK_SIZE : nat := 1024 * 1024.
Definition MAX_CHUNKS : nat := 10.
Definition CONSOLIDATION_INTERVAL : R := 1000 * 60 * 60.
Definition MEMORY_DECAY_RATE : R := 0.1.
Definition MAX_MEMORY_STRENGTH : R := 5.
Definition QUANTUM_COHERENCE_DECAY : R := 0.05.
(** The literal [1000000], written as a product so that it stays a small term. *)
Definition MAX_DOCUMENT_SIZE : nat := 1000 * 1000.

(** *** Field updates *)

Definition set_strength (s : R) (n : WordNode) : WordNode :=
  mkWordNode (word n) (count n) (next n) (color n) (documents n) (lastAccessed n)
             s (quantumState n) (holographicPattern n) (entangledNodes n) (position n).

Definition set_lastAccessed (t : R) (n : WordNode) : WordNode :=
  mkWordNode (word n) (count n) (next n) (color n) (documents n) t
             (strength n) (quantumState n) (holographicPattern n) (entangledNodes n) (position n).

Definition set_quantumState (q : QuantumState) (n : WordNode) : WordNode :=
  mkWordNode (word n) (count n) (next n) (color n) (documents n) (lastAccessed n)
             (strength n) q (holographicPattern n) (entangledNodes n) (position n).

Definition set_holographicPattern (p : HolographicPattern) (n : WordNode) : WordNode :=
  mkWordNode (word n) (count n) (next n) (color n) (documents n) (lastAccessed n)
             (strength n) (quantumState n) p (entangledNodes n) (position n).

Definition set_next (m : list (string * Successor)) (n : WordNode) : WordNode :=
  mkWordNode (word n) (count n) m (color n) (documents n) (lastAccessed n)
             (strength n) (quantumState n) (holographicPattern n) (entangledNodes n) (position n).

Definition set_phase (p : R) (q : QuantumState) : QuantumState :=
  {| amplitude := amplitude q; phase := p |}.

(** *** The world *)

Definition Math_random (w : World) : R * World :=
  (random w (draws w),
   mkWorld (random w) (S (draws w)) (clock w) (ticks w) (console w) (localStorage w)
           (quota_exceeded w)).

Definition Date_now (w : World) : R * World :=
  (clock w (ticks w),
   mkWorld (random w) (draws w) (clock w) (S (ticks w)) (console w) (localStorage w)
           (quota_exceeded w)).

(** [console.warn(msg)]. *)
Definition console_warn (msg : string) (w : World) : World :=
  mkWorld (random w) (draws w) (clock w) (ticks w) (console w ++ [(ConsoleWarn, msg)])
          (localStorage w) (quota_exceeded w).

(** [console.error(msg, error)]; the line is kept by its message. *)
Definition console_error (msg : string) (w : World) : World :=
  mkWorld (random w) (draws w) (clock w) (ticks w) (console w ++ [(ConsoleError, msg)])
          (localStorage w) (quota_exceeded w).

Definition set_localStorage (ls : gmap string string) (w : World) : World :=
  mkWorld (random w) (draws w) (clock w) (ticks w) (console w) ls (quota_exceeded w).

(** *** Quantum and holographic functions *)

Definition createQuantumState (w : World) : QuantumState * World :=
  let (a, w1) := Math_random w in
  let (b, w2) := Math_random w1 in
  let (c, w3) := Math_random w2 in
  ({| amplitude := {| re := a; im := b |}; phase := c * 2 * PI |}, w3).

Definition applyHadamardGate (state : QuantumState) : QuantumState :=
  {| amplitude := Cscale (amplitude state) (1 / sqrt 2); phase := phase state |}.

Definition applyCNOTGate (control target : QuantumState) : QuantumState * QuantumState :=
  if Rlt_dec 0.5 (Cabs (amplitude control))
  then (control, {| amplitude := Cneg (amplitude target); phase := phase target |})
  else (control, target).

Definition quantumInterference (state1 state2 : QuantumState) : R :=
  let phaseDifference := phase state1 - phase state2 in
  let amplitudeProduct := Cmul (amplitude state1) (Cconjugate (amplitude state2)) in
  Cabs amplitudeProduct * cos phaseDifference.

(** The side of the pattern is 32, so a pattern has [32 * 32] cells. *)
Definition PATTERN_CELLS : nat := 32 * 32.

(** Cell [i] takes the [i]-th draw after the ones already made. *)
Definition createHolographicPattern (state : QuantumState) (w : World)
  : HolographicPattern * World :=
  ({| intensity := List.map (fun _ => Cabs (amplitude state) ^ 2) (seq 0 PATTERN_CELLS);
      pattern_phase :=
        List.map (fun i => phase state + random w (draws w + i) * 0.1)
                 (seq 0 PATTERN_CELLS) |},
   mkWorld (random w) (draws w + PATTERN_CELLS) (clock w) (ticks w) (console w)
           (localStorage w) (quota_exceeded w)).

(** [pattern1.intensity.map((v, i) => v + pattern2.intensity[i])]; every
    pattern built by the component has [PATTERN_CELLS] cells, and a read past
    the end of [pattern2] is given the value 0 here. *)
Definition holographicInterference (pattern1 pattern2 : HolographicPattern)
  : HolographicPattern :=
  {| intensity :=
       List.map (fun iv => snd iv + nth (fst iv) (intensity pattern2) 0)
                (combine (seq 0 (length (intensity pattern1))) (intensity pattern1));
     pattern_phase :=
       List.map (fun iv => js_rem (snd iv + nth (fst iv) (pattern_phase pattern2) 0) (2 * PI))
                (combine (seq 0 (length (pattern_phase pattern1))) (pattern_phase pattern1)) |}.

Definition Rsum (l : list R) : R := fold_left Rplus l 0.

Definition reconstructHologram (pattern : HolographicPattern) : QuantumState :=
  let totalIntensity := Rsum (intensity pattern) in
  let averagePhase := Rsum (pattern_phase pattern) / INR (length (pattern_phase pattern)) in
  {| amplitude := {| re := sqrt (totalIntensity / INR (length (intensity pattern))); im := 0 |};
     phase := averagePhase |}.

(** *** Reinforcement

    [store] holds the node objects by key.  [known] is the key set of
    [memory.nodes], the map captured by the callback: the objects of that map
    are the objects of [store] under the same keys, so [memory.nodes.get(e)]
    finds the node [store !! e] when [e] is in [known] and nothing otherwise. *)

(** The body of [node.entangledNodes.forEach]: the partner found in
    [memory.nodes] gets the phase [p]. *)
Definition rephase (p : R) (entangledNode : WordNode) : WordNode :=
  set_quantumState (set_phase p (quantumState entangledNode)) entangledNode.

Definition entangle (known : gset string) (p : R) (store : gmap string WordNode)
  (entangledWord : string) : gmap string WordNode :=
  if bool_decide (entangledWord ∈ known) then alter (rephase p) entangledWord store
  else store.

Definition applyQuantumOperation (known : gset string) (currentWord : string)
  (store : gmap string WordNode) : gmap string WordNode :=
  match store !! currentWord with
  | None => store
  | Some node =>
      let phase' := phase (quantumState node) + PI * strength node / MAX_MEMORY_STRENGTH in
      let amplitude' :=
        if Rle_dec (Cabs (Cscale (amplitude (quantumState node)) 1.1)) 1
        then Cscale (amplitude (quantumState node)) 1.1
        else amplitude (quantumState node) in
      let store1 :=
        <[currentWord :=
            set_quantumState {| amplitude := amplitude'; phase := js_rem phase' (2 * PI) |} node]>
          store in
      fold_left (entangle known (js_rem (phase' + PI) (2 * PI)))
                (entangledNodes node) store1
  end.

(** *** Ingest *)

Definition newNode (currentWord nextWord documentId : string) (w : World)
  : WordNode * World :=
  let (quantumState', w1) := createQuantumState w in
  let (h, w2) := Math_random w1 in
  let (now, w3) := Date_now w2 in
  let (pattern, w4) := createHolographicPattern quantumState' w3 in
  let (px, w5) := Math_random w4 in
  let (py, w6) := Math_random w5 in
  let (pz, w7) := Math_random w6 in
  ({| word := currentWord;
      count := 1;
      next := [(nextWord, {| succ_word := nextWord; succ_count := 1 |})];
      color := {| hue := h * 360; saturation := 50; brightness := 50; alpha := 0.5 |};
      documents := [documentId];
      lastAccessed := now;
      strength := 1;
      quantumState := quantumState';
      holographicPattern := pattern;
      entangledNodes := [nextWord];
      position := {| x := (px - 0.5) * 10; y := (py - 0.5) * 10; z := (pz - 0.5) * 10 |} |},
   w7).

(** The first five statements of the branch for a word that has a node. *)
Definition touch (nextWord documentId : string) (now : R) (node : WordNode) : WordNode :=
  mkWordNode (word node) (S (count node)) (next node) (color node)
             (JsSet.add documentId (documents node)) now
             (Rmin (strength node + 0.1) MAX_MEMORY_STRENGTH)
             (quantumState node) (holographicPattern node)
             (JsSet.add nextWord (entangledNodes node)) (position node).

Definition bump (nextWord : string) (m : list (string * Successor))
  : list (string * Successor) :=
  match JsMap.get nextWord m with
  | Some nextCount =>
      JsMap.set nextWord {| succ_word := succ_word nextCount;
                            succ_count := S (succ_count nextCount) |} m
  | None => JsMap.set nextWord {| succ_word := nextWord; succ_count := 1 |} m
  end.

(** The destructuring assignment of the two gate outputs followed by the
    interference of the two patterns; the right-hand sides are read before
    the two states are written, the first target first. *)
Definition couple (currentWord nextWord : string) (store : gmap string WordNode)
  : gmap string WordNode :=
  match store !! nextWord, store !! currentWord with
  | Some nextNode, Some node =>
      let (control', target') :=
        applyCNOTGate (quantumState node) (quantumState nextNode) in
      let store1 := alter (set_quantumState control') currentWord store in
      let store2 := alter (set_quantumState target') nextWord store1 in
      match store2 !! nextWord with
      | Some nextNode' =>
          alter (fun n => set_holographicPattern
                            (holographicInterference (holographicPattern n)
                                                     (holographicPattern nextNode'))
                            n)
                currentWord store2
      | None => store2
      end
  | _, _ => store
  end.

Definition reinforce (known : gset string) (currentWord nextWord documentId : string)
  (store : gmap string WordNode) (w : World) : gmap string WordNode * World :=
  let (now, w1) := Date_now w in
  let store1 := alter (touch nextWord documentId now) currentWord store in
  let store2 := applyQuantumOperation known currentWord store1 in
  let store3 :=
    alter (fun n => set_quantumState (applyHadamardGate (quantumState n)) n)
          currentWord store2 in
  match store3 !! currentWord with
  | None => (store3, w1)
  | Some node =>
      let (pattern, w2) := createHolographicPattern (quantumState node) w1 in
      let store4 := alter (set_holographicPattern pattern) currentWord store3 in
      let store5 := alter (fun n => set_next (bump nextWord (next n)) n) currentWord store4 in
      (couple currentWord nextWord store5, w2)
  end.

(** One turn of the loop over [words[i], words[i + 1]]. *)
Definition ingestPair (known : gset string) (documentId : string)
  (st : gmap string WordNode * World) (p : string * string)
  : gmap string WordNode * World :=
  let (newNodes, w) := st in
  let (currentWord, nextWord) := p in
  match newNodes !! currentWord with
  | None =>
      let (node, w') := newNode currentWord nextWord documentId w in
      (<[currentWord := node]> newNodes, w')
  | Some _ => reinforce known currentWord nextWord documentId newNodes w
  end.

(** *** Consolidation *)

Definition decay (now : R) (node : WordNode) : WordNode :=
  let timeDiff := (now - lastAccessed node) / CONSOLIDATION_INTERVAL in
  set_strength (strength node * exp (- MEMORY_DECAY_RATE * timeDiff)) node.

#[local] Instance Rlt_decision (a b : R) : Decision (a < b) := Rlt_dec a b.

(** The [forEach] of [consolidateMemory] for a given reading [now] of the
    clock: every node is decayed, and the ones that fall under 0.1 are deleted
    from the copy.  Deleting the entry being visited does not disturb the
    visit of the others. *)
Definition consolidate (now : R) (nodes0 : gmap string WordNode) : gmap string WordNode :=
  filter (fun kv => ¬ strength (snd kv) < 0.1) (decay now <$> nodes0).

(** *** The plain object [saveMemory] hands to [JSON.stringify]

    Lines 192 to 212.  The spread [...value] lists the fields of a node in
    the order they were written in, and the fields named after it take the
    place they already have.  A [Map] that the model keeps as a [gmap] is
    listed in the order of [map_to_list]; once the list is made into a map
    again that order plays no part. *)

Definition plain_number (n : nat) : Json := JNumber (INR n).

Definition plain_successor (e : string * Successor) : Json :=
  JArray [JString (fst e);
          JObject [("word", JString (succ_word (snd e)));
                   ("count", plain_number (succ_count (snd e)))]].

Definition plain_color (c : Color) : Json :=
  JObject [("hue", JNumber (hue c)); ("saturation", JNumber (saturation c));
           ("brightness", JNumber (brightness c)); ("alpha", JNumber (alpha c))].

Definition plain_state (q : QuantumState) : Json :=
  JObject [("amplitude", JObject [("re", JNumber (re (amplitude q)));
                                  ("im", JNumber (im (amplitude q)))]);
           ("phase", JNumber (phase q))].

Definition plain_pattern (p : HolographicPattern) : Json :=
  JObject [("intensity", JArray (List.map JNumber (intensity p)));
           ("phase", JArray (List.map JNumber (pattern_phase p)))].

Definition plain_position (v : Vector3) : Json :=
  JObject [("x", JNumber (x v)); ("y", JNumber (y v)); ("z", JNumber (z v))].

Definition plain_node (value : WordNode) : Json :=
  JObject [("word", JString (word value));
           ("count", plain_number (count value));
           ("next", JArray (List.map plain_successor (next value)));
           ("color", plain_color (color value));
           ("documents", JArray (List.map JString (documents value)));
           ("lastAccessed", JNumber (lastAccessed value));
           ("strength", JNumber (strength value));
           ("quantumState", plain_state (quantumState value));
           ("holographicPattern", plain_pattern (holographicPattern value));
           ("entangledNodes", JArray (List.map JString (entangledNodes value)));
           ("position", plain_position (position value))].

Definition serializable (memory : Memory) : Json :=
  JObject [("nodes",
            JArray (List.map (fun kv => JArray [JString (fst kv); plain_node (snd kv)])
                             (map_to_list (nodes memory))));
           ("totalDocuments", plain_number (totalDocuments memory));
           ("lastConsolidation", JNumber (lastConsolidation memory));
           ("quantumCoherence", JNumber (quantumCoherence memory));
           ("documentContents",
            JArray (List.map (fun kv => JArray [JString (fst kv); JString (snd kv)])
                             (map_to_list (documentContents memory))))].

(** *** The rebuilding of the memory in [loadMemory]

    Lines 245 to 266, on a parsed value of the shape [serializable] writes.
    On a value of another shape the code throws inside the [try] block or
    builds a node with fields of types that the records of the model do not
    hold; [revive] answers [None] for both. *)

Definition field (name : string) (j : Json) : option Json :=
  match j with
  | JObject fields => JsMap.get name fields
  | _ => None
  end.

Definition as_number (j : Json) : option R :=
  match j with JNumber r => Some r | _ => None end.

Definition as_string (j : Json) : option string :=
  match j with JString s => Some s | _ => None end.

(** A number that is a count. *)
Definition as_count (j : Json) : option nat :=
  match j with
  | JNumber r =>
      let n := Z.to_nat (Int_part r) in
      if Req_dec_T r (INR n) then Some n else None
  | _ => None
  end.

(** [[key, value]] of an entry. *)
Definition as_entry (j : Json) : option (Json * Json) :=
  match j with
  | JArray [key; value] => Some (key, value)
  | _ => None
  end.

(** An array all of whose members are read by [f]. *)
Definition all_of {A : Type} (f : Json -> option A) (j : Json) : option (list A) :=
  match j with
  | JArray items => mapM (M := option) f items
  | _ => None
  end.

(** [new Set(array)]. *)
Definition new_Set (array : list string) : list string :=
  fold_left (fun s d => JsSet.add d s) array [].

(** [new Map(entries)]. *)
Definition new_Map {V : Type} (entries : list (string * V)) : list (string * V) :=
  fold_left (fun m e => JsMap.set (fst e) (snd e) m) entries [].

Definition revive_successor (j : Json) : option (string * Successor) :=
  '(key, value) ← as_entry j;
  k ← as_string key;
  w ← field "word" value ≫= as_string;
  c ← field "count" value ≫= as_count;
  Some (k, {| succ_word := w; succ_count := c |}).

Definition revive_color (j : Json) : option Color :=
  h ← field "hue" j ≫= as_number;
  s ← field "saturation" j ≫= as_number;
  b ← field "brightness" j ≫= as_number;
  a ← field "alpha" j ≫= as_number;
  Some {| hue := h; saturation := s; brightness := b; alpha := a |}.

Definition revive_state (j : Json) : option QuantumState :=
  a ← field "amplitude" j;
  r ← field "re" a ≫= as_number;
  i ← field "im" a ≫= as_number;
  p ← field "phase" j ≫= as_number;
  Some {| amplitude := {| re := r; im := i |}; phase := p |}.

Definition revive_pattern (j : Json) : option HolographicPattern :=
  i ← field "intensity" j ≫= all_of as_number;
  p ← field "phase" j ≫= all_of as_number;
  Some {| intensity := i; pattern_phase := p |}.

Definition revive_position (j : Json) : option Vector3 :=
  px ← field "x" j ≫= as_number;
  py ← field "y" j ≫= as_number;
  pz ← field "z" j ≫= as_number;
  Some {| x := px; y := py; z := pz |}.

Definition revive_node (value : Json) : option WordNode :=
  w ← field "word" value ≫= as_string;
  c ← field "count" value ≫= as_count;
  nx ← field "next" value ≫= all_of revive_successor;
  col ← field "color" value ≫= revive_color;
  docs ← field "documents" value ≫= all_of as_string;
  la ← field "lastAccessed" value ≫= as_number;
  st ← field "strength" value ≫= as_number;
  q ← field "quantumState" value ≫= revive_state;
  h ← field "holographicPattern" value ≫= revive_pattern;
  ent ← field "entangledNodes" value ≫= all_of as_string;
  pos ← field "position" value ≫= revive_position;
  Some {| word := w; count := c; next := new_Map nx; color := col;
          documents := new_Set docs; lastAccessed := la; strength := st;
          quantumState := q; holographicPattern := h;
          entangledNodes := new_Set ent; position := pos |}.

Definition revive_node_entry (j : Json) : option (string * WordNode) :=
  '(key, value) ← as_entry j;
  k ← as_string key;
  node ← revive_node value;
  Some (k, node).

Definition revive_content_entry (j : Json) : option (string * string) :=
  '(key, value) ← as_entry j;
  k ← as_string key;
  v ← as_string value;
  Some (k, v).

(** [new Map(entries)] for a map kept as a [gmap]: a later entry replaces an
    earlier one with the same key. *)
Definition map_of_entries {V : Type} (entries : list (string * V)) : gmap string V :=
  fold_left (fun m e => <[fst e := snd e]> m) entries ∅.

Definition revive (parsed : Json) : option Memory :=
  nodes0 ← field "nodes" parsed ≫= all_of revive_node_entry;
  total ← field "totalDocuments" parsed ≫= as_count;
  last ← field "lastConsolidation" parsed ≫= as_number;
  coherence ← field "quantumCoherence" parsed ≫= as_number;
  contents ← field "documentContents" parsed ≫= all_of revive_content_entry;
  Some {| nodes := map_of_entries nodes0; totalDocuments := total;
          lastConsolidation := last; quantumCoherence := coherence;
          documentContents := map_of_entries contents |}.

(** *** Persistence, ingest, consolidation and generation

    [JSON.stringify] and [JSON.parse] are the platform's: they are taken as
    given, on plain values; [JSON_parse] answers [None] where [JSON.parse]
    throws. *)

Section Component.

Variable JSON_stringify : Json -> string.
Variable JSON_parse : string -> option Json.

Definition chunk_key (index : nat) : string := MEMORY_KEY_PREFIX +:+ pretty index.

(** The [try] block writes the chunk; when [setItem] throws, the [catch]
    block writes a line to the console and the storage stays as it was. *)
Definition saveMemoryChunk (chunk : string) (index : nat) (w : World) : World :=
  if quota_exceeded w (localStorage w) (chunk_key index) chunk
  then console_error "Error saving memory chunk:" w
  else set_localStorage (<[chunk_key index := chunk]> (localStorage w)) w.

Definition loadMemoryChunk (index : nat) (ls : gmap string string) : option string :=
  ls !! chunk_key index.

(** [for (let i = 0; i < s.length; i += CHUNK_SIZE) chunks.push(s.slice(i, i + CHUNK_SIZE))];
    the loop makes at most [s.length] turns, which is the fuel given to it. *)
Fixpoint chunk_loop (fuel i : nat) (s : string) : list string :=
  match fuel with
  | O => []
  | S fuel' =>
      if (i <? String.length s)%nat
      then JsString.slice i (i + CHUNK_SIZE) s :: chunk_loop fuel' (i + CHUNK_SIZE) s
      else []
  end.

Definition split_chunks (s : string) : list string := chunk_loop (String.length s) 0 s.

(** [chunks.forEach((chunk, index) => { if (index < MAX_CHUNKS) saveMemoryChunk(chunk, index) })]. *)
Definition write_chunks (chunks : list string) (w : World) : World :=
  fold_left (fun w0 ic => if (fst ic <? MAX_CHUNKS)%nat
                          then saveMemoryChunk (snd ic) (fst ic) w0 else w0)
            (combine (seq 0 (length chunks)) chunks) w.

(** [for (let i = chunks.length; i < MAX_CHUNKS; i++) localStorage.removeItem(key i)]. *)
Definition clear_excess (from : nat) (w : World) : World :=
  fold_left (fun w0 i => set_localStorage (delete (chunk_key i) (localStorage w0)) w0)
            (seq from (MAX_CHUNKS - from)) w.

Definition saveMemory (memory : Memory) (w : World) : World :=
  let serializedMemory := JSON_stringify (serializable memory) in
  let chunks := split_chunks serializedMemory in
  clear_excess (length chunks) (write_chunks chunks w).

(** The reading loop of [loadMemory] from index [i]; [fuel] is
    [MAX_CHUNKS - i].  An absent key and an empty chunk both end the loop. *)
Fixpoint read_chunks (ls : gmap string string) (i fuel : nat) : string :=
  match fuel with
  | O => EmptyString
  | S fuel' =>
      match loadMemoryChunk i ls with
      | Some chunk =>
          if JsString.is_empty chunk then EmptyString
          else chunk +:+ read_chunks ls (S i) fuel'
      | None => EmptyString
      end
  end.

(** Whatever is thrown inside the [try] block, by [JSON.parse] or by the
    rebuilding, ends in the [catch] block. *)
Definition loadMemory (memory : Memory) (w : World) : Memory * World :=
  let serializedMemory := read_chunks (localStorage w) 0 MAX_CHUNKS in
  if JsString.is_empty serializedMemory then (memory, w)
  else match JSON_parse serializedMemory ≫= revive with
       | Some loaded => (loaded, w)
       | None => (memory, console_error "Error loading memory:" w)
       end.

Definition oversize_warning : string :=
  "Document size exceeds limit. Processing first 1000000 characters.".

(** [saveMemory] is the callback of the same render as the caller, so it
    serializes the captured [memory]: the map it holds has the keys it had
    when the call began, and its node objects are the ones the call has just
    written to. *)
Definition captured (memory : Memory) (store : gmap string WordNode) : Memory :=
  mkMemory (filter (fun kv => fst kv ∈ dom (nodes memory)) store)
           (totalDocuments memory) (lastConsolidation memory)
           (quantumCoherence memory) (documentContents memory).

Definition processText (memory : Memory) (text documentId : string) (w : World)
  : Memory * World :=
  let (text', w0) :=
    if (MAX_DOCUMENT_SIZE <? String.length text)%nat
    then (JsString.slice 0 MAX_DOCUMENT_SIZE text, console_warn oversize_warning w)
    else (text, w) in
  let words := Tokenizer.tokenize text' in
  let newDocumentContents := <[documentId := text']> (documentContents memory) in
  let (newNodes, w1) :=
    fold_left (ingestPair (dom (nodes memory)) documentId)
              (JsArray.pairs words) (nodes memory, w0) in
  let newCoherence := Rmax 0 (quantumCoherence memory * (1 - QUANTUM_COHERENCE_DECAY)) in
  (mkMemory newNodes (S (totalDocuments memory)) (lastConsolidation memory)
            newCoherence newDocumentContents,
   saveMemory (captured memory newNodes) w1).

Definition consolidateMemory (memory : Memory) (w : World) : Memory * World :=
  let (now, w1) := Date_now w in
  (mkMemory (consolidate now (nodes memory)) (totalDocuments memory) now
            (quantumCoherence memory) (documentContents memory),
   saveMemory (captured memory (decay now <$> nodes memory)) w1).

(** *** Generation: the choice of the next word *)

Definition entangledBoost : R := 1.5.

Definition boost (node : WordNode) (candidate : string) : R :=
  if JsSet.has candidate (entangledNodes node) then entangledBoost else 1.

(** [nodes.get(word)?.strength || 0]. *)
Definition strength_or_0 (store : gmap string WordNode) (candidate : string) : R :=
  match store !! candidate with
  | Some n => strength n
  | None => 0
  end.

Definition sort_key (store : gmap string WordNode) (node : WordNode)
  (e : string * Successor) : R :=
  INR (succ_count (snd e)) * strength_or_0 store (fst e) * boost node (fst e).

(** The comparator [(a, b) => key b - key a] is not positive. *)
Definition by_score (store : gmap string WordNode) (node : WordNode)
  (a b : string * Successor) : bool :=
  if Rle_dec (sort_key store node b - sort_key store node a) 0 then true else false.

Definition totalStrength (store : gmap string WordNode) (node : WordNode)
  (nextWords : list (string * Successor)) : R :=
  fold_left (fun sum e => sum + strength_or_0 store (fst e) * boost node (fst e))
            nextWords 0.

(** The [for ... of] loop: [random] is the running remainder and [chosen]
    the value [nextWord] holds when the loop ends without a [break]. *)
Fixpoint pick (store : gmap string WordNode) (node : WordNode) (random0 : R)
  (nextWords : list (string * Successor)) (chosen : string) : string :=
  match nextWords with
  | [] => chosen
  | e :: rest =>
      match store !! fst e with
      | None => pick store node random0 rest chosen
      | Some nextNode =>
          let random1 := random0 - strength nextNode * boost node (fst e) in
          if Rle_dec random1 0 then fst e else pick store node random1 rest chosen
      end
  end.

(** Lines 477 to 507 for a draw [u] of [Math.random]. *)
Definition selectNext (store : gmap string WordNode) (node : WordNode) (u : R) : string :=
  let nextWords := JsArray.sort (by_score store node) (next node) in
  let random0 := u * totalStrength store node nextWords in
  pick store node random0 nextWords
       (match nextWords with e :: _ => fst e | [] => EmptyString end).

Definition maxLength : nat := 100.

(** The [while] loop.  [fuel] is [maxLength - response.length], so the test
    [response.length < maxLength] is the test that fuel is left; every turn
    that does not leave the loop pushes one word. *)
Fixpoint generate_loop (fuel : nat) (coherence : R) (store : gmap string WordNode)
  (currentWord : string) (response : list string) (w : World)
  : list string * gmap string WordNode * World :=
  match fuel with
  | O => (response, store, w)
  | S fuel' =>
      match store !! currentWord with
      | None => (response, store, w)
      | Some node0 =>
          if (length (next node0) =? 0)%nat then (response, store, w)
          else
            let interference :=
              quantumInterference (quantumState node0)
                {| amplitude := {| re := coherence; im := 0 |}; phase := 0 |} in
            let (now, w1) := Date_now w in
            let node :=
              set_strength (Rmin (strength node0 + 0.05 * (1 + interference))
                                 MAX_MEMORY_STRENGTH)
                           (set_lastAccessed now node0) in
            let store1 := <[currentWord := node]> store in
            let (u, w2) := Math_random w1 in
            let nextWord := selectNext store1 node u in
            let store2 :=
              alter (fun selectedNode =>
                       set_quantumState
                         (reconstructHologram (holographicPattern selectedNode))
                         selectedNode)
                    nextWord store1 in
            let response' := response ++ [nextWord] in
            if (20 <=? length response')%nat
            then let (v, w3) := Math_random w2 in
                 if Rlt_dec v 0.1 then (response', store2, w3)
                 else generate_loop fuel' coherence store2 nextWord response' w3
            else generate_loop fuel' coherence store2 nextWord response' w2
      end
  end.

(** The branch of [generateResponse] taken when no text generation backend
    is connected. *)
Definition generateResponse (memory : Memory) (input : string) (w : World)
  : string * Memory * World :=
  let words := Tokenizer.tokenize input in
  match words with
  | [] => (EmptyString, memory, w)
  | _ =>
      let currentWord := List.last words EmptyString in
      let '(response, store, w1) :=
        generate_loop (maxLength - length words) (quantumCoherence memory)
                      (nodes memory) currentWord words w in
      let memory' := mkMemory store (totalDocuments memory) (lastConsolidation memory)
                              (quantumCoherence memory) (documentContents memory) in
      (Tokenizer.join response, memory', saveMemory memory' w1)
  end.

End Component.

(** *** The draw as the specification words it

    The weight of a candidate is
    [transitionCount * strength(candidate) * (|a_current| * |a_candidate| *
    cos(phase_current - phase_candidate))], times 1.5 for a candidate in the
    co-occurring set; the candidates are taken in the insertion order of
    [next] and the first one whose cumulative weight reaches
    [u * totalScore] is drawn. *)

Definition resonance (a b : QuantumState) : R :=
  Cabs (amplitude a) * Cabs (amplitude b) * cos (phase a - phase b).

Definition spec_weight (store : gmap string WordNode) (node : WordNode)
  (e : string * Successor) : R :=
  match store !! fst e with
  | Some candidate =>
      INR (succ_count (snd e)) * strength candidate
      * resonance (quantumState node) (quantumState candidate)
      * boost node (fst e)
  | None => 0
  end.

Fixpoint spec_draw (store : gmap string WordNode) (node : WordNode) (r : R)
  (candidates : list (string * Successor)) (chosen : string) : string :=
  match candidates with
  | [] => chosen
  | e :: rest =>
      let r' := r - spec_weight store node e in
      if Rle_dec r' 0 then fst e else spec_draw store node r' rest chosen
  end.

Definition spec_selectNext (store : gmap string WordNode) (node : WordNode) (u : R) : string :=
  let totalScore := fold_left (fun sum e => sum + spec_weight store node e) (next node) 0 in
  spec_draw store node (u * totalScore) (next node)
            (match next node with e :: _ => fst e | [] => EmptyString end).

End QuantumMemory.

(** * Vocabulary of the statements *)

Module Vocabulary.

Import DocumentProcessor.

Definition counts_total (m : list (string * nat)) : nat := list_sum (List.map snd m).

(** Every call to [addWordTransition] made so far, oldest first. *)
Definition replay (rnd : nat -> Q) (calls : list (string * string)) : State :=
  fold_left (fun s p => addWordTransition s (fst p) (snd p)) calls (empty rnd).

Definition totals_agree (st : State) : Prop :=
  forall w wd, words st !! w = Some wd ->
               totalTransitions wd = counts_total (nextWords wd)
               /\ (0 < totalTransitions wd)%nat.

Import QuantumMemory.
Local Open Scope R_scope.

(** The factor by which [consolidateMemory] multiplies a strength. *)
Definition decay_factor (now : R) (node : WordNode) : R :=
  exp (- 0.1 * ((now - lastAccessed node) / 3600000)).

(** A node given by the fields the statements look at; the others are fixed. *)
Definition sample_node (w : string) (s t : R) (a : Complex) (ph : R)
  (nx : list (string * Successor)) (ent : list string) : WordNode :=
  {| QuantumMemory.word := w;
     count := 1;
     next := nx;
     color := {| QuantumMemory.hue := 0; QuantumMemory.saturation := 50;
                 brightness := 50; alpha := 0.5 |};
     documents := [];
     lastAccessed := t;
     strength := s;
     quantumState := {| amplitude := a; phase := ph |};
     holographicPattern := {| intensity := []; pattern_phase := [] |};
     entangledNodes := ent;
     position := {| x := 0; y := 0; z := 0 |} |}.

Definition sample_world (rnd clk : nat -> R) : World :=
  {| QuantumMemory.random := rnd; QuantumMemory.draws := 0;
     clock := clk; ticks := 0; console := []; localStorage := ∅;
     quota_exceeded := fun _ _ _ => false |}.

(** Two words: "a", whose successor and partner is "b", and "b". *)
Definition two_words (a b : Complex) : gmap string WordNode :=
  {[ "a" := sample_node "a" 1 0 a 0
              [("b", {| succ_word := "b"; succ_count := 1 |})] ["b"];
     "b" := sample_node "b" 1 0 b 0 [] [] ]}.

Definition memory_of (store : gmap string WordNode) : Memory :=
  {| nodes := store; totalDocuments := 1; lastConsolidation := 0;
     quantumCoherence := 1; documentContents := ∅ |}.

(** "a" with successors "c" (seen nine times) and "b" (seen once), both
    entangled with it; every node has strength 1, amplitude 1 and phase 0. *)
Definition fork_node : WordNode :=
  sample_node "a" 1 0 {| re := 1; im := 0 |} 0
    [("c", {| succ_word := "c"; succ_count := 9 |});
     ("b", {| succ_word := "b"; succ_count := 1 |})]
    ["c"; "b"].

Definition fork : gmap string WordNode :=
  {[ "a" := fork_node;
     "b" := sample_node "b" 1 0 {| re := 1; im := 0 |} 0 [] [];
     "c" := sample_node "c" 1 0 {| re := 1; im := 0 |} 0 [] [] ]}.

(** The weight the draw of [generateResponse] gives a successor. *)
Definition draw_weight (store : gmap string WordNode) (node : WordNode)
  (e : string * Successor) : R :=
  strength_or_0 store (fst e) * boost node (fst e).

(** The successors whose sort key is [k]. *)
Definition has_key (store : gmap string WordNode) (node : WordNode) (k : R)
  (e : string * Successor) : bool :=
  if Req_dec_T (sort_key store node e) k then true else false.

(** The successors that have a node, the only ones the draw can stop at. *)
Definition with_node (store : gmap string WordNode) (l : list (string * Successor))
  : list (string * Successor) :=
  List.filter (fun e => match store !! fst e with Some _ => true | None => false end) l.

(** A node "a" whose amplitude 0.95 would leave the unit disc when scaled. *)
Definition near_one : gmap string WordNode :=
  {[ "a" := sample_node "a" 1 0 {| re := 0.95; im := 0 |} 0 [] [] ]}.

(** One word, of strength 1, last touched at time 0. *)
Definition one_word : gmap string WordNode :=
  {[ "a" := sample_node "a" 1 0 {| re := 1; im := 0 |} 0 [] [] ]}.



(** A serializer that writes nothing, for statements that do not read
    [localStorage]. *)
Definition silent : Json -> string := fun _ => EmptyString.

(** A node with its quantum state blanked: what is left are the fields that
    only the branch for the node's own word writes. *)
Definition forget_state (n : WordNode) : WordNode :=
  set_quantumState {| amplitude := {| re := 0; im := 0 |}; phase := 0 |} n.

(** Every node of the store has an amplitude of magnitude at most [b]. *)
Definition amplitudes_within (b : R) (store : gmap string WordNode) : Prop :=
  forall k n, store !! k = Some n -> Cabs (amplitude (quantumState n)) <= b.

(** The text [processText] tokenizes. *)
Definition ingested_text (text : string) : string :=
  if (MAX_DOCUMENT_SIZE <? String.length text)%nat
  then JsString.slice 0 MAX_DOCUMENT_SIZE text else text.

(** The number of runs that [match_words] closes from [s] on, [open] telling
    whether a run is being read. *)
Fixpoint runs (s : string) (open : bool) : nat :=
  match s with
  | EmptyString => if open then 1 else 0
  | String c s' =>
      if Tokenizer.is_word_char c then runs s' true
      else ((if open then 1 else 0) + runs s' false)%nat
  end.

(** The loop writes nothing to the console and leaves the random stream
    itself as it is. *)
Definition same_channels (w w' : World) : Prop :=
  console w' = console w /\ random w' = random w.

(** The amplitude [applyQuantumOperation] leaves: scaled by 1.1 when that
    stays within the unit disc, untouched otherwise. *)
Definition scaled_if_within (a : Complex) : Complex :=
  if Rle_dec (Cabs (Cscale a 1.1)) 1 then Cscale a 1.1 else a.

(** The state the reinforced node ends with, for a word not followed by
    itself. *)
Definition reinforced_state (known : gset string) (cur : string) (node : WordNode) : QuantumState :=
  let s' := Rmin (strength node + 0.1) MAX_MEMORY_STRENGTH in
  let turned := phase (quantumState node) + PI * s' / MAX_MEMORY_STRENGTH in
  applyHadamardGate
    {| amplitude := scaled_if_within (amplitude (quantumState node));
       phase := if JsSet.has cur (entangledNodes node) && bool_decide (cur ∈ known)
                then js_rem (turned + PI) (2 * PI)
                else js_rem turned (2 * PI) |}.


(** The storage never refuses a write. *)
Definition never_full (w : World) : Prop :=
  forall ls k v, quota_exceeded w ls k v = false.

(** What one turn of the [forEach] of [saveMemory] makes of the storage
    when the write succeeds. *)
Definition write_step (st : gmap string string) (ic : nat * string) : gmap string string :=
  if (fst ic <? MAX_CHUNKS)%nat then <[chunk_key (fst ic) := snd ic]> st else st.

(** The storage after the [forEach] when every write succeeds. *)
Definition stored (chunks : list string) (ls : gmap string string) : gmap string string :=
  fold_left write_step (combine (seq 0 (length chunks)) chunks) ls.

(** The storage after the removal of the chunk keys from [from] on. *)
Definition without_excess (from : nat) (ls : gmap string string) : gmap string string :=
  fold_left (fun st i => delete (chunk_key i) st) (seq from (MAX_CHUNKS - from)) ls.




Definition empty_memory : Memory :=
  {| nodes := ∅; totalDocuments := 0; lastConsolidation := 0;
     quantumCoherence := 1; documentContents := ∅ |}.





End Vocabulary.

Import Vocabulary.

(** * The rest of the two files

    The statistics, the context lookup, the second tokenizer and the
    response generator and word statistics of [DocumentProcessor], and the
    vocabulary of what is proved about them. *)

(** ** The statistics panel and the context given to the backend *)

Module Panel.

Import QuantumMemory.
Local Open Scope R_scope.

Record Stats := mkStats {
  totalWords : nat;
  activeMemories : nat;
  quantumFidelity : R;
  networkEfficiency : R
}.

#[local] Instance Rle_decision (a b : R) : Decision (a <= b) := Rle_dec a b.

(** [nodes.forEach] adds up the magnitudes; the sum of reals does not depend
    on the order of the visit. *)
Definition calculateQuantumFidelity (nodes0 : gmap string WordNode) : R :=
  map_fold (fun _ node totalFidelity => totalFidelity + Cabs (amplitude (quantumState node)))
           0 nodes0
  / INR (size nodes0).

Definition calculateNetworkEfficiency (nodes0 : gmap string WordNode) : R := 1.

Definition updateStats (nodes0 : gmap string WordNode) : Stats :=
  {| totalWords := size nodes0;
     activeMemories := size (filter (fun kv => 0.1 <= strength (snd kv)) nodes0);
     quantumFidelity := calculateQuantumFidelity nodes0;
     networkEfficiency := calculateNetworkEfficiency nodes0 |}.

(** [Array.from(new Set(array))]: the members in the order of their first
    occurrence. *)
Definition unique (l : list string) : list string :=
  fold_left (fun s d => JsSet.add d s) l [].

(** [array.join(sep)]. *)
Fixpoint join_with (sep : string) (l : list string) : string :=
  match l with
  | [] => EmptyString
  | [a] => a
  | a :: l' => a +:+ sep +:+ join_with sep l'
  end.

Definition newline : string := String (ascii_of_nat 10) EmptyString.

(** The documents of the nodes of the words of [input], each once, the
    first five of them: [uniqueDocuments.slice(0, 5)]. *)
Definition relevantDocuments (memory : Memory) (input : string) : list string :=
  let words := Tokenizer.tokenize input in
  let relevantNodes :=
    flat_map (fun word => match nodes memory !! word with
                          | Some node => documents node
                          | None => []
                          end) words in
  firstn 5 (unique relevantNodes).

Definition describe (memory : Memory) (docId : string) : string :=
  let content := match documentContents memory !! docId with
                 | Some c => c
                 | None => EmptyString
                 end in
  "Document " +:+ docId +:+ ": " +:+ JsString.slice 0 200 content +:+ "...".

Definition getRelevantContext (memory : Memory) (input : string) : string :=
  join_with (newline +:+ newline)
            (List.map (describe memory) (relevantDocuments memory input)).

End Panel.

(** ** DocumentProcessor: the second tokenizer *)

Module DocumentText.

(** The character class [\s] on 8-bit text: tab to carriage return, space
    and the no-break space. *)
Definition is_space (c : ascii) : bool :=
  Tokenizer.between 9 13 c || (nat_of_ascii c =? 32)%nat || (nat_of_ascii c =? 160)%nat.

Definition is_hyphen (c : ascii) : bool := (nat_of_ascii c =? 45)%nat.

(** [s.replace(/[^\w\s-]/g, ' ')]. *)
Fixpoint blank_others (s : string) : string :=
  match s with
  | EmptyString => EmptyString
  | String c s' =>
      String (if Tokenizer.is_word_char c || is_space c || is_hyphen c then c else " "%char)
             (blank_others s')
  end.

(** [s.split(/\s+/)]: the pieces between the runs of white space, the empty
    pieces before a leading run and after a trailing one included.  [cur] is
    the piece being read and [after_space] tells that the last character read
    was white space. *)
Fixpoint split_spaces (s : string) (cur : string) (after_space : bool) : list string :=
  match s with
  | EmptyString => [cur]
  | String c s' =>
      if is_space c
      then if after_space then split_spaces s' EmptyString true
           else cur :: split_spaces s' EmptyString true
      else split_spaces s' (cur +:+ String c EmptyString) false
  end.

Definition tokenizeText (text : string) : list string :=
  List.filter (fun word => negb (String.length word =? 0)%nat)
              (split_spaces (blank_others (Tokenizer.toLowerCase text)) EmptyString false).

Definition countTokens (text : string) : nat := length (tokenizeText text).

(** *** createChunks *)

Definition is_terminator (c : ascii) : bool :=
  (nat_of_ascii c =? 46)%nat || (nat_of_ascii c =? 33)%nat || (nat_of_ascii c =? 63)%nat.

(** Where the scan of [/[^.!?]+[.!?]+/g] stands: before the first match,
    in the run of other characters of a match, or in its run of
    terminators. *)
Inductive Scan := Skip | Body | Tail.

(** The matches from [s] on; [cur] is what has been read of the match under
    way.  A run of other characters that meets the end of the text is no
    match, and neither is any part of it. *)
Fixpoint scan_sentences (s : string) (mode : Scan) (cur : string) : list string :=
  match s with
  | EmptyString =>
      match mode with
      | Tail => [cur]
      | _ => []
      end
  | String c s' =>
      if is_terminator c
      then match mode with
           | Skip => scan_sentences s' Skip EmptyString
           | _ => scan_sentences s' Tail (cur +:+ String c EmptyString)
           end
      else match mode with
           | Tail => cur :: scan_sentences s' Body (String c EmptyString)
           | _ => scan_sentences s' Body (cur +:+ String c EmptyString)
           end
  end.

(** [text.match(/[^.!?]+[.!?]+/g) || [text]]: [match] answers [null] when
    there is no match. *)
Definition sentences_of (text : string) : list string :=
  match scan_sentences text Skip EmptyString with
  | [] => [text]
  | l => l
  end.

Fixpoint trimStart (s : string) : string :=
  match s with
  | EmptyString => EmptyString
  | String c s' => if is_space c then trimStart s' else s
  end.

Fixpoint trimEnd (s : string) : string :=
  match s with
  | EmptyString => EmptyString
  | String c s' =>
      match trimEnd s' with
      | EmptyString => if is_space c then EmptyString else String c EmptyString
      | r => String c r
      end
  end.

(** [String.prototype.trim] on 8-bit text. *)
Definition trim (s : string) : string := trimEnd (trimStart s).

Record DocumentChunk := mkChunk {
  chunk_text : string;
  index : nat;
  total : Z
}.

Section Chunks.

(** The class declares no [CHUNK_SIZE]; what [this.CHUNK_SIZE] reads is
    taken as given, [None] standing for [undefined], which no number
    exceeds. *)
Variable CHUNK_SIZE : option nat.

Definition exceeds (potentialChunk : string) : bool :=
  match CHUNK_SIZE with
  | Some size => (size <? countTokens potentialChunk)%nat
  | None => false
  end.

(** One turn of the [for ... of] loop; the state is [chunks] and
    [currentChunk], and [chunkIndex] is the length of [chunks]. *)
Definition chunk_step (st : list DocumentChunk * string) (sentence : string)
  : list DocumentChunk * string :=
  let (chunks, currentChunk) := st in
  let potentialChunk := currentChunk +:+ sentence in
  if exceeds potentialChunk && negb (JsString.is_empty currentChunk)
  then (chunks ++ [{| chunk_text := trim currentChunk; index := length chunks;
                      total := (-1)%Z |}],
        sentence)
  else (chunks, potentialChunk).

Definition createChunks (text : string) : list DocumentChunk :=
  let (chunks, currentChunk) := fold_left chunk_step (sentences_of text) ([], EmptyString) in
  let chunks' :=
    if JsString.is_empty (trim currentChunk) then chunks
    else chunks ++ [{| chunk_text := trim currentChunk; index := length chunks;
                       total := (-1)%Z |}] in
  let total' := Z.of_nat (length chunks') in
  List.map (fun chunk => {| chunk_text := chunk_text chunk; index := index chunk;
                            total := total' |}) chunks'.

End Chunks.

End DocumentText.

(** ** DocumentProcessor: the response generator and the word statistics

    [generateResponse] and [getWordStats] read the keys and the values of the
    static [words] map in the order of their insertion, so the table is taken
    here together with the list of its keys in that order. *)

Module DocumentTable.

Import DocumentProcessor.
Local Open Scope Q_scope.

Record Table := mkTable {
  state : State;
  keys : list string
}.

Definition empty_table (rnd : nat -> Q) : Table :=
  {| state := DocumentProcessor.empty rnd; keys := [] |}.

(** [this.words.has(word)]. *)
Definition has (t : Table) (w : string) : bool :=
  match words (state t) !! w with
  | Some _ => true
  | None => false
  end.

(** [addWordTransition] with the key order kept: a new word goes to the
    end, a known one keeps its place. *)
Definition addWordTransition (t : Table) (currentWord nextWord : string) : Table :=
  {| state := DocumentProcessor.addWordTransition (state t) currentWord nextWord;
     keys := if has t currentWord then keys t else keys t ++ [currentWord] |}.

Definition Math_random (st : State) : Q * State :=
  (random st (draws st),
   {| words := words st; random := random st; draws := S (draws st) |}).

Definition MIN_SENTENCE_LENGTH : Z := 5.
Definition MAX_SENTENCE_LENGTH : Z := 15.

(** Lines 142 to 146: the last word of the input when the table has it,
    otherwise the first word of the input that the table has, otherwise the
    first key of the table; [None] stands for [undefined].  The empty string
    is falsy, so it gives way to the first key as well. *)
Definition start_word (t : Table) (inputWords : list string) : option string :=
  let currentWord := List.last inputWords EmptyString in
  if has t currentWord then Some currentWord
  else match List.find (has t) inputWords with
       | Some w => if JsString.is_empty w then List.head (keys t) else Some w
       | None => List.head (keys t)
       end.

(** The [for ... of] loop of the weighted selection: [chosen] is the value
    [nextWord] holds when the loop ends without a [break]. *)
Fixpoint select (probabilities : list TransitionProbability)
  (random0 cumulativeProbability : Q) (chosen : string) : string :=
  match probabilities with
  | [] => chosen
  | tp :: rest =>
      let cumulative := cumulativeProbability + probability tp in
      if Qle_bool random0 cumulative then tp_word tp
      else select rest random0 cumulative chosen
  end.

(** The loop [for (let i = 1; i < length; i++)]; [fuel] is the number of
    turns left. *)
Fixpoint respond (fuel : nat) (st : State) (currentWord : string)
  (response : list string) : list string * State :=
  match fuel with
  | O => (response, st)
  | S fuel' =>
      match getNextWordProbabilities st currentWord with
      | [] => (response, st)
      | first :: rest =>
          let (random0, st1) := Math_random st in
          let nextWord := select (first :: rest) random0 0 (tp_word first) in
          respond fuel' st1 nextWord (response ++ [nextWord])
      end
  end.

(** With [undefined] as the starting word the table has no entry to read,
    the loop ends at once and [[undefined].join(' ')] is the empty string. *)
Definition generateResponse (t : Table) (input : string) : string * Table :=
  let inputWords := Tokenizer.tokenize input in
  match inputWords with
  | [] => (EmptyString, t)
  | _ =>
      let t1 := fold_left (fun t0 p => addWordTransition t0 (fst p) (snd p))
                          (JsArray.pairs inputWords) t in
      let currentWord := start_word t1 inputWords in
      let (r, st2) := Math_random (state t1) in
      let length :=
        (Qfloor (r * inject_Z (MAX_SENTENCE_LENGTH - MIN_SENTENCE_LENGTH + 1))
         + MIN_SENTENCE_LENGTH)%Z in
      match currentWord with
      | None => (EmptyString, {| state := st2; keys := keys t1 |})
      | Some start =>
          let (response, st3) := respond (Z.to_nat (length - 1)) st2 start [start] in
          (Tokenizer.join response, {| state := st3; keys := keys t1 |})
      end
  end.

(** The comparator [(a, b) => b.frequency - a.frequency] is not positive. *)
Definition by_frequency (a b : WordData) : bool := (frequency b <=? frequency a)%nat.

(** [Array.from(this.words.values())]: the values in the order of the keys. *)
Definition values (t : Table) : list WordData :=
  omap (fun k => words (state t) !! k) (keys t).

Definition getWordStats (t : Table) : list WordData :=
  JsArray.sort by_frequency (values t).

End DocumentTable.

(** ** Vocabulary of the statements about the word table *)

Module TableVocabulary.

Import DocumentProcessor.

Definition frequency_of (st : State) (w : string) : nat :=
  match words st !! w with
  | Some wd => frequency wd
  | None => O
  end.

Definition total_of (st : State) (w : string) : nat :=
  match words st !! w with
  | Some wd => totalTransitions wd
  | None => O
  end.

(** The count stored for the transition from [a] to [b], 0 when there is
    none. *)
Definition transition_count (st : State) (a b : string) : nat :=
  match words st !! a with
  | Some wd => match JsMap.get b (nextWords wd) with
               | Some c => c
               | None => O
               end
  | None => O
  end.

Definition Qsum (l : list Q) : Q := fold_right Qplus 0%Q l.

(** The keys of a table are the words it has, each once. *)
Definition keys_agree (t : DocumentTable.Table) : Prop :=
  List.NoDup (DocumentTable.keys t)
  /\ forall w, In w (DocumentTable.keys t) <-> is_Some (words (DocumentTable.state t) !! w).

(** Every call to [addWordTransition] made so far, oldest first, with the
    key order. *)
Definition replay_table (rnd : nat -> Q) (calls : list (string * string))
  : DocumentTable.Table :=
  fold_left (fun t p => DocumentTable.addWordTransition t (fst p) (snd p)) calls
            (DocumentTable.empty_table rnd).

(** [cont] is a walk from [prev] along stored transitions of the table. *)
Fixpoint follows (st : State) (prev : string) (cont : list string) : Prop :=
  match cont with
  | [] => True
  | x :: rest =>
      (exists wd, words st !! prev = Some wd /\ In x (List.map fst (nextWords wd)))
      /\ follows st x rest
  end.

End TableVocabulary.

Import TableVocabulary.

(** ** Vocabulary of the further statements *)

Module Invariants.

Import QuantumMemory.
Local Open Scope R_scope.

(** A node without its quantum state and its pattern: the fields that an
    ingest writes only in the branch for the node's own word. *)
Definition classical (n : WordNode) : WordNode :=
  set_holographicPattern {| intensity := []; pattern_phase := [] |} (forget_state n).

(** What a turn of the loop for a word that has a node makes of the fields
    of that node outside its quantum state and pattern. *)
Definition restated (nextWord documentId : string) (now : R) (node : WordNode) : WordNode :=
  set_next (bump nextWord (next node)) (touch nextWord documentId now node).

(** A node with its strength, access time and quantum state blanked: what
    is left are the fields that generation never writes. *)
Definition frozen (n : WordNode) : WordNode :=
  set_strength 0 (set_lastAccessed 0 (forget_state n)).

(** [node.count] of the word, 0 for a word without a node. *)
Definition count_of (store : gmap string WordNode) (k : string) : nat :=
  match store !! k with
  | Some n => count n
  | None => O
  end.

(** The count of the transition from [a] to [b], 0 when there is none. *)
Definition transitions_of (store : gmap string WordNode) (a b : string) : nat :=
  match store !! a with
  | Some n => match JsMap.get b (next n) with
              | Some s => succ_count s
              | None => O
              end
  | None => O
  end.

Definition pair_eq_dec (p q : string * string) : {p = q} + {p <> q}.
Proof. decide equality; apply string_dec. Defined.

(** Every successor of every node is in the entangled set of the node. *)
Definition successors_entangled (store : gmap string WordNode) : Prop :=
  forall k n e, store !! k = Some n -> In e (next n) ->
                JsSet.has (fst e) (entangledNodes n) = true.

(** Every node sits under its own word and every transition under the word
    of its successor. *)
Definition well_keyed (store : gmap string WordNode) : Prop :=
  forall k n, store !! k = Some n ->
              word n = k /\ forall e, In e (next n) -> succ_word (snd e) = fst e.

Definition strengths_capped (store : gmap string WordNode) : Prop :=
  forall k n, store !! k = Some n -> strength n <= MAX_MEMORY_STRENGTH.

(** [cont] is a walk from [prev] along recorded transitions of [store]. *)
Fixpoint walk (store : gmap string WordNode) (prev : string) (cont : list string) : Prop :=
  match cont with
  | [] => True
  | x :: rest =>
      (exists n, store !! prev = Some n /\ In x (List.map fst (next n)))
      /\ walk store x rest
  end.

(** Every character of the string passes the test. *)
Fixpoint all_chars (p : ascii -> bool) (s : string) : bool :=
  match s with
  | EmptyString => true
  | String c s' => p c && all_chars p s'
  end.

Definition lower_word_char (c : ascii) : bool :=
  Tokenizer.is_word_char c && negb (Tokenizer.is_upper c).

(** A non-empty string of digits, underscores and lower-case letters. *)
Definition is_token (t : string) : bool :=
  negb (JsString.is_empty t) && all_chars lower_word_char t.

End Invariants.

Import Invariants.

(** * Properties *)

(** ** The stable sort *)

Lemma StronglySorted_weaken {A : Type} (R1 R2 : A -> A -> Prop) (l : list A) :
  (forall a b, R1 a b -> R2 a b) -> StronglySorted R1 l -> StronglySorted R2 l.
Proof.
  intros Himp. induction 1 as [| a l Hl IH Ha]; constructor.
  - exact IH.
  - eapply Forall_impl; [exact Ha |]. intros b. apply Himp.
Qed.

Section SortFacts.
Context {A : Type}.
Variable keep : A -> A -> bool.

Lemma insert_Permutation (a : A) (l : list A) :
  Permutation (JsArray.insert keep a l) (a :: l).
Proof.
  induction l as [| b l IH]; simpl.
  - reflexivity.
  - destruct (keep a b).
    + reflexivity.
    + rewrite IH. apply perm_swap.
Qed.

Lemma sort_Permutation (l : list A) : Permutation (JsArray.sort keep l) l.
Proof.
  induction l as [| a l IH]; simpl.
  - reflexivity.
  - rewrite insert_Permutation. now constructor.
Qed.

(** Stability: a class of elements that the comparator never puts apart
    comes out in the order it went in. *)
Lemma filter_insert (P : A -> bool) (a : A) (l : list A) :
  (forall b, In b l -> P a = true -> P b = true -> keep a b = true) ->
  List.filter P (JsArray.insert keep a l) = List.filter P (a :: l).
Proof.
  induction l as [| b l IH]; intros Hties; [reflexivity |].
  cbn [JsArray.insert]. destruct (keep a b) eqn:E; [reflexivity |].
  cbn [List.filter]. rewrite IH by (intros c Hc; apply Hties; now right).
  cbn [List.filter].
  destruct (P a) eqn:Pa, (P b) eqn:Pb; try reflexivity.
  rewrite (Hties b (or_introl eq_refl) eq_refl Pb) in E. discriminate.
Qed.

Lemma filter_sort (P : A -> bool) (l : list A) :
  (forall a b, P a = true -> P b = true -> keep a b = true) ->
  List.filter P (JsArray.sort keep l) = List.filter P l.
Proof.
  intros Hties. induction l as [| a l IH]; [reflexivity |].
  cbn [JsArray.sort]. rewrite filter_insert by (intros b _; apply Hties).
  cbn [List.filter]. now rewrite IH.
Qed.

Hypothesis keep_total : forall a b, keep a b = false -> keep b a = true.
Hypothesis keep_trans : forall a b c, keep a b = true -> keep b c = true -> keep a c = true.

Lemma insert_sorted (a : A) (l : list A) :
  StronglySorted (fun u v => keep u v = true) l ->
  StronglySorted (fun u v => keep u v = true) (JsArray.insert keep a l).
Proof.
  induction 1 as [| b l Hl IH Hb]; simpl.
  - repeat constructor.
  - destruct (keep a b) eqn:E.
    + constructor.
      * now constructor.
      * constructor; [exact E |].
        eapply Forall_impl; [exact Hb |].
        intros c Hc. now apply keep_trans with b.
    + constructor; [exact IH |].
      eapply Permutation_Forall.
      * symmetry. apply insert_Permutation.
      * constructor; [now apply keep_total | exact Hb].
Qed.

Lemma sort_sorted (l : list A) :
  StronglySorted (fun u v => keep u v = true) (JsArray.sort keep l).
Proof.
  induction l as [| a l IH]; simpl.
  - constructor.
  - now apply insert_sorted.
Qed.

End SortFacts.

(** ** The word table of [DocumentProcessor] *)

Section DocumentProcessorFacts.
Import DocumentProcessor.

Lemma counts_total_set (k : string) (m : list (string * nat)) :
  counts_total
    (JsMap.set k (S (match JsMap.get k m with Some c => c | None => O end)) m)
  = S (counts_total m).
Proof.
  unfold counts_total.
  induction m as [| [k' c] m IH]; simpl.
  - reflexivity.
  - destruct (String.eqb k k'); simpl.
    + reflexivity.
    + rewrite IH. lia.
Qed.

Lemma totals_agree_add (st : State) (a b : string) :
  totals_agree st -> totals_agree (addWordTransition st a b).
Proof.
  intros Hst w wd. unfold addWordTransition.
  destruct (words st !! a) as [wa |] eqn:Ea; simpl.
  - rewrite Ea. simpl. intros H.
    destruct (decide (a = w)) as [-> | Hne].
    + rewrite lookup_insert_eq in H. inversion H; subst; clear H. simpl.
      rewrite counts_total_set. destruct (Hst w wa Ea) as [Ht _].
      split; [now f_equal | lia].
    + rewrite lookup_insert_ne in H by assumption. now apply (Hst w).
  - rewrite lookup_insert_eq. simpl. intros H.
    destruct (decide (a = w)) as [-> | Hne].
    + rewrite lookup_insert_eq in H. inversion H; subst; clear H. simpl.
      split; [reflexivity | lia].
    + rewrite lookup_insert_ne in H by assumption.
      rewrite lookup_insert_ne in H by assumption. now apply (Hst w).
Qed.

Lemma totals_agree_fold (calls : list (string * string)) (st : State) :
  totals_agree st ->
  totals_agree (fold_left (fun s p => addWordTransition s (fst p) (snd p)) calls st).
Proof.
  revert st. induction calls as [| p calls IH]; intros st Hst; simpl.
  - exact Hst.
  - apply IH. now apply totals_agree_add.
Qed.

Lemma totals_agree_replay (rnd : nat -> Q) (calls : list (string * string)) :
  totals_agree (replay rnd calls).
Proof.
  apply totals_agree_fold. intros w wd H. simpl in H.
  rewrite lookup_empty in H. discriminate.
Qed.

Lemma by_probability_total (a b : TransitionProbability) :
  by_probability a b = false -> by_probability b a = true.
Proof.
  unfold by_probability. intros H.
  apply Qle_bool_iff. apply Qlt_le_weak. apply Qnot_le_lt.
  intros Hle. apply Qle_bool_iff in Hle. congruence.
Qed.

Lemma by_probability_trans (a b c : TransitionProbability) :
  by_probability a b = true -> by_probability b c = true -> by_probability a c = true.
Proof.
  unfold by_probability. rewrite !Qle_bool_iff. intros H1 H2.
  now apply Qle_trans with (probability b).
Qed.

(** C7.  [getNextWordProbabilities w] is empty when [w] is absent or has no
    successors; for a word with a positive [totalTransitions] it holds one
    entry per stored successor, each with the quotient of the successor's
    count by [totalTransitions] as its probability, in descending order of
    probability.  In every table built by [addWordTransition],
    [totalTransitions] is positive and is the total of the outgoing
    transition counts of the word.  After ingesting
    "the cat sat. the cat ran." into the empty table the entries for "cat" are
    ("sat", 1/2) and ("ran", 1/2); after ingesting "a b a b a c" the entries
    for "a" are ("b", 2/3) and ("c", 1/3), in this order. *)
Theorem getNextWordProbabilities_spec :
  (forall (st : State) (w : string),
     match words st !! w with
     | None => getNextWordProbabilities st w = []
     | Some wd =>
         (nextWords wd = [] -> getNextWordProbabilities st w = [])
         /\ ((0 < totalTransitions wd)%nat ->
             Permutation (getNextWordProbabilities st w)
               (List.map (fun e => {| tp_word := fst e;
                                      probability :=
                                        inject_Z (Z.of_nat (snd e))
                                        / inject_Z (Z.of_nat (totalTransitions wd)) |})
                         (nextWords wd))
             /\ StronglySorted (fun a b => (probability b <= probability a)%Q)
                  (getNextWordProbabilities st w))
     end)
  /\ (forall (rnd : nat -> Q) (calls : list (string * string)) (w : string) (wd : WordData),
        words (replay rnd calls) !! w = Some wd ->
        totalTransitions wd = counts_total (nextWords wd)
        /\ (0 < totalTransitions wd)%nat)
  /\ (forall rnd : nat -> Q,
        getNextWordProbabilities
          (processText (empty rnd) "the cat sat. the cat ran.") "cat"
        = [ {| tp_word := "sat"; probability := 1 # 2 |};
            {| tp_word := "ran"; probability := 1 # 2 |} ])
  /\ (1 # 2 == 0.5)%Q
  /\ (forall rnd : nat -> Q,
        getNextWordProbabilities (processText (empty rnd) "a b a b a c") "a"
        = [ {| tp_word := "b"; probability := 2 # 3 |};
            {| tp_word := "c"; probability := 1 # 3 |} ]).
Proof.
  split; [| split; [| split; [| split]]].
  - intros st w. unfold getNextWordProbabilities.
    destruct (words st !! w) as [wd |] eqn:E; [| reflexivity].
    split.
    + intros ->. reflexivity.
    + intros _. split.
      * apply sort_Permutation.
      * eapply StronglySorted_weaken;
          [| apply sort_sorted;
             [exact by_probability_total | exact by_probability_trans]].
        intros a b H. unfold by_probability in H. now apply Qle_bool_iff.
  - intros rnd calls w wd. apply totals_agree_replay.
  - intros rnd. vm_compute. reflexivity.
  - reflexivity.
  - intros rnd. vm_compute. reflexivity.
Qed.

End DocumentProcessorFacts.

(** ** Consolidation *)

Section ConsolidationFacts.
Import QuantumMemory.
Local Open Scope R_scope.

Lemma strength_decay (now : R) (node : WordNode) :
  strength (decay now node) = strength node * decay_factor now node.
Proof.
  unfold decay, decay_factor, CONSOLIDATION_INTERVAL, MEMORY_DECAY_RATE. simpl.
  replace (1000 * 60 * 60) with 3600000 by lra.
  f_equal. f_equal. lra.
Qed.

Lemma decay_as_set_strength (now : R) (node : WordNode) :
  decay now node = set_strength (strength node * decay_factor now node) node.
Proof.
  rewrite <- strength_decay. reflexivity.
Qed.

#[local] Arguments decay : simpl never.

Lemma lookup_consolidate_None (now : R) (m : gmap string WordNode) (k : string) :
  m !! k = None -> consolidate now m !! k = None.
Proof.
  intros H. unfold consolidate.
  rewrite map_lookup_filter, lookup_fmap, H. reflexivity.
Qed.

Lemma lookup_consolidate_pruned (now : R) (m : gmap string WordNode) (k : string)
  (node : WordNode) :
  m !! k = Some node -> strength node * decay_factor now node < 0.1 ->
  consolidate now m !! k = None.
Proof.
  intros H Hlt. unfold consolidate.
  apply map_lookup_filter_None. right. intros n' Hn' Hkeep.
  rewrite lookup_fmap, H in Hn'. apply (inj Some) in Hn'. subst n'.
  cbn [snd] in Hkeep. rewrite strength_decay in Hkeep. contradiction.
Qed.

Lemma lookup_consolidate_kept (now : R) (m : gmap string WordNode) (k : string)
  (node : WordNode) :
  m !! k = Some node -> 0.1 <= strength node * decay_factor now node ->
  consolidate now m !! k = Some (decay now node).
Proof.
  intros H Hge. unfold consolidate.
  apply map_lookup_filter_Some. split.
  - rewrite lookup_fmap, H. reflexivity.
  - cbn [snd]. rewrite strength_decay. lra.
Qed.

Lemma lookup_consolidate_Some (now : R) (m : gmap string WordNode) (k : string)
  (node' : WordNode) :
  consolidate now m !! k = Some node' ->
  exists node, m !! k = Some node /\ node' = decay now node
               /\ 0.1 <= strength node * decay_factor now node.
Proof.
  unfold consolidate. intros H.
  apply map_lookup_filter_Some in H. destruct H as [H Hkeep].
  rewrite lookup_fmap in H.
  destruct (m !! k) as [node |]; [| discriminate].
  apply (inj Some) in H. subst node'. exists node. repeat split.
  cbn [snd] in Hkeep. rewrite strength_decay in Hkeep. lra.
Qed.

End ConsolidationFacts.

Section ConsolidationClaims.
Import QuantumMemory.
Local Open Scope R_scope.
#[local] Arguments decay : simpl never.

(** C2. [consolidateMemory], with [now] the reading of the clock it takes,
    multiplies the strength of every node by
    e^(-0.1 * (now - lastAccessed) / CONSOLIDATION_INTERVAL), where the
    interval is 3 600 000 ms (one hour); a node whose resulting strength is
    below 0.1 is absent from the new node map, and a node whose resulting
    strength is at least 0.1 is kept with that strength and its other fields
    as they were.  No node appears that was not there. *)
Theorem consolidateMemory_decays_and_prunes
  (JSON_stringify : Json -> string) (memory : Memory) (w : World) (k : string) :
  let now := clock w (ticks w) in
  let memory' := fst (consolidateMemory JSON_stringify memory w) in
  CONSOLIDATION_INTERVAL = 3600000
  /\ match nodes memory !! k with
     | None => nodes memory' !! k = None
     | Some node =>
         let s := strength node
                  * exp (- 0.1 * ((now - lastAccessed node) / CONSOLIDATION_INTERVAL)) in
         (s < 0.1 -> nodes memory' !! k = None)
         /\ (0.1 <= s -> nodes memory' !! k = Some (set_strength s node))
     end.
Proof.
  intros now memory'.
  assert (HI : CONSOLIDATION_INTERVAL = 3600000)
    by (unfold CONSOLIDATION_INTERVAL; lra).
  split; [exact HI |].
  unfold memory', consolidateMemory. cbn [Date_now fst nodes]. fold now.
  destruct (nodes memory !! k) as [node |] eqn:E.
  - rewrite HI. fold (decay_factor now node). split; intros Hs.
    + now apply lookup_consolidate_pruned with node.
    + rewrite <- decay_as_set_strength. now apply lookup_consolidate_kept.
  - now apply lookup_consolidate_None.
Qed.

Lemma decay_factor_decay (now : R) (node : WordNode) :
  decay_factor now (decay now node) = decay_factor now node.
Proof. reflexivity. Qed.

Lemma set_strength_same (node : WordNode) : set_strength (strength node) node = node.
Proof. destruct node. reflexivity. Qed.

Lemma set_strength_twice (a b : R) (node : WordNode) :
  set_strength a (set_strength b node) = set_strength a node.
Proof. reflexivity. Qed.

Lemma decay_factor_one (now : R) (node : WordNode) :
  decay_factor now node = 1 <-> lastAccessed node = now.
Proof.
  unfold decay_factor. split; intros H.
  - rewrite <- exp_0 in H. apply exp_inv in H. lra.
  - rewrite H. replace (-0.1 * ((now - now) / 3600000)) with 0 by lra. apply exp_0.
Qed.

Lemma lookup_consolidate_twice_kept (now : R) (m : gmap string WordNode) (k : string)
  (node : WordNode) :
  m !! k = Some node ->
  0.1 <= strength node * decay_factor now node ->
  0.1 <= strength node * decay_factor now node * decay_factor now node ->
  consolidate now (consolidate now m) !! k
  = Some (set_strength (strength node * decay_factor now node * decay_factor now node) node).
Proof.
  intros Hk H1 H2.
  pose proof (lookup_consolidate_kept now m k node Hk H1) as Honce.
  rewrite (lookup_consolidate_kept now _ k _ Honce).
  - f_equal.
    rewrite (decay_as_set_strength now (decay now node)).
    rewrite decay_factor_decay, strength_decay.
    rewrite (decay_as_set_strength now node).
    apply set_strength_twice.
  - rewrite strength_decay, decay_factor_decay. exact H2.
Qed.

(** C1, as the code has it.  A second [consolidate] with the same [now]
    multiplies every surviving strength by the decay factor once more and
    prunes again, so a node of strength [s] and factor [f] ends with strength
    [s * f * f] when both [s * f] and [s * f * f] are at least 0.1 and is
    absent otherwise.  The second pass changes nothing exactly when every
    node that survives the first pass has [lastAccessed = now]. *)
Theorem consolidate_twice (now : R) (m : gmap string WordNode) :
  (forall k node, m !! k = Some node ->
     let f := decay_factor now node in
     (0.1 <= strength node * f -> 0.1 <= strength node * f * f ->
      consolidate now (consolidate now m) !! k
      = Some (set_strength (strength node * f * f) node))
     /\ (strength node * f < 0.1 \/ strength node * f * f < 0.1 ->
         consolidate now (consolidate now m) !! k = None))
  /\ (consolidate now (consolidate now m) = consolidate now m
      <-> forall k node', consolidate now m !! k = Some node' -> lastAccessed node' = now).
Proof.
  split.
  - intros k node Hk f. split.
    + intros H1 H2. now apply lookup_consolidate_twice_kept.
    + intros H.
      destruct (Rlt_dec (strength node * f) 0.1) as [Hlt | Hge].
      * apply lookup_consolidate_None. now apply lookup_consolidate_pruned with node.
      * destruct H as [H | H]; [contradiction |].
        apply lookup_consolidate_pruned with (decay now node).
        -- apply lookup_consolidate_kept; [exact Hk | fold f; lra].
        -- rewrite strength_decay, decay_factor_decay. exact H.
  - split.
    + intros Heq k node' Hk.
      pose proof Hk as Hk2. rewrite <- Heq in Hk2.
      apply lookup_consolidate_Some in Hk2.
      destruct Hk2 as (n1 & Hn1 & Hn' & Hge).
      rewrite Hk in Hn1. apply (inj Some) in Hn1. subst n1.
      apply decay_factor_one.
      assert (Hs : strength node' = strength node' * decay_factor now node')
        by (rewrite Hn' at 1; apply strength_decay).
      apply lookup_consolidate_Some in Hk.
      destruct Hk as (n0 & _ & Hn0 & Hge0).
      assert (0.1 <= strength node') by (rewrite Hn0, strength_decay; exact Hge0).
      nra.
    + intros Hall. apply map_eq. intros k.
      destruct (consolidate now m !! k) as [node' |] eqn:Hk.
      * pose proof (Hall k node' Hk) as Hlast.
        apply decay_factor_one in Hlast.
        pose proof Hk as Hk0. apply lookup_consolidate_Some in Hk0.
        destruct Hk0 as (n0 & _ & Hn0 & Hge0).
        assert (0.1 <= strength node') by (rewrite Hn0, strength_decay; exact Hge0).
        rewrite (lookup_consolidate_kept now _ k node' Hk) by (rewrite Hlast; lra).
        rewrite decay_as_set_strength, Hlast, Rmult_1_r, set_strength_same.
        reflexivity.
      * now apply lookup_consolidate_None.
Qed.

Lemma exp_tenth_bounds : 0.9 <= exp (-0.1) < 1.
Proof.
  split.
  - pose proof (exp_ineq1_le (-0.1)). lra.
  - rewrite <- exp_0. apply exp_increasing. lra.
Qed.

Lemma one_word_factor : decay_factor 3600000 (sample_node "a" 1 0 {| re := 1; im := 0 |} 0 [] []) = exp (-0.1).
Proof.
  unfold decay_factor. simpl. f_equal. lra.
Qed.

(** C1, as stated, fails: one node of strength 1 last touched one hour
    before [now] has strength e^(-0.1) after one consolidation and e^(-0.2)
    after two. *)
Lemma consolidate_not_idempotent :
  consolidate 3600000 (consolidate 3600000 one_word) <> consolidate 3600000 one_word.
Proof.
  intros Heq.
  pose proof exp_tenth_bounds as [Hlo Hhi].
  set (n := sample_node "a" 1 0 {| re := 1; im := 0 |} 0 [] []) in *.
  assert (Hk : one_word !! "a" = Some n) by apply lookup_singleton_eq.
  assert (Hf : decay_factor 3600000 n = exp (-0.1)) by apply one_word_factor.
  assert (Hs : strength n = 1) by reflexivity.
  pose proof (lookup_consolidate_twice_kept 3600000 one_word "a" n Hk) as Hkept.
  rewrite Hf, Hs in Hkept.
  assert (Honce : consolidate 3600000 one_word !! "a" = Some (decay 3600000 n)).
  { apply lookup_consolidate_kept; [exact Hk |]. rewrite Hf, Hs. lra. }
  rewrite Heq, Honce in Hkept.
  assert (H2 : Some (decay 3600000 n) = Some (set_strength (1 * exp (-0.1) * exp (-0.1)) n))
    by (apply Hkept; nra).
  apply (inj Some) in H2.
  apply (f_equal strength) in H2.
  rewrite strength_decay, Hf, Hs in H2. cbn [strength set_strength] in H2.
  nra.
Qed.

End ConsolidationClaims.

(** ** Strings *)

Section StringFacts.




Lemma drop_0 (s : string) : JsString.drop 0 s = s.
Proof. now destruct s. Qed.

Lemma slice_0 (n : nat) (s : string) : JsString.slice 0 n s = JsString.take n s.
Proof. unfold JsString.slice. now rewrite Nat.sub_0_r, drop_0. Qed.



End StringFacts.

(** ** Generation: the degenerate prompts *)

Section GenerationBoundary.
Import QuantumMemory.
Variable JSON_stringify : Json -> string.

Lemma generate_loop_unknown (fuel : nat) (coherence : R) (store : gmap string WordNode)
  (currentWord : string) (response : list string) (w : World) :
  store !! currentWord = None ->
  generate_loop fuel coherence store currentWord response w = (response, store, w).
Proof.
  intros H. destruct fuel; simpl; [reflexivity |]. now rewrite H.
Qed.

Lemma generateResponse_unknown (memory : Memory) (input : string) (w : World) :
  Tokenizer.tokenize input <> [] ->
  nodes memory !! List.last (Tokenizer.tokenize input) EmptyString = None ->
  fst (fst (generateResponse JSON_stringify memory input w))
  = Tokenizer.join (Tokenizer.tokenize input)
  /\ nodes (snd (fst (generateResponse JSON_stringify memory input w))) = nodes memory.
Proof.
  intros Hne Hlast. unfold generateResponse.
  destruct (Tokenizer.tokenize input) as [| t ts] eqn:E; [congruence |].
  rewrite generate_loop_unknown by exact Hlast.
  split; reflexivity.
Qed.

(** C9, as the code has it.  A prompt without tokens yields the empty
    string and leaves memory and world as they were.  A prompt whose last
    token has no node yields its tokens, lower-cased and joined by single
    spaces, with nothing appended and no node changed.  In particular the
    empty prompt yields the empty string and "zzznotaword" yields
    "zzznotaword" when no node bears that word. *)
Theorem generateResponse_degenerate (memory : Memory) (input : string) (w : World) :
  (Tokenizer.tokenize input = [] ->
   generateResponse JSON_stringify memory input w = (EmptyString, memory, w))
  /\ (Tokenizer.tokenize input <> [] ->
      nodes memory !! List.last (Tokenizer.tokenize input) EmptyString = None ->
      fst (fst (generateResponse JSON_stringify memory input w))
      = Tokenizer.join (Tokenizer.tokenize input)
      /\ nodes (snd (fst (generateResponse JSON_stringify memory input w))) = nodes memory)
  /\ fst (fst (generateResponse JSON_stringify memory "" w)) = EmptyString
  /\ (nodes memory !! "zzznotaword"%string = None ->
      fst (fst (generateResponse JSON_stringify memory "zzznotaword" w))
      = "zzznotaword"%string).
Proof.
  repeat split.
  - intros E. unfold generateResponse. now rewrite E.
  - now apply generateResponse_unknown.
  - now apply generateResponse_unknown.
  - intros H.
    assert (E : Tokenizer.tokenize "zzznotaword" = ["zzznotaword"%string]) by reflexivity.
    destruct (generateResponse_unknown memory "zzznotaword" w) as [Hr _].
    + rewrite E. discriminate.
    + rewrite E. exact H.
    + rewrite Hr, E. reflexivity.
Qed.

End GenerationBoundary.

(** C9, as stated, fails: with no node at all the prompt "Hi!" comes back
    as "hi", not unchanged. *)
Lemma generateResponse_normalises_prompt :
  fst (fst (QuantumMemory.generateResponse silent empty_memory "Hi!"
              (sample_world (fun _ => 0%R) (fun _ => 0%R))))
  = "hi"%string
  /\ "hi"%string <> "Hi!"%string.
Proof.
  split; [| discriminate].
  assert (E : Tokenizer.tokenize "Hi!" = ["hi"%string]) by reflexivity.
  destruct (generateResponse_unknown silent empty_memory "Hi!"
              (sample_world (fun _ => 0%R) (fun _ => 0%R))) as [Hr _].
  - rewrite E. discriminate.
  - rewrite E. apply lookup_empty.
  - rewrite Hr, E. reflexivity.
Qed.

(** ** Complex amplitudes *)

Section ComplexFacts.
Import QuantumMemory.
Local Open Scope R_scope.

Lemma Cabs_nonneg (a : Complex) : 0 <= Cabs a.
Proof. apply sqrt_pos. Qed.

Lemma Cabs_neg (a : Complex) : Cabs (Cneg a) = Cabs a.
Proof. unfold Cabs, Cneg. simpl. f_equal. ring. Qed.

Lemma Cabs_scale (a : Complex) (k : R) : 0 <= k -> Cabs (Cscale a k) = k * Cabs a.
Proof.
  intros Hk. unfold Cabs, Cscale, Cmul. simpl.
  replace ((re a * k - im a * 0) * (re a * k - im a * 0)
           + (re a * 0 + im a * k) * (re a * 0 + im a * k))
    with ((k * k) * (re a * re a + im a * im a)) by ring.
  rewrite sqrt_mult_alt by nra.
  rewrite sqrt_square by exact Hk. reflexivity.
Qed.

Lemma inv_sqrt2_bounds : 0 < 1 / sqrt 2 < 1.
Proof.
  assert (H1 : 1 < sqrt 2).
  { rewrite <- sqrt_1 at 1. apply sqrt_lt_1; lra. }
  split.
  - apply Rdiv_lt_0_compat; lra.
  - apply Rmult_lt_reg_r with (sqrt 2); [lra |].
    unfold Rdiv. rewrite Rmult_assoc, Rinv_l by lra. lra.
Qed.

Lemma Cabs_hadamard (q : QuantumState) :
  Cabs (amplitude (applyHadamardGate q)) <= Cabs (amplitude q).
Proof.
  pose proof inv_sqrt2_bounds as [H0 H1].
  pose proof (Cabs_nonneg (amplitude q)).
  unfold applyHadamardGate. cbn [amplitude].
  rewrite Cabs_scale by lra. nra.
Qed.

End ComplexFacts.

(** ** Ingest: what a turn of the loop does to the nodes *)

Section IngestFacts.
Import QuantumMemory.
Local Open Scope R_scope.
#[local] Opaque PATTERN_CELLS.

Variable known : gset string.

(** *** Fields that only the branch for the node's own word writes *)

Lemma forget_state_set (q : QuantumState) (n : WordNode) :
  forget_state (set_quantumState q n) = forget_state n.
Proof. reflexivity. Qed.

Lemma forget_alter_other (f : WordNode -> WordNode) (k k' : string)
  (store : gmap string WordNode) :
  k' <> k -> forget_state <$> (alter f k' store !! k) = forget_state <$> (store !! k).
Proof. intros H. now rewrite lookup_alter_ne. Qed.

Lemma forget_alter_state (f : WordNode -> WordNode) (k k' : string)
  (store : gmap string WordNode) :
  (forall n, forget_state (f n) = forget_state n) ->
  forget_state <$> (alter f k' store !! k) = forget_state <$> (store !! k).
Proof.
  intros Hf. rewrite lookup_alter. destruct (decide (k' = k)) as [-> |]; [| reflexivity].
  destruct (store !! k) as [n |]; simpl; [| reflexivity].
  now rewrite Hf.
Qed.

Lemma forget_entangle_fold (p : R) (l : list string) (store : gmap string WordNode)
  (k : string) :
  forget_state <$> (fold_left (entangle known p) l store !! k)
  = forget_state <$> (store !! k).
Proof.
  revert store. induction l as [| e l IH]; intros store; simpl; [reflexivity |].
  rewrite IH. unfold entangle. destruct (bool_decide (e ∈ known)); [| reflexivity].
  now apply forget_alter_state.
Qed.

Lemma forget_applyQuantumOperation (cur k : string) (store : gmap string WordNode) :
  cur <> k ->
  forget_state <$> (applyQuantumOperation known cur store !! k)
  = forget_state <$> (store !! k).
Proof.
  intros Hne. unfold applyQuantumOperation.
  destruct (store !! cur) as [node |]; [| reflexivity].
  rewrite forget_entangle_fold. now rewrite lookup_insert_ne.
Qed.

Lemma forget_couple (cur next_ k : string) (store : gmap string WordNode) :
  cur <> k ->
  forget_state <$> (couple cur next_ store !! k) = forget_state <$> (store !! k).
Proof.
  intros Hne. unfold couple.
  destruct (store !! next_) as [nextNode |]; [| reflexivity].
  destruct (store !! cur) as [node |]; [| reflexivity].
  destruct (applyCNOTGate (quantumState node) (quantumState nextNode)) as [c t].
  set (store2 := alter (set_quantumState t) next_ (alter (set_quantumState c) cur store)).
  assert (H2 : forget_state <$> (store2 !! k) = forget_state <$> (store !! k)).
  { unfold store2. rewrite forget_alter_state by (intros; apply forget_state_set).
    now apply forget_alter_other. }
  destruct (store2 !! next_); [| exact H2].
  rewrite forget_alter_other by exact Hne. exact H2.
Qed.

Lemma forget_reinforce (cur next_ documentId k : string) (store : gmap string WordNode)
  (w : World) :
  cur <> k ->
  forget_state <$> (fst (reinforce known cur next_ documentId store w) !! k)
  = forget_state <$> (store !! k).
Proof.
  intros Hne. unfold reinforce, Date_now.
  set (store1 := alter _ cur store).
  set (store2 := applyQuantumOperation known cur store1).
  set (store3 := alter _ cur store2).
  assert (H3 : forget_state <$> (store3 !! k) = forget_state <$> (store !! k)).
  { unfold store3. rewrite forget_alter_other by exact Hne.
    unfold store2. rewrite forget_applyQuantumOperation by exact Hne.
    unfold store1. now apply forget_alter_other. }
  destruct (store3 !! cur) as [node |]; [| exact H3].
  unfold createHolographicPattern. cbn [fst].
  rewrite forget_couple by exact Hne.
  rewrite !forget_alter_other by exact Hne. exact H3.
Qed.

Lemma forget_ingestPair (documentId k : string) (st : gmap string WordNode * World)
  (p : string * string) :
  fst p <> k ->
  forget_state <$> (fst (ingestPair known documentId st p) !! k)
  = forget_state <$> (fst st !! k).
Proof.
  destruct st as [store w], p as [cur next_]. cbn [fst]. intros Hne.
  unfold ingestPair.
  destruct (store !! cur) as [node |].
  - now apply forget_reinforce.
  - destruct (newNode cur next_ documentId w) as [n w']. cbn [fst].
    now rewrite lookup_insert_ne.
Qed.

Lemma forget_ingest_fold (documentId k : string) (ps : list (string * string))
  (st : gmap string WordNode * World) :
  ~ In k (List.map fst ps) ->
  forget_state <$> (fst (fold_left (ingestPair known documentId) ps st) !! k)
  = forget_state <$> (fst st !! k).
Proof.
  revert st. induction ps as [| p ps IH]; intros st Hk; simpl; [reflexivity |].
  simpl in Hk. rewrite IH by tauto.
  apply forget_ingestPair. tauto.
Qed.

End IngestFacts.

(** ** Tokenizer: a prefix has no more words than the whole *)

Section TokenizerFacts.

Lemma length_flush (cur : string) (acc : list string) :
  length (Tokenizer.flush cur acc)
  = (length acc + if JsString.is_empty cur then 0 else 1)%nat.
Proof.
  destruct cur; simpl; [lia |]. rewrite length_app. simpl. lia.
Qed.

Lemma append_char_not_empty (cur : string) (c : ascii) :
  JsString.is_empty (cur +:+ String c EmptyString) = false.
Proof. now destruct cur. Qed.

Lemma length_match_words (s cur : string) (acc : list string) :
  length (Tokenizer.match_words s cur acc)
  = (length acc + runs s (negb (JsString.is_empty cur)))%nat.
Proof.
  revert cur acc. induction s as [| c s IH]; intros cur acc; simpl.
  - rewrite length_flush. now destruct (JsString.is_empty cur).
  - destruct (Tokenizer.is_word_char c).
    + rewrite IH, append_char_not_empty. reflexivity.
    + rewrite IH, length_flush. simpl.
      destruct (JsString.is_empty cur); simpl; lia.
Qed.

Lemma runs_open (s : string) : (1 <= runs s true)%nat.
Proof.
  induction s as [| c s IH]; simpl; [lia |].
  destruct (Tokenizer.is_word_char c); lia.
Qed.

Lemma runs_take (n : nat) (s : string) (open : bool) :
  (runs (JsString.take n s) open <= runs s open)%nat.
Proof.
  revert s open. induction n as [| n IH]; intros [| c s] open; simpl; try lia.
  - destruct (Tokenizer.is_word_char c).
    + pose proof (runs_open s). destruct open; lia.
    + lia.
  - destruct (Tokenizer.is_word_char c).
    + apply IH.
    + specialize (IH s false). lia.
Qed.

Lemma toLowerCase_take (n : nat) (s : string) :
  Tokenizer.toLowerCase (JsString.take n s) = JsString.take n (Tokenizer.toLowerCase s).
Proof.
  revert s. induction n as [| n IH]; intros [| c s]; simpl; try reflexivity.
  now rewrite IH.
Qed.

Lemma tokenize_take (n : nat) (s : string) :
  (length (Tokenizer.tokenize (JsString.take n s)) <= length (Tokenizer.tokenize s))%nat.
Proof.
  unfold Tokenizer.tokenize. rewrite !length_match_words, toLowerCase_take.
  simpl. apply runs_take.
Qed.

Lemma tokenize_ingested_text (text : string) :
  (length (Tokenizer.tokenize (ingested_text text)) <= length (Tokenizer.tokenize text))%nat.
Proof.
  unfold ingested_text.
  destruct (QuantumMemory.MAX_DOCUMENT_SIZE <? String.length text)%nat; [| lia].
  rewrite slice_0. apply tokenize_take.
Qed.

Lemma pairs_firsts {A : Type} (l : list A) :
  List.map fst (JsArray.pairs l) = removelast l.
Proof.
  induction l as [| a [| b l] IH]; simpl; try reflexivity.
  simpl in IH. now rewrite IH.
Qed.

Lemma pairs_short {A : Type} (l : list A) : (length l < 2)%nat -> JsArray.pairs l = [].
Proof.
  destruct l as [| a [| b l]]; simpl; intros H; try reflexivity. lia.
Qed.

End TokenizerFacts.

(** ** Ingest: the node set and the world *)

Section IngestDomain.
Import QuantumMemory.
Local Open Scope R_scope.
#[local] Opaque PATTERN_CELLS.

Variable known : gset string.

Lemma dom_entangle_fold (p : R) (l : list string) (store : gmap string WordNode) :
  dom (fold_left (entangle known p) l store) = dom store.
Proof.
  revert store. induction l as [| e l IH]; intros store; simpl; [reflexivity |].
  rewrite IH. unfold entangle. destruct (bool_decide (e ∈ known)); [| reflexivity].
  apply dom_alter_L.
Qed.

Lemma dom_applyQuantumOperation (cur : string) (store : gmap string WordNode) :
  dom (applyQuantumOperation known cur store) = dom store.
Proof.
  unfold applyQuantumOperation.
  destruct (store !! cur) as [node |] eqn:E; [| reflexivity].
  rewrite dom_entangle_fold, dom_insert_L.
  apply subseteq_union_1_L, singleton_subseteq_l, elem_of_dom. eauto.
Qed.

Lemma dom_couple (cur next_ : string) (store : gmap string WordNode) :
  dom (couple cur next_ store) = dom store.
Proof.
  unfold couple.
  destruct (store !! next_) as [nextNode |]; [| reflexivity].
  destruct (store !! cur) as [node |]; [| reflexivity].
  destruct (applyCNOTGate (quantumState node) (quantumState nextNode)) as [c t].
  destruct (alter (set_quantumState t) next_ (alter (set_quantumState c) cur store) !! next_);
    now rewrite !dom_alter_L.
Qed.

Lemma dom_reinforce (cur next_ documentId : string) (store : gmap string WordNode)
  (w : World) :
  dom (fst (reinforce known cur next_ documentId store w)) = dom store.
Proof.
  unfold reinforce, Date_now.
  set (store1 := alter _ cur store).
  set (store2 := applyQuantumOperation known cur store1).
  set (store3 := alter _ cur store2).
  assert (H3 : dom store3 = dom store).
  { unfold store3, store2, store1.
    now rewrite dom_alter_L, dom_applyQuantumOperation, dom_alter_L. }
  destruct (store3 !! cur) as [node |]; [| exact H3].
  unfold createHolographicPattern. cbn [fst].
  now rewrite dom_couple, !dom_alter_L.
Qed.

Lemma dom_ingestPair (documentId : string) (st : gmap string WordNode * World)
  (p : string * string) :
  dom (fst (ingestPair known documentId st p)) = dom (fst st) ∪ {[fst p]}.
Proof.
  destruct st as [store w], p as [cur next_]. cbn [fst]. unfold ingestPair.
  destruct (store !! cur) as [node |] eqn:E.
  - rewrite dom_reinforce, (union_comm_L (dom store)). symmetry.
    apply subseteq_union_1_L, singleton_subseteq_l, elem_of_dom. eauto.
  - destruct (newNode cur next_ documentId w) as [n w']. cbn [fst].
    rewrite dom_insert_L. apply union_comm_L.
Qed.

Lemma dom_ingest_fold (documentId : string) (ps : list (string * string))
  (st : gmap string WordNode * World) :
  dom (fst (fold_left (ingestPair known documentId) ps st))
  = dom (fst st) ∪ list_to_set (List.map fst ps).
Proof.
  revert st. induction ps as [| p ps IH]; intros st; cbn [fold_left List.map].
  - change (list_to_set []) with (∅ : gset string). now rewrite union_empty_r_L.
  - rewrite IH, dom_ingestPair.
    change (list_to_set (fst p :: List.map fst ps))
      with ({[fst p]} ∪ (list_to_set (List.map fst ps) : gset string)).
    symmetry. apply (assoc_L (∪)).
Qed.

Lemma same_channels_reinforce (cur next_ documentId : string)
  (store : gmap string WordNode) (w : World) :
  same_channels w (snd (reinforce known cur next_ documentId store w)).
Proof.
  unfold reinforce, Date_now.
  destruct (alter _ cur (applyQuantumOperation known cur (alter _ cur store)) !! cur);
    split; reflexivity.
Qed.

Lemma same_channels_ingestPair (documentId : string) (st : gmap string WordNode * World)
  (p : string * string) :
  same_channels (snd st) (snd (ingestPair known documentId st p)).
Proof.
  destruct st as [store w], p as [cur next_]. cbn [snd]. unfold ingestPair.
  destruct (store !! cur) as [node |].
  - apply same_channels_reinforce.
  - split; reflexivity.
Qed.


End IngestDomain.

Section ProcessTextClaims.
Import QuantumMemory.


#[local] Opaque MAX_DOCUMENT_SIZE.

Variable JSON_stringify : Json -> string.

Lemma processText_nodes (memory : Memory) (text documentId : string) (w : World) :
  nodes (fst (processText JSON_stringify memory text documentId w))
  = fst (fold_left (ingestPair (dom (nodes memory)) documentId)
                   (JsArray.pairs (Tokenizer.tokenize (ingested_text text)))
                   (nodes memory,
                    if (MAX_DOCUMENT_SIZE <? String.length text)%nat
                    then console_warn oversize_warning w else w)).
Proof.
  unfold processText, ingested_text.
  destruct (MAX_DOCUMENT_SIZE <? String.length text)%nat;
    match goal with
    | |- context [fold_left ?f ?l ?a] => destruct (fold_left f l a) eqn:E
    end; reflexivity.
Qed.

Lemma ingested_text_short (text : string) :
  (String.length text <= MAX_DOCUMENT_SIZE)%nat -> ingested_text text = text.
Proof.
  intros H. unfold ingested_text.
  destruct (Nat.ltb_spec MAX_DOCUMENT_SIZE (String.length text)); [lia | reflexivity].
Qed.

(** C10, as the code has it.  With [words] the tokens of the ingested text:
    a text of fewer than two tokens leaves the node map as it was; the keys
    of the new node map are the old keys together with every token but the
    last; and a word that is not the first element of a consecutive pair gets
    no node and, if it has one, keeps every field of it except the quantum
    state, which reinforcement of an entangled partner and coupling with a
    predecessor may rewrite. *)
Theorem processText_touches_first_elements
  (memory : Memory) (text documentId : string) (w : World) :
  let words := Tokenizer.tokenize (ingested_text text) in
  let memory' := fst (processText JSON_stringify memory text documentId w) in
  ((length (Tokenizer.tokenize text) < 2)%nat -> nodes memory' = nodes memory)
  /\ dom (nodes memory') = dom (nodes memory) ∪ list_to_set (removelast words)
  /\ (forall k, ~ In k (removelast words) ->
        forget_state <$> (nodes memory' !! k) = forget_state <$> (nodes memory !! k))
  /\ (forall k, ~ In k (removelast words) ->
        nodes memory !! k = None -> nodes memory' !! k = None).
Proof.
  intros words memory'.
  pose proof (processText_nodes memory text documentId w) as Hn.
  fold memory' in Hn. fold words in Hn.
  assert (Hforget : forall k, ~ In k (removelast words) ->
            forget_state <$> (nodes memory' !! k) = forget_state <$> (nodes memory !! k)).
  { intros k Hk. rewrite Hn.
    rewrite forget_ingest_fold by (rewrite pairs_firsts; exact Hk). reflexivity. }
  split; [| split; [| split]].
  - intros Hshort. rewrite Hn.
    rewrite pairs_short; [reflexivity |].
    pose proof (tokenize_ingested_text text) as Hle. unfold words. lia.
  - rewrite Hn, dom_ingest_fold, pairs_firsts. reflexivity.
  - exact Hforget.
  - intros k Hk Hnone. specialize (Hforget k Hk). rewrite Hnone in Hforget.
    destruct (nodes memory' !! k); [discriminate | reflexivity].
Qed.

End ProcessTextClaims.

(** ** Ingest: the quantum state of the reinforced word and of its successor *)

Section ReinforceFacts.
Import QuantumMemory.
Local Open Scope R_scope.
#[local] Opaque PATTERN_CELLS.

Variable known : gset string.

Lemma rephase_rephase (p : R) (n : WordNode) : rephase p (rephase p n) = rephase p n.
Proof. reflexivity. Qed.

Lemma has_cons (k e : string) (l : list string) :
  JsSet.has k (e :: l) = String.eqb k e || JsSet.has k l.
Proof. reflexivity. Qed.

Lemma lookup_entangle_fold (p : R) (l : list string) (store : gmap string WordNode)
  (k : string) :
  fold_left (entangle known p) l store !! k
  = if JsSet.has k l && bool_decide (k ∈ known)
    then rephase p <$> (store !! k) else store !! k.
Proof.
  revert store. induction l as [| e l IH]; intros store; [reflexivity |].
  cbn [fold_left]. rewrite IH, has_cons. unfold entangle.
  destruct (String.eqb_spec k e) as [<- | Hne].
  - destruct (bool_decide (k ∈ known)) eqn:Hk.
    + rewrite lookup_alter_eq, orb_true_l, andb_true_r. cbn [andb].
      destruct (JsSet.has k l); [| reflexivity].
      destruct (store !! k); [| reflexivity]. cbn. now rewrite rephase_rephase.
    + now rewrite !andb_false_r.
  - rewrite orb_false_l.
    destruct (bool_decide (e ∈ known)); [| reflexivity].
    rewrite lookup_alter_ne by congruence. reflexivity.
Qed.

Lemma amplitude_entangle_fold (p : R) (l : list string) (store : gmap string WordNode)
  (k : string) :
  (fun n => amplitude (quantumState n)) <$> (fold_left (entangle known p) l store !! k)
  = (fun n => amplitude (quantumState n)) <$> (store !! k).
Proof.
  rewrite lookup_entangle_fold.
  destruct (JsSet.has k l && bool_decide (k ∈ known)); [| reflexivity].
  now destruct (store !! k).
Qed.

Lemma has_add_other (k e : string) (l : list string) :
  k <> e -> JsSet.has k (JsSet.add e l) = JsSet.has k l.
Proof.
  intros Hne. unfold JsSet.add. destruct (JsSet.has e l); [reflexivity |].
  unfold JsSet.has. rewrite existsb_app. cbn [existsb].
  destruct (String.eqb_spec k e); [contradiction |].
  now rewrite !orb_false_r.
Qed.

Lemma set_quantumState_same (n : WordNode) : set_quantumState (quantumState n) n = n.
Proof. now destruct n. Qed.

Lemma applyCNOTGate_control (c t : QuantumState) : fst (applyCNOTGate c t) = c.
Proof. unfold applyCNOTGate. now destruct (Rlt_dec 0.5 (Cabs (amplitude c))). Qed.

Lemma applyCNOTGate_target (c t : QuantumState) :
  amplitude (snd (applyCNOTGate c t))
  = if Rlt_dec 0.5 (Cabs (amplitude c)) then Cneg (amplitude t) else amplitude t.
Proof. unfold applyCNOTGate. now destruct (Rlt_dec 0.5 (Cabs (amplitude c))). Qed.

Lemma lookup_applyQuantumOperation_cur (cur : string) (store : gmap string WordNode)
  (n1 : WordNode) :
  store !! cur = Some n1 ->
  exists n2,
    applyQuantumOperation known cur store !! cur = Some n2
    /\ forget_state n2 = forget_state n1
    /\ quantumState n2
       = {| amplitude := scaled_if_within (amplitude (quantumState n1));
            phase :=
              if JsSet.has cur (entangledNodes n1) && bool_decide (cur ∈ known)
              then js_rem (phase (quantumState n1)
                           + PI * strength n1 / MAX_MEMORY_STRENGTH + PI) (2 * PI)
              else js_rem (phase (quantumState n1)
                           + PI * strength n1 / MAX_MEMORY_STRENGTH) (2 * PI) |}.
Proof.
  intros H. unfold applyQuantumOperation. rewrite H.
  rewrite lookup_entangle_fold, lookup_insert_eq.
  destruct (JsSet.has cur (entangledNodes n1) && bool_decide (cur ∈ known));
    eexists; (split; [reflexivity |]); split; reflexivity.
Qed.

Lemma lookup_reinforce_cur (cur next_ documentId : string) (store : gmap string WordNode)
  (w : World) (node : WordNode) :
  cur <> next_ -> store !! cur = Some node ->
  exists node',
    fst (reinforce known cur next_ documentId store w) !! cur = Some node'
    /\ quantumState node' = reinforced_state known cur node
    /\ strength node' = Rmin (strength node + 0.1) MAX_MEMORY_STRENGTH
    /\ count node' = S (count node).
Proof.
  intros Hne Hcur. unfold reinforce, Date_now.
  set (now := clock w (ticks w)).
  set (n1 := touch next_ documentId now node).
  assert (H1 : alter (touch next_ documentId now) cur store !! cur = Some n1)
    by (rewrite lookup_alter_eq, Hcur; reflexivity).
  destruct (lookup_applyQuantumOperation_cur cur _ n1 H1) as (n2 & H2 & Hf2 & Hq2).
  set (store2 := applyQuantumOperation known cur _) in *.
  set (n3 := set_quantumState (applyHadamardGate (quantumState n2)) n2).
  set (store3 := alter _ cur store2).
  assert (H3 : store3 !! cur = Some n3)
    by (unfold store3; rewrite lookup_alter_eq, H2; reflexivity).
  rewrite H3. unfold createHolographicPattern. cbn [fst].
  set (pattern := mkHolographicPattern _ _).
  set (store5 := alter _ cur (alter (set_holographicPattern pattern) cur _)).
  set (n5 := set_next (bump next_ (next n3)) (set_holographicPattern pattern n3)).
  assert (H5 : store5 !! cur = Some n5).
  { unfold store5. rewrite !lookup_alter_eq, H3. reflexivity. }
  assert (Hq5 : quantumState n5 = reinforced_state known cur node).
  { unfold n5, n3, reinforced_state. cbn [quantumState set_next set_holographicPattern
      set_quantumState]. rewrite Hq2. unfold n1. cbn [quantumState touch strength entangledNodes].
    rewrite has_add_other by exact Hne. reflexivity. }
  assert (Hs5 : strength n5 = Rmin (strength node + 0.1) MAX_MEMORY_STRENGTH).
  { apply (f_equal strength) in Hf2. exact Hf2. }
  assert (Hc5 : count n5 = S (count node)).
  { apply (f_equal count) in Hf2. exact Hf2. }
  unfold couple. rewrite H5.
  destruct (store5 !! next_) as [nextNode |] eqn:Hnext.
  - pose proof (applyCNOTGate_control (quantumState n5) (quantumState nextNode)) as Hc.
    destruct (applyCNOTGate (quantumState n5) (quantumState nextNode)) as [c t].
    cbn [fst] in Hc. subst c.
    assert (Hn : alter (set_quantumState t) next_
                   (alter (set_quantumState (quantumState n5)) cur store5) !! next_
                 = Some (set_quantumState t nextNode)).
    { rewrite lookup_alter_eq, lookup_alter_ne by exact Hne. now rewrite Hnext. }
    rewrite Hn. eexists. split.
    + rewrite lookup_alter_eq, lookup_alter_ne by congruence.
      rewrite lookup_alter_eq, H5. reflexivity.
    + cbn [quantumState strength count set_holographicPattern set_quantumState].
      auto.
  - exists n5. auto.
Qed.

Lemma lookup_reinforce_next (cur next_ documentId : string) (store : gmap string WordNode)
  (w : World) (node nextNode : WordNode) :
  cur <> next_ -> store !! cur = Some node -> store !! next_ = Some nextNode ->
  (fun n => amplitude (quantumState n))
    <$> (fst (reinforce known cur next_ documentId store w) !! next_)
  = Some (if Rlt_dec 0.5 (Cabs (amplitude (reinforced_state known cur node)))
          then Cneg (amplitude (quantumState nextNode))
          else amplitude (quantumState nextNode)).
Proof.
  intros Hne Hcur Hnext.
  destruct (lookup_reinforce_cur cur next_ documentId store w node Hne Hcur)
    as (node' & Hres & Hq & _).
  revert Hres. unfold reinforce, Date_now.
  set (store1 := alter _ cur store).
  set (store2 := applyQuantumOperation known cur store1).
  set (store3 := alter _ cur store2).
  assert (Ha3 : (fun n => amplitude (quantumState n)) <$> (store3 !! next_)
                = Some (amplitude (quantumState nextNode))).
  { unfold store3. rewrite lookup_alter_ne by exact Hne.
    unfold store2, applyQuantumOperation.
    destruct (store1 !! cur) as [n1 |].
    - rewrite amplitude_entangle_fold, lookup_insert_ne by exact Hne.
      unfold store1. rewrite lookup_alter_ne by exact Hne. now rewrite Hnext.
    - unfold store1. rewrite lookup_alter_ne by exact Hne. now rewrite Hnext. }
  destruct (store3 !! cur) as [n3 |] eqn:H3.
  2:{ cbn [fst]. rewrite H3. discriminate. }
  unfold createHolographicPattern. cbn [fst].
  set (pattern := mkHolographicPattern _ _).
  set (store5 := alter _ cur (alter (set_holographicPattern pattern) cur store3)).
  assert (Ha5 : store5 !! next_ = store3 !! next_).
  { unfold store5. now rewrite !lookup_alter_ne by exact Hne. }
  unfold couple. rewrite Ha5.
  destruct (store3 !! next_) as [m |] eqn:Hm; [| discriminate].
  cbn in Ha3. apply (inj Some) in Ha3.
  destruct (store5 !! cur) as [n5 |] eqn:H5.
  2:{ rewrite H5. discriminate. }
  pose proof (applyCNOTGate_control (quantumState n5) (quantumState m)) as Hc.
  pose proof (applyCNOTGate_target (quantumState n5) (quantumState m)) as Ht.
  destruct (applyCNOTGate (quantumState n5) (quantumState m)) as [c t].
  cbn [fst snd] in Hc, Ht. subst c.
  assert (Hn : alter (set_quantumState t) next_
                 (alter (set_quantumState (quantumState n5)) cur store5) !! next_
               = Some (set_quantumState t m)).
  { rewrite lookup_alter_eq, lookup_alter_ne by exact Hne. now rewrite Ha5. }
  rewrite Hn.
  rewrite lookup_alter_eq, lookup_alter_ne by congruence.
  rewrite lookup_alter_eq, H5. cbn [fmap option_fmap option_map].
  intros Hres. apply (inj Some) in Hres.
  rewrite lookup_alter_ne by exact Hne. rewrite Hn.
  cbn [fmap option_fmap option_map quantumState set_quantumState].
  rewrite Ht, Ha3. rewrite <- Hq, <- Hres. reflexivity.
Qed.

End ReinforceFacts.

Section ReinforceClaims.
Import QuantumMemory.
Local Open Scope R_scope.

Lemma Cabs_real (r : R) : 0 <= r -> Cabs {| re := r; im := 0 |} = r.
Proof.
  intros H. unfold Cabs. cbn [re im].
  replace (r * r + 0 * 0) with (r * r) by ring. now apply sqrt_square.
Qed.

Lemma Cabs_scaled (a : Complex) : Cabs (Cscale a 1.1) = 1.1 * Cabs a.
Proof. apply Cabs_scale. lra. Qed.

Lemma Cabs_scaled_if_within (a : Complex) :
  Cabs (scaled_if_within a) = if Rle_dec (1.1 * Cabs a) 1 then 1.1 * Cabs a else Cabs a.
Proof.
  unfold scaled_if_within. rewrite Cabs_scaled.
  destruct (Rle_dec (1.1 * Cabs a) 1); [apply Cabs_scaled | reflexivity].
Qed.

Lemma Cabs_inv_sqrt2 (a : Complex) : Cabs (Cscale a (1 / sqrt 2)) = Cabs a / sqrt 2.
Proof.
  pose proof inv_sqrt2_bounds. rewrite Cabs_scale by lra. unfold Rdiv. ring.
Qed.

(** C4, as the code has it.  A turn of the loop for a word [cur] that has
    a node and is followed by another word raises the strength to
    [min (strength + 0.1, MAX_MEMORY_STRENGTH)] and then turns the phase by
    [PI * strength / MAX_MEMORY_STRENGTH] modulo [2 PI], with the strength just
    raised (by a further [PI] when [cur] is its own entangled partner and had a
    node when the call began).  The amplitude is multiplied by 1.1 when the
    product has magnitude at most 1 and is left as it is otherwise; the
    Hadamard gate of the same turn then multiplies it by [1 / sqrt 2]. *)
Theorem reinforce_turns_and_scales (known : gset string)
  (cur next_ documentId : string) (store : gmap string WordNode) (w : World)
  (node : WordNode) :
  cur <> next_ -> store !! cur = Some node ->
  let s' := Rmin (strength node + 0.1) MAX_MEMORY_STRENGTH in
  let turned := phase (quantumState node) + PI * s' / MAX_MEMORY_STRENGTH in
  let a := amplitude (quantumState node) in
  exists node',
    fst (ingestPair known documentId (store, w) (cur, next_)) !! cur = Some node'
    /\ strength node' = s'
    /\ phase (quantumState node')
       = (if JsSet.has cur (entangledNodes node) && bool_decide (cur ∈ known)
          then js_rem (turned + PI) (2 * PI) else js_rem turned (2 * PI))
    /\ amplitude (quantumState node')
       = Cscale (if Rle_dec (Cabs (Cscale a 1.1)) 1 then Cscale a 1.1 else a) (1 / sqrt 2)
    /\ Cabs (amplitude (quantumState node'))
       = (if Rle_dec (1.1 * Cabs a) 1 then 1.1 * Cabs a else Cabs a) / sqrt 2.
Proof.
  intros Hne Hcur s' turned a.
  destruct (lookup_reinforce_cur known cur next_ documentId store w node Hne Hcur)
    as (node' & Hres & Hq & Hs & _).
  exists node'. unfold ingestPair. rewrite Hcur.
  split; [exact Hres |]. split; [exact Hs |].
  rewrite Hq. unfold reinforced_state, applyHadamardGate. cbn [phase amplitude].
  split; [reflexivity |]. split; [reflexivity |].
  fold (scaled_if_within (amplitude (quantumState node))).
  rewrite Cabs_inv_sqrt2, Cabs_scaled_if_within. reflexivity.
Qed.

(** C4 at the one-word graph, "a" being followed by "b". *)
Lemma reinforce_turns_and_scales_witness :
  exists node',
    fst (ingestPair ∅ "doc" (one_word, sample_world (fun _ => 0) (fun _ => 0)) ("a", "b"))
      !! "a"%string = Some node'
    /\ strength node' = Rmin (1 + 0.1) MAX_MEMORY_STRENGTH
    /\ phase (quantumState node')
       = (if JsSet.has "a" [] && bool_decide ("a"%string ∈ (∅ : gset string))
          then js_rem (0 + PI * Rmin (1 + 0.1) MAX_MEMORY_STRENGTH / MAX_MEMORY_STRENGTH + PI)
                      (2 * PI)
          else js_rem (0 + PI * Rmin (1 + 0.1) MAX_MEMORY_STRENGTH / MAX_MEMORY_STRENGTH)
                      (2 * PI))
    /\ amplitude (quantumState node')
       = Cscale (if Rle_dec (Cabs (Cscale {| re := 1; im := 0 |} 1.1)) 1
                 then Cscale {| re := 1; im := 0 |} 1.1 else {| re := 1; im := 0 |})
                (1 / sqrt 2)
    /\ Cabs (amplitude (quantumState node'))
       = (if Rle_dec (1.1 * Cabs {| re := 1; im := 0 |}) 1
          then 1.1 * Cabs {| re := 1; im := 0 |} else Cabs {| re := 1; im := 0 |}) / sqrt 2.
Proof.
  apply (reinforce_turns_and_scales ∅ "a" "b" "doc" one_word
           (sample_world (fun _ => 0) (fun _ => 0))
           (sample_node "a" 1 0 {| re := 1; im := 0 |} 0 [] [])).
  - discriminate.
  - reflexivity.
Defined.

(** C4, as stated, fails: for the amplitude 0.95 the claimed result is
    [min (1.1 * 0.95, 1) = 1], while [applyQuantumOperation] leaves 0.95 and the
    whole turn of the loop ends with 0.95 / sqrt 2. *)
Lemma reinforce_does_not_clamp :
  Rmin (1.1 * 0.95) 1 = 1
  /\ (exists n2, applyQuantumOperation ∅ "a" near_one !! "a"%string = Some n2
                 /\ Cabs (amplitude (quantumState n2)) = 0.95)
  /\ (exists node',
        fst (ingestPair ∅ "doc" (near_one, sample_world (fun _ => 0) (fun _ => 0)) ("a", "b"))
          !! "a"%string = Some node'
        /\ Cabs (amplitude (quantumState node')) < 0.95).
Proof.
  set (a := {| re := 0.95; im := 0 |}).
  set (n := sample_node "a" 1 0 a 0 [] []).
  assert (Hk : near_one !! "a"%string = Some n) by reflexivity.
  assert (Ha : Cabs a = 0.95) by (apply Cabs_real; lra).
  assert (Hs : scaled_if_within a = a).
  { unfold scaled_if_within. rewrite Cabs_scaled, Ha.
    destruct (Rle_dec (1.1 * 0.95) 1); [lra | reflexivity]. }
  split; [| split].
  - apply Rmin_right. lra.
  - destruct (lookup_applyQuantumOperation_cur ∅ "a" near_one n Hk) as (n2 & H2 & _ & Hq).
    exists n2. split; [exact H2 |]. rewrite Hq. cbn [amplitude].
    change (amplitude (quantumState n)) with a. now rewrite Hs.
  - destruct (lookup_reinforce_cur ∅ "a" "b" "doc" near_one
                (sample_world (fun _ => 0) (fun _ => 0)) n) as (node' & Hres & Hq & _);
      [discriminate | exact Hk |].
    exists node'. split.
    + unfold ingestPair. rewrite Hk. exact Hres.
    + rewrite Hq. unfold reinforced_state, applyHadamardGate. cbn [amplitude].
      change (amplitude (quantumState n)) with a. rewrite Hs, Cabs_inv_sqrt2, Ha.
      pose proof inv_sqrt2_bounds as [H0 H1]. unfold Rdiv in *. nra.
Qed.

End ReinforceClaims.

Section IngestCounterexamples.
Import QuantumMemory.
Local Open Scope R_scope.

Lemma sqrt2_below : sqrt 2 < 1.98.
Proof.
  apply Rsqr_incrst_0; [| apply sqrt_pos | lra].
  rewrite Rsqr_sqrt by lra. unfold Rsqr. lra.
Qed.

(** C10, as stated, fails: in a graph that holds "a" (amplitude 0.9,
    successor "b") and "b" (amplitude 0.3), ingesting "a b" changes the node of
    "b", which is the first element of no pair: the coupling of the turn for
    "a" negates its amplitude. *)
Lemma processText_rewrites_successor :
  ~ In "b"%string (removelast (Tokenizer.tokenize (ingested_text "a b")))
  /\ nodes (fst (processText silent
                   (memory_of (two_words {| re := 0.9; im := 0 |} {| re := 0.3; im := 0 |}))
                   "a b" "doc" (sample_world (fun _ => 0) (fun _ => 0)))) !! "b"%string
     <> two_words {| re := 0.9; im := 0 |} {| re := 0.3; im := 0 |} !! "b"%string.
Proof.
  assert (Htext : ingested_text "a b" = "a b"%string).
  { apply ingested_text_short. unfold MAX_DOCUMENT_SIZE. simpl String.length. lia. }
  split.
  - rewrite Htext. cbn. intros [H | []]. discriminate.
  - rewrite processText_nodes, Htext.
    set (a := {| re := 0.9; im := 0 |}). set (b := {| re := 0.3; im := 0 |}).
    set (store := two_words a b). cbn [nodes memory_of].
    change (JsArray.pairs (Tokenizer.tokenize "a b")) with [("a"%string, "b"%string)].
    cbn [fold_left]. unfold ingestPair.
    set (na := sample_node "a" 1 0 a 0 [("b"%string, {| succ_word := "b"; succ_count := 1 |})]
                 ["b"%string]).
    set (nb := sample_node "b" 1 0 b 0 [] []).
    assert (Ha : store !! "a"%string = Some na) by reflexivity.
    assert (Hb : store !! "b"%string = Some nb) by reflexivity.
    rewrite Ha. intros Heq.
    match type of Heq with
    | fst (reinforce ?k _ _ _ _ ?w) !! _ = _ =>
        pose proof (lookup_reinforce_next k "a" "b" "doc" store w na nb) as Hnext
    end.
    rewrite Heq, Hb in Hnext. cbn [fmap option_fmap option_map] in Hnext.
    assert (Hbig : 0.5 < Cabs (amplitude (reinforced_state
                     (dom store) "a" na))).
    { unfold reinforced_state, applyHadamardGate. cbn [amplitude].
      change (amplitude (quantumState na)) with a.
      rewrite Cabs_inv_sqrt2, Cabs_scaled_if_within.
      assert (Cabs a = 0.9) as -> by (apply Cabs_real; lra).
      destruct (Rle_dec (1.1 * 0.9) 1); [| lra].
      pose proof sqrt2_below. pose proof (sqrt_lt_R0 2).
      apply Rmult_lt_reg_r with (sqrt 2); [lra |].
      unfold Rdiv. rewrite Rmult_assoc, Rinv_l by lra. lra. }
    destruct (Rlt_dec 0.5 (Cabs (amplitude (reinforced_state (dom store) "a" na))));
      [| contradiction].
    assert (Hab : Some (amplitude (quantumState nb)) = Some (Cneg (amplitude (quantumState nb))))
      by (apply Hnext; [discriminate | reflexivity | reflexivity]).
    apply (inj Some) in Hab. apply (f_equal re) in Hab. cbn in Hab. lra.
Qed.

End IngestCounterexamples.

(** ** The magnitude of the amplitudes *)

Section AmplitudeBounds.
Import QuantumMemory.
Local Open Scope R_scope.
#[local] Opaque PATTERN_CELLS.

Variable known : gset string.

Lemma within_alter (b : R) (f : WordNode -> WordNode) (k : string)
  (store : gmap string WordNode) :
  (forall n, store !! k = Some n ->
             Cabs (amplitude (quantumState n)) <= b ->
             Cabs (amplitude (quantumState (f n))) <= b) ->
  amplitudes_within b store -> amplitudes_within b (alter f k store).
Proof.
  intros Hf Hstore k' n' H.
  rewrite lookup_alter in H. destruct (decide (k = k')) as [<- |]; [| eauto].
  destruct (store !! k) as [n |] eqn:E; [| discriminate].
  apply (inj Some) in H. subst n'. eauto.
Qed.

Lemma within_insert (b : R) (k : string) (n : WordNode) (store : gmap string WordNode) :
  Cabs (amplitude (quantumState n)) <= b ->
  amplitudes_within b store -> amplitudes_within b (<[k := n]> store).
Proof.
  intros Hn Hstore k' n' H.
  rewrite lookup_insert in H. destruct (decide (k = k')); [| eauto].
  apply (inj Some) in H. now subst n'.
Qed.

Lemma within_entangle_fold (b p : R) (l : list string) (store : gmap string WordNode) :
  amplitudes_within b store -> amplitudes_within b (fold_left (entangle known p) l store).
Proof.
  revert store. induction l as [| e l IH]; intros store H; [exact H |].
  cbn [fold_left]. apply IH. unfold entangle.
  destruct (bool_decide (e ∈ known)); [| exact H].
  apply within_alter; [| exact H]. intros n _ Hn. exact Hn.
Qed.

Lemma Cabs_scaled_if_within_le (b : R) (a : Complex) :
  1 <= b -> Cabs a <= b -> Cabs (scaled_if_within a) <= b.
Proof.
  intros Hb Ha. unfold scaled_if_within.
  destruct (Rle_dec (Cabs (Cscale a 1.1)) 1); lra.
Qed.

Lemma within_applyQuantumOperation (b : R) (cur : string) (store : gmap string WordNode) :
  1 <= b -> amplitudes_within b store ->
  amplitudes_within b (applyQuantumOperation known cur store).
Proof.
  intros Hb H. unfold applyQuantumOperation.
  destruct (store !! cur) as [node |] eqn:E; [| exact H].
  apply within_entangle_fold, within_insert; [| exact H].
  apply (Cabs_scaled_if_within_le b _ Hb). eauto.
Qed.

Lemma within_couple (b : R) (cur next_ : string) (store : gmap string WordNode) :
  amplitudes_within b store -> amplitudes_within b (couple cur next_ store).
Proof.
  intros H. unfold couple.
  destruct (store !! next_) as [nextNode |] eqn:En; [| exact H].
  destruct (store !! cur) as [node |] eqn:Ec; [| exact H].
  pose proof (applyCNOTGate_control (quantumState node) (quantumState nextNode)) as Hc.
  pose proof (applyCNOTGate_target (quantumState node) (quantumState nextNode)) as Ht.
  destruct (applyCNOTGate (quantumState node) (quantumState nextNode)) as [c t].
  cbn [fst snd] in Hc, Ht. subst c.
  assert (H2 : amplitudes_within b
                 (alter (set_quantumState t) next_
                    (alter (set_quantumState (quantumState node)) cur store))).
  { apply within_alter.
    - intros n _ _. cbn [quantumState set_quantumState]. rewrite Ht.
      destruct (Rlt_dec 0.5 (Cabs (amplitude (quantumState node))));
        [rewrite Cabs_neg |]; eauto.
    - apply within_alter; [| exact H]. intros n _ _. cbn. eauto. }
  match goal with |- context [match ?x with _ => _ end] => destruct x end; [| exact H2].
  apply within_alter; [| exact H2]. intros n _ Hn. exact Hn.
Qed.

Lemma within_reinforce (b : R) (cur next_ documentId : string)
  (store : gmap string WordNode) (w : World) :
  1 <= b -> amplitudes_within b store ->
  amplitudes_within b (fst (reinforce known cur next_ documentId store w)).
Proof.
  intros Hb H. unfold reinforce, Date_now.
  set (store3 := alter _ cur (applyQuantumOperation known cur (alter _ cur store))).
  assert (H3 : amplitudes_within b store3).
  { unfold store3. apply within_alter.
    - intros n _ Hn. cbn [quantumState set_quantumState].
      pose proof (Cabs_hadamard (quantumState n)). lra.
    - apply within_applyQuantumOperation; [exact Hb |].
      apply within_alter; [| exact H]. intros n _ Hn. exact Hn. }
  destruct (store3 !! cur) as [node |]; [| exact H3].
  unfold createHolographicPattern. cbn [fst].
  apply within_couple.
  apply within_alter; [intros n _ Hn; exact Hn |].
  apply within_alter; [intros n _ Hn; exact Hn | exact H3].
Qed.

Lemma within_consolidate (b now : R) (store : gmap string WordNode) :
  amplitudes_within b store -> amplitudes_within b (consolidate now store).
Proof.
  intros H k n' Hk. apply lookup_consolidate_Some in Hk.
  destruct Hk as (n & Hn & -> & _). apply (H k n Hn).
Qed.

Lemma newNode_amplitude (cur next_ documentId : string) (w : World) :
  amplitude (quantumState (fst (newNode cur next_ documentId w)))
  = {| re := random w (draws w); im := random w (S (draws w)) |}.
Proof. reflexivity. Qed.

Lemma Cabs_unit_square (a b : R) :
  0 <= a < 1 -> 0 <= b < 1 -> Cabs {| re := a; im := b |} <= sqrt 2.
Proof.
  intros Ha Hb. unfold Cabs. cbn [re im]. apply sqrt_le_1_alt. nra.
Qed.

Lemma within_ingestPair (documentId : string) (st : gmap string WordNode * World)
  (p : string * string) :
  (forall i, 0 <= random (snd st) i < 1) ->
  amplitudes_within (sqrt 2) (fst st) ->
  amplitudes_within (sqrt 2) (fst (ingestPair known documentId st p)).
Proof.
  destruct st as [store w], p as [cur next_]. cbn [fst snd]. intros Hr H.
  unfold ingestPair. destruct (store !! cur) as [node |].
  - apply within_reinforce; [| exact H].
    rewrite <- sqrt_1 at 1. apply sqrt_le_1_alt. lra.
  - pose proof (newNode_amplitude cur next_ documentId w) as Ha.
    destruct (newNode cur next_ documentId w) as [n w']. cbn [fst] in *.
    apply within_insert; [| exact H]. rewrite Ha. now apply Cabs_unit_square.
Qed.

Lemma within_ingest_fold (documentId : string) (ps : list (string * string))
  (st : gmap string WordNode * World) :
  (forall i, 0 <= random (snd st) i < 1) ->
  amplitudes_within (sqrt 2) (fst st) ->
  amplitudes_within (sqrt 2) (fst (fold_left (ingestPair known documentId) ps st)).
Proof.
  revert st. induction ps as [| p ps IH]; intros st Hr H; [exact H |].
  cbn [fold_left]. apply IH.
  - destruct (same_channels_ingestPair known documentId st p) as [_ Hsame].
    rewrite Hsame. exact Hr.
  - now apply within_ingestPair.
Qed.

End AmplitudeBounds.

Section AmplitudeClaims.
Import QuantumMemory.
Local Open Scope R_scope.

(** C5, as the code has it.  Reinforcement with its coupling, and
    consolidation, keep every amplitude within any bound [b >= 1] that held
    before, so a magnitude of at most 1 is kept by them.  A node is created
    with real and imaginary part drawn from [0, 1), so after any ingest every
    amplitude has magnitude at most [sqrt 2] when that held before and the
    random stream stays in [0, 1).  Nothing is stated about generation visits
    or about a loaded memory. *)
Theorem amplitude_bounds :
  (forall (known : gset string) (b : R) (cur next_ documentId : string)
          (store : gmap string WordNode) (w : World),
     1 <= b -> amplitudes_within b store ->
     amplitudes_within b (fst (reinforce known cur next_ documentId store w)))
  /\ (forall (b now : R) (store : gmap string WordNode),
        amplitudes_within b store -> amplitudes_within b (consolidate now store))
  /\ (forall (JSON_stringify : Json -> string) (memory : Memory)
             (text documentId : string) (w : World),
        (forall i, 0 <= random w i < 1) ->
        amplitudes_within (sqrt 2) (nodes memory) ->
        amplitudes_within (sqrt 2)
          (nodes (fst (processText JSON_stringify memory text documentId w)))).
Proof.
  split; [| split].
  - intros. now apply within_reinforce.
  - intros. now apply within_consolidate.
  - intros JSON_stringify memory text documentId w Hr H.
    rewrite processText_nodes. apply within_ingest_fold; [| exact H].
    cbn [snd]. destruct (MAX_DOCUMENT_SIZE <? String.length text)%nat; exact Hr.
Qed.

(** C5, as stated, fails at node creation: with both draws equal to 0.9 the
    node created for "a" by ingesting "a b" into the empty memory has an
    amplitude of magnitude [sqrt 1.62 > 1]. *)
Lemma created_amplitude_exceeds_one :
  amplitudes_within 1 (nodes empty_memory)
  /\ ~ amplitudes_within 1
       (nodes (fst (processText silent empty_memory "a b" "doc"
                      (sample_world (fun _ => 0.9) (fun _ => 0))))).
Proof.
  split.
  - intros k n H. cbn in H. rewrite lookup_empty in H. discriminate.
  - intros H.
    set (w := sample_world (fun _ => 0.9) (fun _ => 0)) in *.
    rewrite processText_nodes in H.
    assert (Htext : ingested_text "a b" = "a b"%string).
    { apply ingested_text_short. unfold MAX_DOCUMENT_SIZE. simpl String.length. lia. }
    rewrite Htext in H.
    change (JsArray.pairs (Tokenizer.tokenize "a b")) with [("a"%string, "b"%string)] in H.
    cbn [fold_left nodes empty_memory] in H.
    assert (Hw : (if (MAX_DOCUMENT_SIZE <? String.length "a b")%nat
                  then console_warn oversize_warning w else w) = w).
    { destruct (Nat.ltb_spec MAX_DOCUMENT_SIZE (String.length "a b")) as [Hlt |];
        [| reflexivity].
      unfold MAX_DOCUMENT_SIZE in Hlt. simpl String.length in Hlt. lia. }
    rewrite Hw in H. unfold ingestPair in H. rewrite lookup_empty in H.
    pose proof (newNode_amplitude "a" "b" "doc" w) as Ha.
    destruct (newNode "a" "b" "doc" w) as [n w']. cbn [fst] in *.
    specialize (H "a"%string n (lookup_insert_eq _ _ _)).
    rewrite Ha in H. unfold Cabs in H. cbn in H.
    assert (1 < sqrt (0.9 * 0.9 + 0.9 * 0.9)).
    { rewrite <- sqrt_1 at 1. apply sqrt_lt_1; lra. }
    lra.
Qed.

End AmplitudeClaims.

(** ** Generation: the draw of the next word *)

Section DrawFacts.
Import QuantumMemory.
Local Open Scope R_scope.

Variable store : gmap string WordNode.
Variable node : WordNode.

Lemma fold_left_Rplus_shift (m : list R) (a : R) :
  fold_left Rplus m a = a + fold_left Rplus m 0.
Proof.
  revert a. induction m as [| y m IH]; intros a; cbn [fold_left]; [lra |].
  rewrite IH, (IH (0 + y)). lra.
Qed.

Lemma Rsum_cons (a : R) (l : list R) : Rsum (a :: l) = a + Rsum l.
Proof.
  unfold Rsum. cbn [fold_left]. rewrite fold_left_Rplus_shift. lra.
Qed.

Lemma fold_left_Rplus (f : string * Successor -> R) (l : list (string * Successor)) (acc : R) :
  fold_left (fun sum e => sum + f e) l acc = acc + Rsum (List.map f l).
Proof.
  revert acc. induction l as [| e l IH]; intros acc; cbn [fold_left List.map].
  - unfold Rsum. cbn. lra.
  - rewrite IH, Rsum_cons. lra.
Qed.

Lemma Rsum_take_cons (f : string * Successor -> R) (e : string * Successor)
  (l : list (string * Successor)) (j : nat) :
  Rsum (List.map f (take (S j) (e :: l))) = f e + Rsum (List.map f (take j l)).
Proof. change (take (S j) (e :: l)) with (e :: take j l). apply Rsum_cons. Qed.

Lemma Rsum_take_0 (f : string * Successor -> R) (l : list (string * Successor)) :
  Rsum (List.map f (take 0 l)) = 0.
Proof. now destruct l. Qed.

Lemma totalStrength_sum (l : list (string * Successor)) :
  totalStrength store node l = Rsum (List.map (draw_weight store node) l).
Proof.
  unfold totalStrength.
  rewrite (fold_left_Rplus (draw_weight store node)). lra.
Qed.

Lemma pick_with_node (r : R) (l : list (string * Successor)) (chosen : string) :
  pick store node r l chosen = pick store node r (with_node store l) chosen.
Proof.
  revert r. induction l as [| e l IH]; intros r; [reflexivity |].
  cbn [pick with_node List.filter].
  destruct (store !! fst e) as [n |] eqn:E.
  - cbn [pick]. rewrite E.
    destruct (Rle_dec (r - strength n * boost node (fst e)) 0); [reflexivity | apply IH].
  - apply IH.
Qed.

Lemma with_node_present (l : list (string * Successor)) (e : string * Successor) :
  In e (with_node store l) -> exists n, store !! fst e = Some n.
Proof.
  unfold with_node. rewrite filter_In. intros [_ H].
  destruct (store !! fst e); [eauto | discriminate].
Qed.

(** The running remainder is the draw minus the weights met so far, so the
    loop stops at the first successor at which the cumulative weight reaches
    the draw. *)
Lemma pick_cumulative (l : list (string * Successor)) :
  (forall e, In e l -> exists n, store !! fst e = Some n) ->
  forall (r : R) (chosen : string) (i : nat) (e : string * Successor),
    l !! i = Some e ->
    (forall j, (j < i)%nat -> Rsum (List.map (draw_weight store node) (take (S j) l)) < r) ->
    r <= Rsum (List.map (draw_weight store node) (take (S i) l)) ->
    pick store node r l chosen = fst e.
Proof.
  induction l as [| e0 l IH]; intros Hall r chosen i e Hi Hbefore Hreach;
    [discriminate |].
  destruct (Hall e0 (or_introl eq_refl)) as [n0 Hn0].
  assert (Hw : draw_weight store node e0 = strength n0 * boost node (fst e0))
    by (unfold draw_weight, strength_or_0; now rewrite Hn0).
  cbn [pick]. rewrite Hn0. rewrite <- Hw.
  destruct i as [| i].
  - cbn in Hi. apply (inj Some) in Hi. subst e0.
    rewrite Rsum_take_cons, Rsum_take_0 in Hreach.
    destruct (Rle_dec (r - draw_weight store node e) 0); [reflexivity | lra].
  - pose proof (Hbefore O ltac:(lia)) as H0.
    rewrite Rsum_take_cons, Rsum_take_0 in H0.
    destruct (Rle_dec (r - draw_weight store node e0) 0); [lra |].
    apply (IH (fun e' He' => Hall e' (or_intror He')) _ chosen i e Hi).
    + intros j Hj. pose proof (Hbefore (S j) ltac:(lia)) as HS.
      rewrite Rsum_take_cons in HS. lra.
    + rewrite Rsum_take_cons in Hreach. lra.
Qed.

Lemma pick_exhausted (l : list (string * Successor)) :
  (forall e, In e l -> exists n, store !! fst e = Some n) ->
  forall (r : R) (chosen : string),
    (forall j, (j < length l)%nat ->
               Rsum (List.map (draw_weight store node) (take (S j) l)) < r) ->
    pick store node r l chosen = chosen.
Proof.
  induction l as [| e0 l IH]; intros Hall r chosen Hbefore; [reflexivity |].
  destruct (Hall e0 (or_introl eq_refl)) as [n0 Hn0].
  assert (Hw : draw_weight store node e0 = strength n0 * boost node (fst e0))
    by (unfold draw_weight, strength_or_0; now rewrite Hn0).
  cbn [pick]. rewrite Hn0. rewrite <- Hw.
  pose proof (Hbefore O ltac:(cbn; lia)) as H0.
  rewrite Rsum_take_cons, Rsum_take_0 in H0.
  destruct (Rle_dec (r - draw_weight store node e0) 0); [lra |].
  apply (IH (fun e' He' => Hall e' (or_intror He'))).
  intros j Hj. pose proof (Hbefore (S j) ltac:(cbn; lia)) as HS.
  rewrite Rsum_take_cons in HS. lra.
Qed.

Lemma by_score_total (a b : string * Successor) :
  by_score store node a b = false -> by_score store node b a = true.
Proof.
  unfold by_score.
  destruct (Rle_dec (sort_key store node b - sort_key store node a) 0); [discriminate |].
  intros _. destruct (Rle_dec (sort_key store node a - sort_key store node b) 0);
    [reflexivity | lra].
Qed.

Lemma by_score_trans (a b c : string * Successor) :
  by_score store node a b = true -> by_score store node b c = true ->
  by_score store node a c = true.
Proof.
  unfold by_score.
  destruct (Rle_dec (sort_key store node b - sort_key store node a) 0); [| discriminate].
  destruct (Rle_dec (sort_key store node c - sort_key store node b) 0); [| discriminate].
  intros _ _. destruct (Rle_dec (sort_key store node c - sort_key store node a) 0);
    [reflexivity | lra].
Qed.

Lemma by_score_le (a b : string * Successor) :
  by_score store node a b = true -> sort_key store node b <= sort_key store node a.
Proof.
  unfold by_score.
  destruct (Rle_dec (sort_key store node b - sort_key store node a) 0);
    [intros _; lra | discriminate].
Qed.

End DrawFacts.

Section DrawClaims.
Import QuantumMemory.
Local Open Scope R_scope.

(** C3, as the code has it.  The successors of the current node are put in
    descending order of [count * strength * boost] (a stable sort; a successor
    without a node counts as strength 0, successors of equal score keep their
    insertion order), and the draw [u] of [Math.random] is
    scaled by the sum of the weights [strength * boost], where [boost] is 1.5
    for a successor in the entangled set and 1 otherwise.  The word drawn is
    the first successor having a node, in that order, at which the cumulative
    weight reaches the scaled draw; when none does, it is the first successor
    of the order.  Neither the transition count nor amplitudes or phases enter
    the weight.  In the loop of [generateResponse] the word pushed is this
    draw, made after the current node's strength and access time are
    updated. *)
Theorem selectNext_draw (store : gmap string WordNode) (node : WordNode) (u : R) :
  let sorted := JsArray.sort (by_score store node) (next node) in
  let candidates := with_node store sorted in
  let cumulative := fun j => Rsum (List.map (draw_weight store node) (take (S j) candidates)) in
  let r := u * Rsum (List.map (draw_weight store node) sorted) in
  Permutation sorted (next node)
  /\ StronglySorted (fun a b => sort_key store node b <= sort_key store node a) sorted
  /\ (forall k, List.filter (has_key store node k) sorted
                = List.filter (has_key store node k) (next node))
  /\ (forall i e, candidates !! i = Some e ->
        (forall j, (j < i)%nat -> cumulative j < r) -> r <= cumulative i ->
        selectNext store node u = fst e)
  /\ ((forall j, (j < length candidates)%nat -> cumulative j < r) ->
      selectNext store node u = match sorted with e :: _ => fst e | [] => EmptyString end)
  /\ (forall (fuel : nat) (coherence : R) (cur : string) (response : list string)
             (w : World) (node0 : WordNode),
        store !! cur = Some node0 -> next node0 <> [] ->
        (S (length response) < 20)%nat ->
        let visited :=
          set_strength
            (Rmin (strength node0
                   + 0.05 * (1 + quantumInterference (quantumState node0)
                                   {| amplitude := {| re := coherence; im := 0 |};
                                      phase := 0 |}))
                  MAX_MEMORY_STRENGTH)
            (set_lastAccessed (clock w (ticks w)) node0) in
        let nextWord :=
          selectNext (<[cur := visited]> store) visited (random w (draws w)) in
        exists store' w',
          generate_loop (S fuel) coherence store cur response w
          = generate_loop fuel coherence store' nextWord (response ++ [nextWord]) w').
Proof.
  intros sorted candidates cumulative r.
  split; [apply sort_Permutation |].
  split.
  { eapply StronglySorted_weaken; [| apply sort_sorted].
    - intros a b. apply by_score_le.
    - apply by_score_total.
    - apply by_score_trans. }
  split.
  { intros k. apply filter_sort. intros a b Ha Hb. unfold has_key in Ha, Hb.
    destruct (Req_dec_T (sort_key store node a) k) as [Ea |]; [| discriminate].
    destruct (Req_dec_T (sort_key store node b) k) as [Eb |]; [| discriminate].
    unfold by_score. rewrite Ea, Eb.
    destruct (Rle_dec (k - k) 0); [reflexivity | lra]. }
  assert (Hsel : selectNext store node u
                 = pick store node r candidates
                     (match sorted with e :: _ => fst e | [] => EmptyString end)).
  { unfold selectNext. fold sorted. rewrite totalStrength_sum. fold r.
    apply pick_with_node. }
  split; [| split].
  - intros i e Hi Hbefore Hreach. rewrite Hsel.
    apply (pick_cumulative store node candidates) with i; try assumption.
    intros e'. apply with_node_present.
  - intros Hbefore. rewrite Hsel.
    apply pick_exhausted; [| exact Hbefore].
    intros e'. apply with_node_present.
  - intros fuel coherence cur response w node0 Hcur Hnext Hlen visited nextWord.
    cbn [generate_loop]. rewrite Hcur.
    destruct (next node0) as [| e0 rest] eqn:En; [congruence |].
    cbn [length Nat.eqb].
    unfold Date_now, Math_random. cbn [random draws clock ticks].
    fold visited. fold nextWord.
    rewrite length_app. cbn [length].
    destruct (Nat.leb_spec 20 (length response + 1)) as [Hge | _]; [lia |].
    eexists. eexists. reflexivity.
Qed.

Lemma fork_lookup_a : fork !! "a"%string = Some fork_node.
Proof. reflexivity. Qed.

Lemma fork_strengths :
  strength_or_0 fork "b" = 1 /\ strength_or_0 fork "c" = 1.
Proof. split; reflexivity. Qed.

(** C3, as stated, fails.  With successors "c" (count 9) and "b" (count 1),
    all strengths and amplitudes 1, all phases 0, and the draw 0.7, the
    claimed weights are 13.5 and 1.5, so the claimed draw stops at "c"
    (0.7 * 15 = 10.5 <= 13.5); the code weighs both at 1.5 and stops at "b"
    (0.7 * 3 = 2.1 > 1.5). *)
Lemma selectNext_ignores_counts :
  selectNext fork fork_node 0.7 = "b"%string
  /\ spec_selectNext fork fork_node 0.7 = "c"%string.
Proof.
  pose proof fork_strengths as [Hb Hc].
  assert (Hbb : boost fork_node "b" = 1.5) by reflexivity.
  assert (Hbc : boost fork_node "c" = 1.5) by reflexivity.
  set (ec := ("c"%string, {| succ_word := "c"; succ_count := 9 |})).
  set (eb := ("b"%string, {| succ_word := "b"; succ_count := 1 |})).
  assert (Hkc : sort_key fork fork_node ec = 13.5).
  { unfold sort_key. cbn [fst snd ec succ_count]. rewrite Hc, Hbc. simpl INR. lra. }
  assert (Hkb : sort_key fork fork_node eb = 1.5).
  { unfold sort_key. cbn [fst snd eb succ_count]. rewrite Hb, Hbb. simpl INR. lra. }
  assert (Hsorted : JsArray.sort (by_score fork fork_node) (next fork_node) = [ec; eb]).
  { change (next fork_node) with [ec; eb]. cbn [JsArray.sort JsArray.insert].
    unfold by_score. rewrite Hkc, Hkb.
    destruct (Rle_dec (1.5 - 13.5) 0); [reflexivity | lra]. }
  split.
  - unfold selectNext. rewrite Hsorted.
    unfold totalStrength. cbn [fold_left fst ec eb]. rewrite Hb, Hc, Hbb, Hbc.
    cbn [pick fst ec eb].
    change (fork !! "c"%string) with (Some (sample_node "c" 1 0 {| re := 1; im := 0 |} 0 [] [])).
    change (fork !! "b"%string) with (Some (sample_node "b" 1 0 {| re := 1; im := 0 |} 0 [] [])).
    cbn [strength sample_node]. rewrite Hbb, Hbc.
    destruct (Rle_dec (0.7 * (0 + 1 * 1.5 + 1 * 1.5) - 1 * 1.5) 0); [lra |].
    destruct (Rle_dec (0.7 * (0 + 1 * 1.5 + 1 * 1.5) - 1 * 1.5 - 1 * 1.5) 0);
      [reflexivity | lra].
  - assert (Hone : Cabs {| re := 1; im := 0 |} = 1) by (apply Cabs_real; lra).
    assert (Hres : forall k, resonance (quantumState fork_node)
                     (quantumState (sample_node k 1 0 {| re := 1; im := 0 |} 0 [] [])) = 1).
    { intros k. unfold resonance. cbn [quantumState fork_node sample_node amplitude phase].
      rewrite Hone. replace (0 - 0) with 0 by lra. rewrite cos_0. lra. }
    assert (Hwc : spec_weight fork fork_node ec = 13.5).
    { unfold spec_weight. cbn [fst snd ec succ_count].
      change (fork !! "c"%string) with (Some (sample_node "c" 1 0 {| re := 1; im := 0 |} 0 [] [])).
      cbv beta iota. rewrite Hres, Hbc. cbn [strength sample_node]. simpl INR. lra. }
    assert (Hwb : spec_weight fork fork_node eb = 1.5).
    { unfold spec_weight. cbn [fst snd eb succ_count].
      change (fork !! "b"%string) with (Some (sample_node "b" 1 0 {| re := 1; im := 0 |} 0 [] [])).
      cbv beta iota. rewrite Hres, Hbb. cbn [strength sample_node]. simpl INR. lra. }
    unfold spec_selectNext. change (next fork_node) with [ec; eb].
    cbn [fold_left spec_draw]. rewrite Hwc, Hwb.
    destruct (Rle_dec (0.7 * (0 + 13.5 + 1.5) - 13.5) 0); [reflexivity | lra].
Qed.

End DrawClaims.

(** ** Persistence: chunks *)

Section ChunkFacts.
Import QuantumMemory.



#[local] Opaque CHUNK_SIZE.











End ChunkFacts.

(** ** Persistence: the store *)

Section StorageFacts.
Import QuantumMemory.
#[local] Opaque CHUNK_SIZE.

Lemma chunk_key_inj (i j : nat) : chunk_key i = chunk_key j -> i = j.
Proof.
  unfold chunk_key. intros H.
  apply String.app_inj in H. now apply pretty_nat_inj in H.
Qed.

Lemma write_step_other (st : gmap string string) (i j : nat) (c : string) :
  i <> j -> write_step st (i, c) !! chunk_key j = st !! chunk_key j.
Proof.
  intros Hne. unfold write_step. cbn [fst snd].
  destruct (i <? MAX_CHUNKS)%nat; [| reflexivity].
  apply lookup_insert_ne. intros H. now apply chunk_key_inj in H.
Qed.

Lemma write_from_before (off : nat) (l : list string) (ls : gmap string string) (j : nat) :
  (j < off)%nat ->
  fold_left write_step (combine (seq off (length l)) l) ls !! chunk_key j
  = ls !! chunk_key j.
Proof.
  revert off ls. induction l as [| c l IH]; intros off ls Hj; [reflexivity |].
  cbn [length seq combine fold_left].
  rewrite IH by lia. apply write_step_other. lia.
Qed.

Lemma write_from_at (off : nat) (l : list string) (ls : gmap string string) (j : nat) :
  (off <= j < off + length l)%nat -> (j < MAX_CHUNKS)%nat ->
  fold_left write_step (combine (seq off (length l)) l) ls !! chunk_key j
  = l !! (j - off)%nat.
Proof.
  revert off ls. induction l as [| c l IH]; intros off ls Hj Hmax; [cbn in Hj; lia |].
  cbn [length seq combine fold_left].
  destruct (decide (j = off)) as [-> | Hne].
  - rewrite write_from_before by lia.
    unfold write_step. cbn [fst snd].
    destruct (Nat.ltb_spec off MAX_CHUNKS); [| lia].
    rewrite lookup_insert_eq, Nat.sub_diag. reflexivity.
  - cbn [length] in Hj. rewrite IH by lia.
    replace (j - off)%nat with (S (j - S off)) by lia. reflexivity.
Qed.

Lemma lookup_write_chunks (l : list string) (ls : gmap string string) (j : nat) :
  (j < length l)%nat -> (j < MAX_CHUNKS)%nat ->
  stored l ls !! chunk_key j = l !! j.
Proof.
  intros Hj Hmax. unfold stored.
  rewrite write_from_at by lia. now rewrite Nat.sub_0_r.
Qed.

Lemma lookup_delete_keys (idxs : list nat) (ls : gmap string string) (j : nat) :
  fold_left (fun st i => delete (chunk_key i) st) idxs ls !! chunk_key j
  = if bool_decide (j ∈ idxs) then None else ls !! chunk_key j.
Proof.
  revert ls. induction idxs as [| i idxs IH]; intros ls; [reflexivity |].
  cbn [fold_left]. rewrite IH.
  destruct (decide (j = i)) as [-> | Hne].
  - rewrite lookup_delete_eq.
    rewrite (bool_decide_eq_true_2 (i ∈ i :: idxs)) by (left).
    now destruct (bool_decide (i ∈ idxs)).
  - rewrite lookup_delete_ne by (intros H; apply chunk_key_inj in H; congruence).
    destruct (bool_decide (j ∈ idxs)) eqn:E.
    + apply bool_decide_eq_true in E.
      now rewrite (bool_decide_eq_true_2 (j ∈ i :: idxs)) by (now right).
    + apply bool_decide_eq_false in E.
      rewrite (bool_decide_eq_false_2 (j ∈ i :: idxs)); [reflexivity |].
      intros H. apply elem_of_cons in H. tauto.
Qed.

(** After a [saveMemory] all of whose writes succeed the first [MAX_CHUNKS]
    keys hold the chunks, in order, and nothing where the chunks ran out. *)
Lemma lookup_saved (l : list string) (ls : gmap string string) (j : nat) :
  (j < MAX_CHUNKS)%nat ->
  without_excess (length l) (stored l ls) !! chunk_key j = l !! j.
Proof.
  intros Hmax. unfold without_excess. rewrite lookup_delete_keys.
  destruct (Nat.lt_ge_cases j (length l)) as [Hlt | Hge].
  - rewrite bool_decide_eq_false_2.
    + now apply lookup_write_chunks.
    + rewrite list_elem_of_In, in_seq. lia.
  - rewrite bool_decide_eq_true_2.
    + symmetry. apply lookup_ge_None. lia.
    + rewrite list_elem_of_In, in_seq. lia.
Qed.


(** The world [saveMemory] leaves. *)

Lemma set_localStorage_twice (ls ls' : gmap string string) (w : World) :
  set_localStorage ls' (set_localStorage ls w) = set_localStorage ls' w.
Proof. reflexivity. Qed.

Lemma set_localStorage_same (w : World) : set_localStorage (localStorage w) w = w.
Proof. now destruct w. Qed.

Lemma write_chunks_from_never_full (l : list string) :
  forall (off : nat) (w : World),
    never_full w ->
    fold_left (fun w0 ic => if (fst ic <? MAX_CHUNKS)%nat
                            then saveMemoryChunk (snd ic) (fst ic) w0 else w0)
              (combine (seq off (length l)) l) w
    = set_localStorage
        (fold_left write_step (combine (seq off (length l)) l) (localStorage w)) w.
Proof.
  induction l as [| c l IH]; intros off w Hfull.
  - cbn. symmetry. apply set_localStorage_same.
  - cbn [length seq combine fold_left fst snd]. unfold write_step at 2. cbn [fst snd].
    destruct (off <? MAX_CHUNKS)%nat.
    + unfold saveMemoryChunk. rewrite Hfull. rewrite IH by exact Hfull. reflexivity.
    + now apply IH.
Qed.

Lemma clear_from_world (idxs : list nat) :
  forall w : World,
    fold_left (fun w0 i => set_localStorage (delete (chunk_key i) (localStorage w0)) w0)
              idxs w
    = set_localStorage
        (fold_left (fun st i => delete (chunk_key i) st) idxs (localStorage w)) w.
Proof.
  induction idxs as [| i idxs IH]; intros w.
  - cbn. symmetry. apply set_localStorage_same.
  - cbn [fold_left]. rewrite IH. reflexivity.
Qed.

Lemma saveMemory_never_full (JSON_stringify : Json -> string) (memory : Memory) (w : World) :
  never_full w ->
  saveMemory JSON_stringify memory w
  = set_localStorage
      (without_excess (length (split_chunks (JSON_stringify (serializable memory))))
                      (stored (split_chunks (JSON_stringify (serializable memory)))
                              (localStorage w)))
      w.
Proof.
  intros Hfull. unfold saveMemory, clear_excess, write_chunks.
  rewrite clear_from_world, write_chunks_from_never_full by exact Hfull. reflexivity.
Qed.



End StorageFacts.



(** ** The statements at concrete inputs *)

Section Instances.
Import QuantumMemory.
Local Open Scope R_scope.

(** C1 at the one-word graph consolidated twice one hour after its last
    access: the node is kept with strength [1 * f * f]. *)
Lemma consolidate_twice_witness :
  consolidate 3600000 (consolidate 3600000 one_word) !! "a"%string
  = Some (set_strength
            (strength (sample_node "a" 1 0 {| re := 1; im := 0 |} 0 [] [])
             * decay_factor 3600000 (sample_node "a" 1 0 {| re := 1; im := 0 |} 0 [] [])
             * decay_factor 3600000 (sample_node "a" 1 0 {| re := 1; im := 0 |} 0 [] []))
            (sample_node "a" 1 0 {| re := 1; im := 0 |} 0 [] [])).
Proof.
  apply (proj1 (proj1 (consolidate_twice 3600000 one_word) "a"%string
                  (sample_node "a" 1 0 {| re := 1; im := 0 |} 0 [] []) eq_refl)).
  - rewrite one_word_factor. cbn [strength sample_node].
    pose proof exp_tenth_bounds. lra.
  - rewrite one_word_factor. cbn [strength sample_node].
    pose proof exp_tenth_bounds. nra.
Defined.

(** C2 at the one-word graph, the clock reading one hour after its last
    access. *)
Lemma consolidateMemory_decays_and_prunes_witness :
  nodes (fst (consolidateMemory silent (memory_of one_word)
                (sample_world (fun _ => 0) (fun _ => 3600000)))) !! "a"%string
  = Some (set_strength (1 * exp (- 0.1 * ((3600000 - 0) / CONSOLIDATION_INTERVAL)))
            (sample_node "a" 1 0 {| re := 1; im := 0 |} 0 [] [])).
Proof.
  apply (proj2 (proj2 (consolidateMemory_decays_and_prunes silent (memory_of one_word)
                         (sample_world (fun _ => 0) (fun _ => 3600000)) "a"%string))).
  unfold CONSOLIDATION_INTERVAL.
  cbn [strength lastAccessed sample_node clock ticks sample_world].
  replace (-0.1 * ((3600000 - 0) / (1000 * 60 * 60))) with (-0.1) by lra.
  pose proof exp_tenth_bounds. lra.
Defined.

Lemma fork_sorted :
  JsArray.sort (by_score fork fork_node) (next fork_node) = next fork_node.
Proof.
  assert (Hc : sort_key fork fork_node ("c"%string, {| succ_word := "c"; succ_count := 9 |})
               = 13.5).
  { unfold sort_key. cbn [fst snd succ_count].
    change (strength_or_0 fork "c") with 1. change (boost fork_node "c") with 1.5.
    simpl INR. lra. }
  assert (Hb : sort_key fork fork_node ("b"%string, {| succ_word := "b"; succ_count := 1 |})
               = 1.5).
  { unfold sort_key. cbn [fst snd succ_count].
    change (strength_or_0 fork "b") with 1. change (boost fork_node "b") with 1.5.
    simpl INR. lra. }
  cbn [next fork_node sample_node JsArray.sort JsArray.insert].
  unfold by_score. rewrite Hc, Hb.
  destruct (Rle_dec (1.5 - 13.5) 0); [reflexivity | lra].
Qed.

Lemma fork_weights (k : nat) :
  Rsum (List.map (draw_weight fork fork_node)
          (take k (with_node fork (JsArray.sort (by_score fork fork_node) (next fork_node)))))
  = match k with O => 0 | 1%nat => 1.5 | _ => 3 end.
Proof.
  rewrite fork_sorted.
  change (with_node fork (next fork_node)) with (next fork_node).
  assert (Hw : forall e, In e (next fork_node) -> draw_weight fork fork_node e = 1.5).
  { intros e [<- | [<- | []]]; unfold draw_weight; cbn [fst].
    - change (strength_or_0 fork "c") with 1. change (boost fork_node "c") with 1.5. lra.
    - change (strength_or_0 fork "b") with 1. change (boost fork_node "b") with 1.5. lra. }
  cbn [next fork_node sample_node] in *.
  destruct k as [| [| k]]; cbn [take firstn List.map].
  - reflexivity.
  - rewrite Rsum_cons, Hw by (left; reflexivity). unfold Rsum. cbn. lra.
  - rewrite !Rsum_cons, !Hw by (cbn; tauto).
    destruct k; unfold Rsum; cbn; lra.
Qed.

(** C3 at the fork: the draw 0.7 passes "c" (cumulative weight 1.5) and
    stops at "b" (cumulative weight 3 against 2.1). *)
Lemma selectNext_draw_witness : selectNext fork fork_node 0.7 = "b"%string.
Proof.
  apply (proj1 (proj2 (proj2 (proj2 (selectNext_draw fork fork_node 0.7)))) 1%nat
           ("b"%string, {| succ_word := "b"; succ_count := 1 |})).
  - rewrite fork_sorted. reflexivity.
  - intros j Hj. assert (j = O) as -> by lia.
    rewrite fork_weights, fork_sorted.
    replace (Rsum (List.map (draw_weight fork fork_node) (next fork_node))) with 3.
    + lra.
    + pose proof (fork_weights 2) as H2. rewrite fork_sorted in H2.
      symmetry. exact H2.
  - rewrite fork_weights, fork_sorted.
    replace (Rsum (List.map (draw_weight fork fork_node) (next fork_node))) with 3.
    + lra.
    + pose proof (fork_weights 2) as H2. rewrite fork_sorted in H2.
      symmetry. exact H2.
Defined.

Lemma one_word_within : amplitudes_within 1 one_word.
Proof.
  intros k n H. unfold one_word in H.
  apply lookup_singleton_Some in H. destruct H as [_ <-].
  cbn [quantumState sample_node amplitude]. rewrite Cabs_real; lra.
Qed.

(** C5 at the one-word graph: reinforcing "a" keeps the bound 1. *)
Lemma amplitude_bounds_witness :
  amplitudes_within 1
    (fst (reinforce ∅ "a" "b" "doc" one_word (sample_world (fun _ => 0) (fun _ => 0)))).
Proof.
  apply (proj1 amplitude_bounds ∅ 1 "a"%string "b"%string "doc"%string one_word
           (sample_world (fun _ => 0) (fun _ => 0))).
  - lra.
  - exact one_word_within.
Defined.

(** C9 at the empty memory. *)
Lemma generateResponse_degenerate_witness :
  fst (fst (generateResponse silent empty_memory "zzznotaword"
              (sample_world (fun _ => 0) (fun _ => 0))))
  = "zzznotaword"%string.
Proof.
  apply (proj2 (proj2 (proj2 (generateResponse_degenerate silent empty_memory "zzznotaword"
                                (sample_world (fun _ => 0) (fun _ => 0)))))).
  reflexivity.
Defined.

(** C10 at a one-token text: the node map stays as it is. *)
Lemma processText_touches_first_elements_witness :
  nodes (fst (processText silent (memory_of one_word) "hello" "doc"
                (sample_world (fun _ => 0) (fun _ => 0))))
  = nodes (memory_of one_word).
Proof.
  apply (proj1 (processText_touches_first_elements silent (memory_of one_word) "hello" "doc"
                  (sample_world (fun _ => 0) (fun _ => 0)))).
  change (Tokenizer.tokenize "hello") with ["hello"%string]. cbn [length]. lia.
Defined.

End Instances.

(** * Further properties of the two files *)

(** ** Maps in insertion order *)

Section JsMapFacts.
Context {V : Type}.

Lemma get_set_same (k : string) (v : V) (m : list (string * V)) :
  JsMap.get k (JsMap.set k v m) = Some v.
Proof.
  induction m as [| [k' v'] m IH]; cbn [JsMap.set JsMap.get].
  - now rewrite String.eqb_refl.
  - destruct (String.eqb k k') eqn:E; cbn [JsMap.get]; rewrite ?String.eqb_refl, ?E; auto.
Qed.

Lemma get_set_other (k k' : string) (v : V) (m : list (string * V)) :
  k' <> k -> JsMap.get k' (JsMap.set k v m) = JsMap.get k' m.
Proof.
  intros Hne. induction m as [| [k0 v0] m IH]; cbn [JsMap.set JsMap.get].
  - destruct (String.eqb_spec k' k); [contradiction | reflexivity].
  - destruct (String.eqb_spec k k0) as [<- | Hk]; cbn [JsMap.get].
    + destruct (String.eqb_spec k' k); [contradiction | reflexivity].
    + destruct (String.eqb k' k0); [reflexivity | exact IH].
Qed.

Lemma in_set (k : string) (v : V) (m : list (string * V)) (e : string * V) :
  In e (JsMap.set k v m) -> e = (k, v) \/ In e m.
Proof.
  induction m as [| [k0 v0] m IH]; cbn [JsMap.set].
  - intros [<- | []]. now left.
  - destruct (String.eqb k k0).
    + intros [<- | H]; [now left | right; now right].
    + intros [<- | H]; [right; now left |].
      destruct (IH H) as [-> | H']; [now left | right; now right].
Qed.

Lemma keys_set (k : string) (v : V) (m : list (string * V)) :
  List.map fst (JsMap.set k v m)
  = if JsMap.has k m then List.map fst m else List.map fst m ++ [k].
Proof.
  unfold JsMap.has.
  induction m as [| [k0 v0] m IH]; cbn [JsMap.set JsMap.get List.map]; [reflexivity |].
  destruct (String.eqb_spec k k0) as [<- | Hne]; cbn [List.map fst]; [reflexivity |].
  rewrite IH. now destruct (JsMap.get k m).
Qed.

Lemma get_None_keys (k : string) (m : list (string * V)) :
  JsMap.get k m = None <-> ~ In k (List.map fst m).
Proof.
  induction m as [| [k0 v0] m IH]; cbn [JsMap.get List.map fst In]; [tauto |].
  destruct (String.eqb_spec k k0) as [<- | Hne].
  - split; [discriminate | tauto].
  - rewrite IH. split; [intros H [E | H']; [congruence | tauto] | tauto].
Qed.

End JsMapFacts.

Section JsSetFacts.

Lemma has_In (x : string) (s : list string) : JsSet.has x s = true <-> In x s.
Proof.
  unfold JsSet.has. rewrite existsb_exists. split.
  - intros (y & Hy & E). apply String.eqb_eq in E. now subst.
  - intros H. exists x. split; [exact H | apply String.eqb_refl].
Qed.

Lemma in_add (x y : string) (s : list string) : In x (JsSet.add y s) <-> x = y \/ In x s.
Proof.
  unfold JsSet.add. destruct (JsSet.has y s) eqn:E.
  - apply has_In in E. split; [tauto | intros [-> | H]; assumption].
  - rewrite in_app_iff. cbn [In]. split; [intros [H | [<- | []]]; tauto |].
    intros [-> | H]; [right; now left | now left].
Qed.

Lemma NoDup_add (y : string) (s : list string) : List.NoDup s -> List.NoDup (JsSet.add y s).
Proof.
  intros Hs. unfold JsSet.add. destruct (JsSet.has y s) eqn:E; [exact Hs |].
  assert (~ In y s) by (rewrite <- has_In; congruence).
  apply NoDup_app_remove_l with (l := []). cbn.
  apply Permutation_NoDup with (y :: s); [| now constructor].
  apply Permutation_cons_append.
Qed.

End JsSetFacts.

(** ** Ingest: the fields outside the quantum state *)

Section ClassicalFacts.
Import QuantumMemory.
Local Open Scope R_scope.
#[local] Opaque PATTERN_CELLS.

Variable known : gset string.

Lemma classical_alter (f : WordNode -> WordNode) (k k' : string)
  (store : gmap string WordNode) :
  (forall n, classical (f n) = classical n) ->
  classical <$> (alter f k' store !! k) = classical <$> (store !! k).
Proof.
  intros Hf. rewrite lookup_alter. destruct (decide (k' = k)) as [-> |]; [| reflexivity].
  destruct (store !! k) as [n |]; cbn; [| reflexivity]. now rewrite Hf.
Qed.

Lemma classical_entangle_fold (p : R) (l : list string) (store : gmap string WordNode)
  (k : string) :
  classical <$> (fold_left (entangle known p) l store !! k) = classical <$> (store !! k).
Proof.
  revert store. induction l as [| e l IH]; intros store; [reflexivity |].
  cbn [fold_left]. rewrite IH. unfold entangle.
  destruct (bool_decide (e ∈ known)); [| reflexivity].
  now apply classical_alter.
Qed.

Lemma classical_applyQuantumOperation (cur k : string) (store : gmap string WordNode) :
  classical <$> (applyQuantumOperation known cur store !! k) = classical <$> (store !! k).
Proof.
  unfold applyQuantumOperation.
  destruct (store !! cur) as [node |] eqn:E; [| reflexivity].
  rewrite classical_entangle_fold, lookup_insert.
  destruct (decide (cur = k)) as [<- |]; [| reflexivity].
  now rewrite E.
Qed.

Lemma classical_couple (cur next_ k : string) (store : gmap string WordNode) :
  classical <$> (couple cur next_ store !! k) = classical <$> (store !! k).
Proof.
  unfold couple.
  destruct (store !! next_) as [nextNode |]; [| reflexivity].
  destruct (store !! cur) as [node |]; [| reflexivity].
  destruct (applyCNOTGate (quantumState node) (quantumState nextNode)) as [c t].
  set (store2 := alter (set_quantumState t) next_ (alter (set_quantumState c) cur store)).
  assert (H2 : classical <$> (store2 !! k) = classical <$> (store !! k)).
  { unfold store2. now rewrite !classical_alter by reflexivity. }
  destruct (store2 !! next_); [| exact H2].
  now rewrite classical_alter by reflexivity.
Qed.

Lemma classical_reinforce (cur next_ documentId k : string) (store : gmap string WordNode)
  (w : World) :
  classical <$> (fst (reinforce known cur next_ documentId store w) !! k)
  = if decide (cur = k)
    then (fun n => classical (restated next_ documentId (clock w (ticks w)) n)) <$> (store !! k)
    else classical <$> (store !! k).
Proof.
  unfold reinforce, Date_now.
  set (now := clock w (ticks w)).
  set (store1 := alter _ cur store).
  set (store2 := applyQuantumOperation known cur store1).
  set (store3 := alter _ cur store2).
  assert (H3 : forall j, classical <$> (store3 !! j)
                         = if decide (cur = j)
                           then (fun n => classical (touch next_ documentId now n)) <$> (store !! j)
                           else classical <$> (store !! j)).
  { intros j. unfold store3. rewrite classical_alter by reflexivity.
    unfold store2. rewrite classical_applyQuantumOperation.
    unfold store1. rewrite lookup_alter.
    destruct (decide (cur = j)) as [<- |]; [| reflexivity].
    now destruct (store !! cur). }
  destruct (store3 !! cur) as [node |] eqn:E3.
  - unfold createHolographicPattern. cbn [fst].
    rewrite classical_couple.
    set (pattern := mkHolographicPattern _ _).
    rewrite lookup_alter. destruct (decide (cur = k)) as [<- | Hne].
    + rewrite lookup_alter_eq, E3. cbn [fmap option_fmap option_map].
      pose proof (H3 cur) as Hc. rewrite E3 in Hc.
      destruct (decide (cur = cur)); [| congruence].
      destruct (store !! cur) as [n0 |]; [| discriminate].
      cbn [fmap option_fmap option_map] in Hc |- *. apply (inj Some) in Hc.
      f_equal. unfold restated.
      change (classical (set_next ?m ?n)) with (set_next m (classical n)).
      change (classical (set_holographicPattern pattern node)) with (classical node).
      rewrite Hc.
      change (next (set_holographicPattern pattern node)) with (next (classical node)).
      rewrite Hc. reflexivity.
    + rewrite lookup_alter_ne by exact Hne.
      pose proof (H3 k) as Hk. destruct (decide (cur = k)); [contradiction | exact Hk].
  - pose proof (H3 k) as Hk. cbn [fst].
    destruct (decide (cur = k)) as [<- |]; [| exact Hk].
    rewrite E3 in Hk. rewrite E3. destruct (store !! cur); [discriminate | reflexivity].
Qed.

Lemma newNode_classical (cur next_ documentId : string) (w : World) :
  let n := fst (newNode cur next_ documentId w) in
  word n = cur /\ count n = 1%nat
  /\ next n = [(next_, {| succ_word := next_; succ_count := 1 |})]
  /\ documents n = [documentId] /\ strength n = 1
  /\ entangledNodes n = [next_].
Proof. repeat split. Qed.

End ClassicalFacts.

Section IngestCases.
Import QuantumMemory.
Local Open Scope R_scope.
#[local] Opaque PATTERN_CELLS.

Variable known : gset string.
Variable documentId : string.

(** The node found under [k] after a turn of the loop: the old one up to its
    quantum state and pattern, or for the word of the turn the restated old
    one, or a new one. *)
Lemma ingestPair_cases (store : gmap string WordNode) (w : World) (cur nx k : string)
  (n' : WordNode) :
  fst (ingestPair known documentId (store, w) (cur, nx)) !! k = Some n' ->
  (k <> cur /\ exists n, store !! k = Some n /\ classical n' = classical n)
  \/ (k = cur /\ exists n, store !! cur = Some n
                          /\ classical n'
                             = classical (restated nx documentId (clock w (ticks w)) n))
  \/ (k = cur /\ store !! cur = None
      /\ classical n' = classical (fst (newNode cur nx documentId w))).
Proof.
  unfold ingestPair. destruct (store !! cur) as [n |] eqn:E.
  - intros H.
    pose proof (classical_reinforce known cur nx documentId k store w) as Hc.
    rewrite H in Hc. cbn [fmap option_fmap option_map] in Hc.
    destruct (decide (cur = k)) as [<- | Hne].
    + right. left. split; [reflexivity |]. exists n. split; [reflexivity |].
      rewrite E in Hc. cbn in Hc. now apply (inj Some) in Hc.
    + left. split; [congruence |].
      destruct (store !! k) as [n0 |]; [| discriminate].
      exists n0. split; [reflexivity |]. cbn in Hc. now apply (inj Some) in Hc.
  - destruct (newNode cur nx documentId w) as [nn w'] eqn:En. cbn [fst].
    rewrite lookup_insert. destruct (decide (cur = k)) as [<- | Hne].
    + intros H. apply (inj Some) in H. subst n'. right. right. auto.
    + intros H. left. split; [congruence |]. exists n'. now split.
Qed.

Lemma ingestPair_kept (store : gmap string WordNode) (w : World) (cur nx k : string)
  (n : WordNode) :
  store !! k = Some n ->
  exists n', fst (ingestPair known documentId (store, w) (cur, nx)) !! k = Some n'.
Proof.
  intros H. apply elem_of_dom.
  rewrite (dom_ingestPair known documentId (store, w) (cur, nx)). cbn [fst].
  apply elem_of_union_l, elem_of_dom. eauto.
Qed.

Lemma count_of_ingestPair (store : gmap string WordNode) (w : World) (cur nx k : string) :
  count_of (fst (ingestPair known documentId (store, w) (cur, nx))) k
  = (count_of store k + if decide (cur = k) then 1 else 0)%nat.
Proof.
  unfold count_of.
  destruct (fst (ingestPair known documentId (store, w) (cur, nx)) !! k) as [n' |] eqn:E.
  - apply ingestPair_cases in E.
    destruct E as [(Hne & n & Hn & Hc) | [(-> & n & Hn & Hc) | (-> & Hn & Hc)]].
    + rewrite Hn. destruct (decide (cur = k)); [congruence |].
      apply (f_equal count) in Hc. cbn in Hc. lia.
    + rewrite Hn. destruct (decide (cur = cur)); [| congruence].
      apply (f_equal count) in Hc. cbn in Hc. lia.
    + rewrite Hn. destruct (decide (cur = cur)); [| congruence].
      apply (f_equal count) in Hc. cbn in Hc. lia.
  - destruct (store !! k) as [n |] eqn:Hn.
    + destruct (ingestPair_kept store w cur nx k n Hn) as [n' Hn']. congruence.
    + destruct (decide (cur = k)) as [<- |]; [| reflexivity].
      assert (cur ∈ dom (fst (ingestPair known documentId (store, w) (cur, nx)))) as Hd.
      { rewrite dom_ingestPair. cbn [fst]. apply elem_of_union_r. now apply elem_of_singleton. }
      apply elem_of_dom in Hd. destruct Hd as [x Hx]. congruence.
Qed.

Lemma count_after_bump (nx b : string) (m : list (string * Successor)) :
  match JsMap.get b (bump nx m) with Some s => succ_count s | None => O end
  = (match JsMap.get b m with Some s => succ_count s | None => O end
     + if decide (nx = b) then 1 else 0)%nat.
Proof.
  unfold bump. destruct (decide (nx = b)) as [<- | Hne].
  - destruct (JsMap.get nx m) as [s |] eqn:E; rewrite get_set_same; cbn; lia.
  - destruct (JsMap.get nx m) as [s |] eqn:E;
      rewrite get_set_other by congruence; lia.
Qed.

Lemma transitions_of_ingestPair (store : gmap string WordNode) (w : World)
  (cur nx a b : string) :
  transitions_of (fst (ingestPair known documentId (store, w) (cur, nx))) a b
  = (transitions_of store a b + if pair_eq_dec (cur, nx) (a, b) then 1 else 0)%nat.
Proof.
  unfold transitions_of.
  destruct (fst (ingestPair known documentId (store, w) (cur, nx)) !! a) as [n' |] eqn:E.
  - apply ingestPair_cases in E.
    destruct E as [(Hne & n & Hn & Hc) | [(-> & n & Hn & Hc) | (-> & Hn & Hc)]].
    + rewrite Hn. apply (f_equal next) in Hc. cbn in Hc. rewrite Hc.
      destruct (pair_eq_dec (cur, nx) (a, b)) as [Heq |]; [congruence | lia].
    + rewrite Hn. apply (f_equal next) in Hc. cbn in Hc. rewrite Hc.
      rewrite count_after_bump.
      destruct (decide (nx = b)) as [Hb | Hb], (pair_eq_dec (cur, nx) (cur, b)) as [Heq | Hp];
        congruence || lia.
    + rewrite Hn. apply (f_equal next) in Hc. cbn in Hc. rewrite Hc.
      cbn [JsMap.get].
      destruct (String.eqb_spec b nx) as [Hb | Hb], (pair_eq_dec (cur, nx) (cur, b)) as [Heq | Hp];
        cbn; congruence || lia.
  - destruct (store !! a) as [n |] eqn:Hn.
    + destruct (ingestPair_kept store w cur nx a n Hn) as [n' Hn']. congruence.
    + destruct (pair_eq_dec (cur, nx) (a, b)) as [Heq |]; [| reflexivity].
      injection Heq as -> ->.
      assert (a ∈ dom (fst (ingestPair known documentId (store, w) (a, b)))) as Hd.
      { rewrite dom_ingestPair. cbn [fst]. apply elem_of_union_r. now apply elem_of_singleton. }
      apply elem_of_dom in Hd. destruct Hd as [x Hx]. congruence.
Qed.

Lemma count_of_fold (ps : list (string * string)) (st : gmap string WordNode * World)
  (k : string) :
  count_of (fst (fold_left (ingestPair known documentId) ps st)) k
  = (count_of (fst st) k + count_occ string_dec (List.map fst ps) k)%nat.
Proof.
  revert st. induction ps as [| [cur nx] ps IH]; intros [store w]; cbn [fold_left List.map];
    [cbn; lia |].
  rewrite IH, count_of_ingestPair. cbn [fst count_occ].
  destruct (decide (cur = k)), (string_dec cur k); congruence || lia.
Qed.

Lemma transitions_of_fold (ps : list (string * string)) (st : gmap string WordNode * World)
  (a b : string) :
  transitions_of (fst (fold_left (ingestPair known documentId) ps st)) a b
  = (transitions_of (fst st) a b + count_occ pair_eq_dec ps (a, b))%nat.
Proof.
  revert st. induction ps as [| [cur nx] ps IH]; intros [store w]; cbn [fold_left];
    [cbn; lia |].
  rewrite IH, transitions_of_ingestPair. cbn [fst count_occ].
  destruct (pair_eq_dec (cur, nx) (a, b)); lia.
Qed.

End IngestCases.

Section IngestConservation.
Import QuantumMemory.

(** X1.  Ingest counts occurrences: after [processText] the count of a word
    is its count before (0 without a node) plus the number of times it occurs
    among the tokens of the ingested text other than the last. *)
Theorem processText_counts_occurrences (JSON_stringify : Json -> string)
  (memory : Memory) (text documentId : string) (w : World) (k : string) :
  count_of (nodes (fst (processText JSON_stringify memory text documentId w))) k
  = (count_of (nodes memory) k
     + count_occ string_dec (removelast (Tokenizer.tokenize (ingested_text text))) k)%nat.
Proof.
  rewrite processText_nodes, count_of_fold, pairs_firsts. reflexivity.
Qed.

(** X2.  Ingest counts transitions: after [processText] the count of the
    transition from [a] to [b] is its count before (0 when there was none)
    plus the number of times [b] follows [a] directly in the tokens of the
    ingested text. *)
Theorem processText_counts_transitions (JSON_stringify : Json -> string)
  (memory : Memory) (text documentId : string) (w : World) (a b : string) :
  transitions_of (nodes (fst (processText JSON_stringify memory text documentId w))) a b
  = (transitions_of (nodes memory) a b
     + count_occ pair_eq_dec (JsArray.pairs (Tokenizer.tokenize (ingested_text text))) (a, b))%nat.
Proof.
  rewrite processText_nodes, transitions_of_fold. reflexivity.
Qed.

End IngestConservation.

Section BumpFacts.
Import QuantumMemory.

Lemma get_Some_In {V : Type} (k : string) (v : V) (m : list (string * V)) :
  JsMap.get k m = Some v -> In (k, v) m.
Proof.
  induction m as [| [k' v'] m IH]; cbn [JsMap.get]; [discriminate |].
  destruct (String.eqb_spec k k') as [<- | Hk].
  - intros H. apply (inj Some) in H. subst. now left.
  - intros H. right. auto.
Qed.

Lemma in_bump (nx : string) (m : list (string * Successor)) (e : string * Successor) :
  In e (bump nx m) ->
  (fst e = nx /\ match JsMap.get nx m with
                 | Some s => succ_word (snd e) = succ_word s
                 | None => succ_word (snd e) = nx
                 end)
  \/ In e m.
Proof.
  unfold bump. destruct (JsMap.get nx m) as [s |]; intros H;
    apply in_set in H; destruct H as [-> | H]; auto.
Qed.

Lemma keys_bump (nx : string) (m : list (string * Successor)) :
  List.map fst (bump nx m)
  = if JsMap.has nx m then List.map fst m else List.map fst m ++ [nx].
Proof.
  unfold bump, JsMap.has at 1.
  destruct (JsMap.get nx m) as [s |] eqn:E; rewrite keys_set; unfold JsMap.has; now rewrite E.
Qed.

End BumpFacts.

Section IngestInvariants.
Import QuantumMemory.
Local Open Scope R_scope.
#[local] Opaque PATTERN_CELLS.

Variable known : gset string.
Variable documentId : string.

Lemma ingest_fold_invariant (P : gmap string WordNode -> Prop) :
  (forall store w cur nx,
      P store -> P (fst (ingestPair known documentId (store, w) (cur, nx)))) ->
  forall ps st, P (fst st) -> P (fst (fold_left (ingestPair known documentId) ps st)).
Proof.
  intros Hstep ps. induction ps as [| [cur nx] ps IH]; intros [store w] H; [exact H |].
  cbn [fold_left]. apply IH.
  destruct (ingestPair known documentId (store, w) (cur, nx)) as [s' w'] eqn:E.
  cbn [fst]. change s' with (fst (s', w')). rewrite <- E. now apply Hstep.
Qed.

Lemma successors_entangled_ingestPair (store : gmap string WordNode) (w : World)
  (cur nx : string) :
  successors_entangled store ->
  successors_entangled (fst (ingestPair known documentId (store, w) (cur, nx))).
Proof.
  intros Hinv k n' e Hk He. apply has_In.
  apply ingestPair_cases in Hk.
  destruct Hk as [(Hne & n & Hn & Hc) | [(-> & n & Hn & Hc) | (-> & Hn & Hc)]].
  - pose proof (f_equal next Hc) as Hnx. pose proof (f_equal entangledNodes Hc) as Hen.
    cbn in Hnx, Hen. rewrite Hen. apply has_In. apply (Hinv k n e Hn). now rewrite <- Hnx.
  - pose proof (f_equal next Hc) as Hnx. pose proof (f_equal entangledNodes Hc) as Hen.
    cbn in Hnx, Hen. rewrite Hen. apply in_add. rewrite Hnx in He.
    apply in_bump in He. destruct He as [[He _] | He]; [now left | right].
    apply has_In. exact (Hinv cur n e Hn He).
  - pose proof (f_equal next Hc) as Hnx. pose proof (f_equal entangledNodes Hc) as Hen.
    cbn in Hnx, Hen. rewrite Hen. rewrite Hnx in He.
    destruct He as [<- | []]. now left.
Qed.

Lemma well_keyed_ingestPair (store : gmap string WordNode) (w : World) (cur nx : string) :
  well_keyed store ->
  well_keyed (fst (ingestPair known documentId (store, w) (cur, nx))).
Proof.
  intros Hinv k n' Hk.
  apply ingestPair_cases in Hk.
  destruct Hk as [(Hne & n & Hn & Hc) | [(-> & n & Hn & Hc) | (-> & Hn & Hc)]];
    pose proof (f_equal next Hc) as Hnx; pose proof (f_equal word Hc) as Hw;
    cbn in Hnx, Hw; rewrite Hnx, Hw.
  - exact (Hinv k n Hn).
  - destruct (Hinv cur n Hn) as [H1 H2]. split; [exact H1 |].
    intros e He. apply in_bump in He. destruct He as [[He Hs] | He]; [| auto].
    destruct (JsMap.get nx (next n)) as [s |] eqn:Eg; [| congruence].
    apply get_Some_In in Eg. apply H2 in Eg. cbn in Eg. congruence.
  - split; [reflexivity |]. intros e [<- | []]. reflexivity.
Qed.

Lemma strengths_capped_ingestPair (store : gmap string WordNode) (w : World)
  (cur nx : string) :
  strengths_capped store ->
  strengths_capped (fst (ingestPair known documentId (store, w) (cur, nx))).
Proof.
  intros Hinv k n' Hk.
  apply ingestPair_cases in Hk.
  destruct Hk as [(Hne & n & Hn & Hc) | [(-> & n & Hn & Hc) | (-> & Hn & Hc)]];
    pose proof (f_equal strength Hc) as Hs; cbn in Hs; rewrite Hs.
  - exact (Hinv k n Hn).
  - apply Rmin_r.
  - unfold MAX_MEMORY_STRENGTH. lra.
Qed.

End IngestInvariants.

Section GenerationFacts.
Import QuantumMemory.
Local Open Scope R_scope.

Lemma pick_in (store : gmap string WordNode) (node : WordNode)
  (l : list (string * Successor)) :
  forall (r : R) (chosen : string),
    pick store node r l chosen = chosen \/ In (pick store node r l chosen) (List.map fst l).
Proof.
  induction l as [| e l IH]; intros r chosen; cbn [pick List.map In]; [now left |].
  destruct (store !! fst e) as [nextNode |].
  - destruct (Rle_dec _ 0); [right; now left |].
    destruct (IH (r - strength nextNode * boost node (fst e)) chosen); [now left | right; now right].
  - destruct (IH r chosen); [now left | right; now right].
Qed.

Lemma selectNext_in (store : gmap string WordNode) (node : WordNode) (u : R) :
  next node <> [] -> In (selectNext store node u) (List.map fst (next node)).
Proof.
  intros Hne. unfold selectNext.
  pose proof (sort_Permutation (by_score store node) (next node)) as Hp.
  set (sorted := JsArray.sort (by_score store node) (next node)) in *.
  assert (forall x, In x (List.map fst sorted) -> In x (List.map fst (next node))) as Hin.
  { intros x. apply Permutation_in. now apply Permutation_map. }
  apply Hin.
  destruct (pick_in store node sorted (u * totalStrength store node sorted)
                    match sorted with e :: _ => fst e | [] => EmptyString end) as [-> | H];
    [| exact H].
  destruct sorted as [| e sorted']; [| now left].
  apply Permutation_nil in Hp. congruence.
Qed.

(** The fields generation never writes stay as they were through one turn
    of its loop. *)
Lemma frozen_turn (store : gmap string WordNode) (cur nextWord : string)
  (node0 : WordNode) (s now : R) (q : WordNode -> QuantumState) (k : string) :
  store !! cur = Some node0 ->
  frozen <$> (alter (fun selectedNode => set_quantumState (q selectedNode) selectedNode)
                    nextWord
                    (<[cur := set_strength s (set_lastAccessed now node0)]> store) !! k)
  = frozen <$> (store !! k).
Proof.
  intros Hcur.
  assert (frozen <$> (<[cur := set_strength s (set_lastAccessed now node0)]> store !! k)
          = frozen <$> (store !! k)) as Hins.
  { rewrite lookup_insert. destruct (decide (cur = k)) as [<- |]; [| reflexivity].
    rewrite Hcur. reflexivity. }
  rewrite lookup_alter. destruct (decide (nextWord = k)) as [<- |]; [| exact Hins].
  rewrite <- Hins.
  destruct (<[cur := set_strength s (set_lastAccessed now node0)]> store !! nextWord);
    reflexivity.
Qed.

Lemma capped_turn (store : gmap string WordNode) (cur nextWord : string)
  (node0 : WordNode) (s now : R) (q : WordNode -> QuantumState) :
  strengths_capped store ->
  strengths_capped
    (alter (fun selectedNode => set_quantumState (q selectedNode) selectedNode)
           nextWord
           (<[cur := set_strength (Rmin s MAX_MEMORY_STRENGTH) (set_lastAccessed now node0)]>
              store)).
Proof.
  intros Hinv k n Hk. rewrite lookup_alter in Hk.
  assert (forall n0, <[cur := set_strength (Rmin s MAX_MEMORY_STRENGTH)
                                           (set_lastAccessed now node0)]> store !! k = Some n0
                     -> strength n0 <= MAX_MEMORY_STRENGTH) as Hins.
  { intros n0 H0. rewrite lookup_insert in H0. destruct (decide (cur = k)) as [<- |].
    - apply (inj Some) in H0. subst n0. cbn. apply Rmin_r.
    - exact (Hinv k n0 H0). }
  destruct (decide (nextWord = k)) as [<- |]; [| exact (Hins n Hk)].
  destruct (<[cur := _]> store !! nextWord) as [n0 |] eqn:E; [| discriminate].
  apply (inj Some) in Hk. subst n. cbn. exact (Hins n0 eq_refl).
Qed.

Lemma walk_frozen (s1 s2 : gmap string WordNode) :
  (forall k, frozen <$> (s1 !! k) = frozen <$> (s2 !! k)) ->
  forall cont prev, walk s1 prev cont -> walk s2 prev cont.
Proof.
  intros Hsame. induction cont as [| x rest IH]; intros prev; cbn [walk]; [auto |].
  intros [(n & Hn & Hin) Hrest]. split; [| auto].
  specialize (Hsame prev). rewrite Hn in Hsame.
  destruct (s2 !! prev) as [n2 |]; [| discriminate].
  exists n2. split; [reflexivity |].
  cbn in Hsame. apply (inj Some) in Hsame. apply (f_equal next) in Hsame. cbn in Hsame.
  now rewrite <- Hsame.
Qed.

(** What a run of the loop of [generateResponse] does: it appends at most
    [fuel] words, which form a walk along recorded transitions from the
    word it starts at, and it leaves every node in place with the fields
    outside strength, access time and quantum state as they were. *)
Lemma generate_loop_shape (fuel : nat) (coherence : R) :
  forall (store : gmap string WordNode) (currentWord : string) (response : list string)
         (w : World),
  exists cont,
    fst (fst (generate_loop fuel coherence store currentWord response w)) = response ++ cont
    /\ (length cont <= fuel)%nat
    /\ walk store currentWord cont
    /\ (forall k, frozen <$> (snd (fst (generate_loop fuel coherence store currentWord
                                                     response w)) !! k)
                  = frozen <$> (store !! k))
    /\ (strengths_capped store ->
        strengths_capped (snd (fst (generate_loop fuel coherence store currentWord
                                                  response w)))).
Proof.
  induction fuel as [| fuel IH]; intros store cur response w.
  - exists []. cbn. rewrite app_nil_r. repeat split; auto.
  - cbn [generate_loop].
    destruct (store !! cur) as [node0 |] eqn:Hcur.
    2:{ exists []. cbn. rewrite app_nil_r. repeat split; auto with arith. }
    destruct (length (next node0) =? 0)%nat eqn:Hlen.
    { exists []. cbn. rewrite app_nil_r. repeat split; auto with arith. }
    apply Nat.eqb_neq in Hlen.
    assert (next node0 <> []) as Hne by (intros E; rewrite E in Hlen; now apply Hlen).
    unfold Date_now, Math_random. cbv zeta. cbv beta iota.
    match goal with
    | |- context [selectNext ?s1 ?nd ?u] =>
        set (store1 := s1); set (node := nd); set (nextWord := selectNext store1 node u)
    end.
    match goal with
    | |- context [alter ?f nextWord store1] => set (store2 := alter f nextWord store1)
    end.
    assert (In nextWord (List.map fst (next node0))) as Hin.
    { change (next node0) with (next node). apply selectNext_in. exact Hne. }
    assert (forall k, frozen <$> (store2 !! k) = frozen <$> (store !! k)) as Hfrozen.
    { intros k. subst store2 store1 node.
      exact (frozen_turn store cur nextWord node0 _ _
                         (fun n => reconstructHologram (holographicPattern n)) k Hcur). }
    assert (strengths_capped store -> strengths_capped store2) as Hcap.
    { intros Hc. subst store2 store1 node.
      exact (capped_turn store cur nextWord node0 _ _
                         (fun n => reconstructHologram (holographicPattern n)) Hc). }
    assert (forall w', exists cont,
               fst (fst (generate_loop fuel coherence store2 nextWord
                                       (response ++ [nextWord]) w'))
               = response ++ cont
               /\ (length cont <= S fuel)%nat
               /\ walk store cur cont
               /\ (forall k, frozen <$> (snd (fst (generate_loop fuel coherence store2 nextWord
                                                     (response ++ [nextWord]) w')) !! k)
                             = frozen <$> (store !! k))
               /\ (strengths_capped store ->
                   strengths_capped (snd (fst (generate_loop fuel coherence store2 nextWord
                                                     (response ++ [nextWord]) w'))))) as Hrec.
    { intros w'. destruct (IH store2 nextWord (response ++ [nextWord]) w')
        as (cont & H1 & H2 & H3 & H4 & H5).
      exists (nextWord :: cont). repeat split.
      - rewrite H1, <- app_assoc. reflexivity.
      - cbn [length]. lia.
      - exists node0. split; [exact Hcur | exact Hin].
      - apply (walk_frozen store2 store Hfrozen). exact H3.
      - intros k. rewrite H4. apply Hfrozen.
      - intros Hc. apply H5, Hcap, Hc. }
    assert (exists cont,
               response ++ [nextWord] = response ++ cont
               /\ (length cont <= S fuel)%nat
               /\ walk store cur cont
               /\ (forall k, frozen <$> (store2 !! k) = frozen <$> (store !! k))
               /\ (strengths_capped store -> strengths_capped store2)) as Hstop.
    { exists [nextWord]. repeat split; auto.
      - cbn [length]. lia.
      - exists node0. split; [exact Hcur | exact Hin]. }
    destruct (20 <=? length (response ++ [nextWord]))%nat.
    + destruct (Rlt_dec _ 0.1); [exact Hstop | apply Hrec].
    + apply Hrec.
Qed.

End GenerationFacts.

Section GraphInvariants.
Import QuantumMemory.
Local Open Scope R_scope.
#[local] Opaque PATTERN_CELLS.

Variable JSON_stringify : Json -> string.

Lemma processText_invariant (P : gmap string WordNode -> Prop) (memory : Memory)
  (text documentId : string) (w : World) :
  (forall store w0 cur nx,
      P store -> P (fst (ingestPair (dom (nodes memory)) documentId (store, w0) (cur, nx)))) ->
  P (nodes memory) ->
  P (nodes (fst (processText JSON_stringify memory text documentId w))).
Proof.
  intros Hstep H. rewrite processText_nodes.
  apply (ingest_fold_invariant (dom (nodes memory)) documentId P Hstep). exact H.
Qed.

Lemma consolidateMemory_nodes (memory : Memory) (w : World) :
  nodes (fst (consolidateMemory JSON_stringify memory w))
  = consolidate (clock w (ticks w)) (nodes memory).
Proof. reflexivity. Qed.

Lemma frozen_view (s' s : gmap string WordNode) (k : string) (n' : WordNode) :
  (forall k, frozen <$> (s' !! k) = frozen <$> (s !! k)) ->
  s' !! k = Some n' -> exists n, s !! k = Some n /\ frozen n' = frozen n.
Proof.
  intros Hsame Hk. specialize (Hsame k). rewrite Hk in Hsame.
  destruct (s !! k) as [n |]; [| discriminate].
  exists n. split; [reflexivity |]. cbn in Hsame. now apply (inj Some) in Hsame.
Qed.

(** The whole of what the generation branch of [generateResponse] returns
    and leaves behind. *)
Lemma generateResponse_shape (memory : Memory) (input : string) (w : World) :
  exists cont,
    fst (fst (generateResponse JSON_stringify memory input w))
    = Tokenizer.join (Tokenizer.tokenize input ++ cont)
    /\ (length (Tokenizer.tokenize input ++ cont)
        <= Nat.max maxLength (length (Tokenizer.tokenize input)))%nat
    /\ walk (nodes memory) (List.last (Tokenizer.tokenize input) EmptyString) cont
    /\ (forall k, frozen <$> (nodes (snd (fst (generateResponse JSON_stringify memory input w)))
                              !! k)
                  = frozen <$> (nodes memory !! k))
    /\ (strengths_capped (nodes memory) ->
        strengths_capped (nodes (snd (fst (generateResponse JSON_stringify memory input w)))))
    /\ totalDocuments (snd (fst (generateResponse JSON_stringify memory input w)))
       = totalDocuments memory
    /\ lastConsolidation (snd (fst (generateResponse JSON_stringify memory input w)))
       = lastConsolidation memory
    /\ quantumCoherence (snd (fst (generateResponse JSON_stringify memory input w)))
       = quantumCoherence memory
    /\ documentContents (snd (fst (generateResponse JSON_stringify memory input w)))
       = documentContents memory.
Proof.
  unfold generateResponse.
  destruct (Tokenizer.tokenize input) as [| t ts] eqn:E.
  - exists []. cbn. repeat split; auto with arith.
  - set (words := t :: ts).
    destruct (generate_loop_shape (maxLength - length words) (quantumCoherence memory)
                (nodes memory) (List.last words EmptyString) words w)
      as (cont & H1 & H2 & H3 & H4 & H5).
    destruct (generate_loop (maxLength - length words) (quantumCoherence memory)
                (nodes memory) (List.last words EmptyString) words w) as [[response store] w1].
    cbn [fst snd] in *. exists cont. rewrite H1.
    repeat split; auto.
    rewrite length_app. lia.
Qed.

End GraphInvariants.

Section GraphTheorems.
Import QuantumMemory.
Local Open Scope R_scope.
#[local] Opaque PATTERN_CELLS.

(** X3.  Ingest, generation and consolidation each keep the property that
    every successor of every node is in the entangled set of the node; in a
    memory with that property the entanglement boost of the draw is 1.5 for
    every candidate of every node. *)
Theorem successors_stay_entangled (JSON_stringify : Json -> string) (memory : Memory)
  (w : World) :
  successors_entangled (nodes memory) ->
  (forall text documentId,
      successors_entangled
        (nodes (fst (processText JSON_stringify memory text documentId w))))
  /\ (forall input,
         successors_entangled
           (nodes (snd (fst (generateResponse JSON_stringify memory input w)))))
  /\ successors_entangled (nodes (fst (consolidateMemory JSON_stringify memory w)))
  /\ (forall k n e, nodes memory !! k = Some n -> In e (next n) ->
                    boost n (fst e) = entangledBoost).
Proof.
  intros Hinv. repeat split.
  - intros text documentId. apply processText_invariant; [| exact Hinv].
    intros store w0 cur nx. apply successors_entangled_ingestPair.
  - intros input k n' e Hk He.
    destruct (generateResponse_shape JSON_stringify memory input w)
      as (cont & _ & _ & _ & Hfrozen & _).
    destruct (frozen_view _ _ k n' Hfrozen Hk) as (n & Hn & Hf).
    pose proof (f_equal next Hf) as Hnx. pose proof (f_equal entangledNodes Hf) as Hen.
    cbn in Hnx, Hen. rewrite Hen. apply (Hinv k n e Hn). now rewrite <- Hnx.
  - intros k n' e Hk He. rewrite consolidateMemory_nodes in Hk.
    apply lookup_consolidate_Some in Hk. destruct Hk as (n & Hn & -> & _).
    exact (Hinv k n e Hn He).
  - intros k n e Hk He. unfold boost. now rewrite (Hinv k n e Hk He).
Qed.

(** X4.  Ingest, generation and consolidation each keep every node under its
    own word and every transition under the word of its successor. *)
Theorem nodes_stay_well_keyed (JSON_stringify : Json -> string) (memory : Memory)
  (w : World) :
  well_keyed (nodes memory) ->
  (forall text documentId,
      well_keyed (nodes (fst (processText JSON_stringify memory text documentId w))))
  /\ (forall input,
         well_keyed (nodes (snd (fst (generateResponse JSON_stringify memory input w)))))
  /\ well_keyed (nodes (fst (consolidateMemory JSON_stringify memory w))).
Proof.
  intros Hinv. split; [| split].
  - intros text documentId. apply processText_invariant; [| exact Hinv].
    intros store w0 cur nx. apply well_keyed_ingestPair.
  - intros input k n H.
    destruct (generateResponse_shape JSON_stringify memory input w)
      as (cont & _ & _ & _ & Hfrozen & _).
    destruct (frozen_view _ _ k n Hfrozen H) as (n0 & Hn & Hf).
    pose proof (f_equal word Hf) as Hw. pose proof (f_equal next Hf) as Hnx.
    cbn in Hw, Hnx. rewrite Hw, Hnx. exact (Hinv k n0 Hn).
  - intros k n H. rewrite consolidateMemory_nodes in H.
    apply lookup_consolidate_Some in H. destruct H as (n0 & Hn & -> & _).
    exact (Hinv k n0 Hn).
Qed.

(** X5.  Strengths stay at most MAX_MEMORY_STRENGTH through ingest and
    generation, and through a consolidation whose clock reading is not
    before the last access of any node. *)
Theorem strengths_stay_capped (JSON_stringify : Json -> string) (memory : Memory)
  (w : World) :
  strengths_capped (nodes memory) ->
  (forall text documentId,
      strengths_capped (nodes (fst (processText JSON_stringify memory text documentId w))))
  /\ (forall input,
         strengths_capped
           (nodes (snd (fst (generateResponse JSON_stringify memory input w)))))
  /\ ((forall k n, nodes memory !! k = Some n -> lastAccessed n <= clock w (ticks w)) ->
      strengths_capped (nodes (fst (consolidateMemory JSON_stringify memory w)))).
Proof.
  intros Hinv. split; [| split].
  - intros text documentId. apply processText_invariant; [| exact Hinv].
    intros store w0 cur nx. apply strengths_capped_ingestPair.
  - intros input.
    destruct (generateResponse_shape JSON_stringify memory input w)
      as (cont & _ & _ & _ & _ & Hcap & _). exact (Hcap Hinv).
  - intros Hclock k n' Hk. rewrite consolidateMemory_nodes in Hk.
    apply lookup_consolidate_Some in Hk. destruct Hk as (n & Hn & -> & Hkeep).
    rewrite strength_decay.
    assert (0 < decay_factor (clock w (ticks w)) n <= 1) as [Hpos Hle].
    { unfold decay_factor. split; [apply exp_pos |].
      rewrite <- exp_0. specialize (Hclock k n Hn).
      destruct (Req_dec (lastAccessed n) (clock w (ticks w))) as [-> | Hne].
      - right. f_equal. lra.
      - left. apply exp_increasing. lra. }
    specialize (Hinv k n Hn). nra.
Qed.

(** X6.  The generation branch of [generateResponse] returns the tokens of
    the prompt followed by a walk along recorded transitions that starts at
    the last token, joined by single spaces; the whole has at most 100 words
    unless the prompt alone has more. *)
Theorem generateResponse_follows_transitions (JSON_stringify : Json -> string)
  (memory : Memory) (input : string) (w : World) :
  exists continuation,
    fst (fst (generateResponse JSON_stringify memory input w))
    = Tokenizer.join (Tokenizer.tokenize input ++ continuation)
    /\ walk (nodes memory) (List.last (Tokenizer.tokenize input) EmptyString) continuation
    /\ (length (Tokenizer.tokenize input ++ continuation)
        <= Nat.max 100 (length (Tokenizer.tokenize input)))%nat.
Proof.
  destruct (generateResponse_shape JSON_stringify memory input w)
    as (cont & H1 & H2 & H3 & _).
  exists cont. repeat split; assumption.
Qed.

(** X7.  Generation writes nothing but strength, access time and quantum
    state: it adds no node and removes none, every node keeps its word,
    count, transitions, colour, documents, pattern, entangled set and
    position, and the document count, consolidation time, coherence and
    document texts of the memory stay as they were. *)
Theorem generateResponse_writes_only_state (JSON_stringify : Json -> string)
  (memory : Memory) (input : string) (w : World) :
  let memory' := snd (fst (generateResponse JSON_stringify memory input w)) in
  dom (nodes memory') = dom (nodes memory)
  /\ (forall k n', nodes memory' !! k = Some n' ->
        exists n, nodes memory !! k = Some n
                  /\ n' = set_strength (strength n')
                            (set_lastAccessed (lastAccessed n')
                               (set_quantumState (quantumState n') n)))
  /\ totalDocuments memory' = totalDocuments memory
  /\ lastConsolidation memory' = lastConsolidation memory
  /\ quantumCoherence memory' = quantumCoherence memory
  /\ documentContents memory' = documentContents memory.
Proof.
  intros memory'.
  destruct (generateResponse_shape JSON_stringify memory input w)
    as (cont & _ & _ & _ & Hfrozen & _ & H1 & H2 & H3 & H4).
  fold memory' in Hfrozen, H1, H2, H3, H4.
  repeat split; try assumption.
  - apply set_eq. intros k. rewrite !elem_of_dom. specialize (Hfrozen k).
    destruct (nodes memory' !! k), (nodes memory !! k); try discriminate;
      split; intros [x Hx]; try discriminate; eauto.
  - intros k n' Hk. destruct (frozen_view _ _ k n' Hfrozen Hk) as (n & Hn & Hf).
    exists n. split; [exact Hn |].
    destruct n', n. unfold frozen, forget_state in Hf. cbn in Hf.
    injection Hf as -> -> -> -> -> -> -> ->. reflexivity.
Qed.

End GraphTheorems.

Section GraphInstances.
Import QuantumMemory.
Local Open Scope R_scope.

Lemma two_words_lookup (a b : Complex) (k : string) (n : WordNode) :
  two_words a b !! k = Some n ->
  (k = "a"%string /\ n = sample_node "a" 1 0 a 0
                           [("b"%string, {| succ_word := "b"; succ_count := 1 |})]
                           ["b"%string])
  \/ (k = "b"%string /\ n = sample_node "b" 1 0 b 0 [] []).
Proof.
  unfold two_words. intros H. apply lookup_insert_Some in H.
  destruct H as [[<- <-] | [_ H]]; [now left |].
  apply lookup_singleton_Some in H. destruct H as [<- <-]. now right.
Qed.

Lemma two_words_entangled (a b : Complex) : successors_entangled (two_words a b).
Proof.
  intros k n e Hk He. apply two_words_lookup in Hk.
  destruct Hk as [[-> ->] | [-> ->]]; cbn in He.
  - destruct He as [<- | []]. reflexivity.
  - destruct He.
Qed.

Lemma two_words_well_keyed (a b : Complex) : well_keyed (two_words a b).
Proof.
  intros k n Hk. apply two_words_lookup in Hk.
  destruct Hk as [[-> ->] | [-> ->]]; (split; [reflexivity |]); intros e He; cbn in He.
  - destruct He as [<- | []]. reflexivity.
  - destruct He.
Qed.

Lemma two_words_capped (a b : Complex) : strengths_capped (two_words a b).
Proof.
  intros k n Hk. apply two_words_lookup in Hk.
  destruct Hk as [[-> ->] | [-> ->]]; cbn; unfold MAX_MEMORY_STRENGTH; lra.
Qed.

(** X3 at the memory of the two words "a" and "b". *)
Lemma successors_stay_entangled_witness :
  let memory := memory_of (two_words {| re := 1; im := 0 |} {| re := 1; im := 0 |}) in
  let w := sample_world (fun _ => 0) (fun _ => 0) in
  successors_entangled (nodes memory)
  /\ (forall text documentId,
         successors_entangled (nodes (fst (processText silent memory text documentId w))))
  /\ (forall input,
         successors_entangled (nodes (snd (fst (generateResponse silent memory input w)))))
  /\ successors_entangled (nodes (fst (consolidateMemory silent memory w)))
  /\ (forall k n e, nodes memory !! k = Some n -> In e (next n) ->
                    boost n (fst e) = entangledBoost).
Proof.
  split; [apply two_words_entangled |].
  apply (successors_stay_entangled silent
           (memory_of (two_words {| re := 1; im := 0 |} {| re := 1; im := 0 |}))
           (sample_world (fun _ => 0) (fun _ => 0))).
  apply two_words_entangled.
Defined.

(** X4 at the memory of the two words "a" and "b". *)
Lemma nodes_stay_well_keyed_witness :
  let memory := memory_of (two_words {| re := 1; im := 0 |} {| re := 1; im := 0 |}) in
  let w := sample_world (fun _ => 0) (fun _ => 0) in
  well_keyed (nodes memory)
  /\ (forall text documentId,
         well_keyed (nodes (fst (processText silent memory text documentId w))))
  /\ (forall input,
         well_keyed (nodes (snd (fst (generateResponse silent memory input w)))))
  /\ well_keyed (nodes (fst (consolidateMemory silent memory w))).
Proof.
  split; [apply two_words_well_keyed |].
  apply (nodes_stay_well_keyed silent
           (memory_of (two_words {| re := 1; im := 0 |} {| re := 1; im := 0 |}))
           (sample_world (fun _ => 0) (fun _ => 0))).
  apply two_words_well_keyed.
Defined.

(** X5 at the memory of the two words "a" and "b", both last accessed at
    time 0, the clock reading 0. *)
Lemma strengths_stay_capped_witness :
  let memory := memory_of (two_words {| re := 1; im := 0 |} {| re := 1; im := 0 |}) in
  let w := sample_world (fun _ => 0) (fun _ => 0) in
  strengths_capped (nodes memory)
  /\ (forall text documentId,
         strengths_capped (nodes (fst (processText silent memory text documentId w))))
  /\ (forall input,
         strengths_capped (nodes (snd (fst (generateResponse silent memory input w)))))
  /\ strengths_capped (nodes (fst (consolidateMemory silent memory w))).
Proof.
  split; [apply two_words_capped |].
  destruct (strengths_stay_capped silent
              (memory_of (two_words {| re := 1; im := 0 |} {| re := 1; im := 0 |}))
              (sample_world (fun _ => 0) (fun _ => 0))
              (two_words_capped _ _)) as (H1 & H2 & H3).
  split; [exact H1 | split; [exact H2 |]].
  apply H3. intros k n Hk. apply two_words_lookup in Hk.
  destruct Hk as [[-> ->] | [-> ->]]; cbn; lra.
Defined.

End GraphInstances.

Section StatsFacts.
Import QuantumMemory Panel.
Local Open Scope R_scope.
#[local] Existing Instance Panel.Rle_decision.

Lemma active_after_consolidate (now : R) (store : gmap string WordNode) :
  filter (fun kv => 0.1 <= strength (snd kv)) (consolidate now store)
  = consolidate now store.
Proof.
  apply map_filter_id. intros k n H. unfold consolidate in H.
  apply map_lookup_filter_Some in H. destruct H as [_ Hkeep]. cbn [snd] in *.
  apply Rnot_lt_le. exact Hkeep.
Qed.

Lemma size_consolidate (now : R) (store : gmap string WordNode) :
  (size (consolidate now store) <= size store)%nat.
Proof.
  unfold consolidate.
  rewrite <- (map_size_fmap (decay now) store).
  apply map_subseteq_size, map_filter_subseteq.
Qed.

Lemma fidelity_sum_bounds (b : R) (store : gmap string WordNode) :
  amplitudes_within b store ->
  0 <= map_fold (fun (_ : string) node totalFidelity =>
                   totalFidelity + Cabs (amplitude (quantumState node))) 0 store
    <= b * INR (size store).
Proof.
  induction store as [| k n m Hk IH] using map_ind; intros Hb.
  - rewrite map_fold_empty, map_size_empty. cbn. lra.
  - rewrite map_fold_insert_L; [| intros; lra | exact Hk].
    rewrite map_size_insert_None by exact Hk. rewrite S_INR.
    assert (amplitudes_within b m) as Hm.
    { intros j x Hj. apply (Hb j x). rewrite lookup_insert_ne; [exact Hj |].
      intros ->. congruence. }
    specialize (IH Hm).
    pose proof (Hb k n (lookup_insert_eq m k n)) as Hn.
    pose proof (Cabs_nonneg (amplitude (quantumState n))). lra.
Qed.

End StatsFacts.

Section StatsTheorems.
Import QuantumMemory Panel.
Local Open Scope R_scope.

(** X8.  The statistics [consolidateMemory] publishes count every word that
    is left as an active memory, and no more words than there were. *)
Theorem stats_after_consolidation (JSON_stringify : Json -> string) (memory : Memory)
  (w : World) :
  let stats := updateStats (nodes (fst (consolidateMemory JSON_stringify memory w))) in
  activeMemories stats = totalWords stats
  /\ (totalWords stats <= totalWords (updateStats (nodes memory)))%nat.
Proof.
  cbv zeta. rewrite consolidateMemory_nodes. unfold updateStats.
  cbn [activeMemories totalWords]. split.
  - now rewrite active_after_consolidate.
  - apply size_consolidate.
Qed.

(** X9.  The quantum fidelity of a memory with at least one word lies
    between 0 and any bound that holds for the magnitude of every
    amplitude. *)
Theorem fidelity_within_bound (b : R) (store : gmap string WordNode) :
  store <> ∅ -> amplitudes_within b store ->
  0 <= calculateQuantumFidelity store <= b.
Proof.
  intros Hne Hb. unfold calculateQuantumFidelity.
  pose proof (fidelity_sum_bounds b store Hb) as [H0 H1].
  assert (0 < INR (size store)) as Hsize.
  { apply lt_0_INR. apply map_size_non_empty_iff in Hne. lia. }
  split.
  - apply Rmult_le_pos; [exact H0 |]. left. now apply Rinv_0_lt_compat.
  - apply Rmult_le_reg_r with (r := INR (size store)); [exact Hsize |].
    unfold Rdiv. rewrite Rmult_assoc, Rinv_l by lra. lra.
Qed.

(** X9 at the memory of one word of amplitude 1. *)
Lemma fidelity_within_bound_witness :
  one_word <> ∅ /\ amplitudes_within 1 one_word
  /\ 0 <= calculateQuantumFidelity one_word <= 1.
Proof.
  assert (one_word <> ∅) as Hne.
  { unfold one_word. apply insert_non_empty. }
  split; [exact Hne |]. split; [exact one_word_within |].
  exact (fidelity_within_bound 1 one_word Hne one_word_within).
Defined.

End StatsTheorems.

Section StorageFrame.
Import QuantumMemory.
#[local] Opaque CHUNK_SIZE.

Lemma write_from_foreign (key : string) (l : list string) :
  (forall j, (j < MAX_CHUNKS)%nat -> key <> chunk_key j) ->
  forall (off : nat) (ls : gmap string string),
    fold_left write_step (combine (seq off (length l)) l) ls !! key = ls !! key.
Proof.
  intros Hkey. induction l as [| c l IH]; intros off ls; [reflexivity |].
  cbn [length seq combine fold_left]. rewrite IH.
  unfold write_step. cbn [fst snd].
  destruct (Nat.ltb_spec off MAX_CHUNKS) as [Hlt |]; [| reflexivity].
  apply lookup_insert_ne. intros E. exact (Hkey off Hlt (eq_sym E)).
Qed.

Lemma delete_keys_foreign (key : string) (idxs : list nat) :
  (forall i, In i idxs -> key <> chunk_key i) ->
  forall ls : gmap string string,
    fold_left (fun st i => delete (chunk_key i) st) idxs ls !! key = ls !! key.
Proof.
  induction idxs as [| i idxs IH]; intros Hkey ls; [reflexivity |].
  cbn [fold_left]. rewrite IH by (intros j Hj; apply Hkey; now right).
  apply lookup_delete_ne. intros E. exact (Hkey i (or_introl eq_refl) (eq_sym E)).
Qed.

Lemma lookup_saved_foreign (key : string) (l : list string) (ls : gmap string string) :
  (forall j, (j < MAX_CHUNKS)%nat -> key <> chunk_key j) ->
  without_excess (length l) (stored l ls) !! key = ls !! key.
Proof.
  intros Hkey. unfold without_excess.
  rewrite delete_keys_foreign.
  - unfold stored. now apply write_from_foreign.
  - intros i Hi. apply in_seq in Hi. apply Hkey. lia.
Qed.

Lemma chunk_key_or_foreign (key : string) :
  (exists j, (j < MAX_CHUNKS)%nat /\ key = chunk_key j)
  \/ (forall j, (j < MAX_CHUNKS)%nat -> key <> chunk_key j).
Proof.
  destruct (decide (Exists (fun j => key = chunk_key j) (seq 0 MAX_CHUNKS))) as [H | H].
  - left. apply List.Exists_exists in H. destruct H as (j & Hj & E).
    apply in_seq in Hj. exists j. split; [lia | exact E].
  - right. intros j Hj E. apply H. apply List.Exists_exists. exists j.
    split; [apply in_seq; lia | exact E].
Qed.

Lemma read_chunks_gap (ls ls' : gmap string string) (gap : nat) :
  ls !! chunk_key gap = None -> ls' !! chunk_key gap = None ->
  (forall j, (j < gap)%nat -> ls !! chunk_key j = ls' !! chunk_key j) ->
  forall fuel i, (i <= gap)%nat -> read_chunks ls i fuel = read_chunks ls' i fuel.
Proof.
  intros Hg Hg' Hsame. induction fuel as [| fuel IH]; intros i Hi; [reflexivity |].
  cbn [read_chunks]. unfold loadMemoryChunk.
  destruct (decide (i = gap)) as [-> | Hne].
  - now rewrite Hg, Hg'.
  - rewrite <- (Hsame i) by lia.
    destruct (ls !! chunk_key i) as [chunk |]; [| reflexivity].
    destruct (JsString.is_empty chunk); [reflexivity |].
    rewrite (IH (S i)) by lia. reflexivity.
Qed.

Lemma never_full_set_localStorage (ls : gmap string string) (w : World) :
  never_full w -> never_full (set_localStorage ls w).
Proof. intros H ls0 k v. apply H. Qed.

End StorageFrame.

Section StorageTheorems.
Import QuantumMemory.
#[local] Opaque CHUNK_SIZE.


(** X11.  When the storage refuses no write, a save overwrites the one
    before it completely: saving a memory after any other save leaves the
    world that saving it directly leaves, so no chunk of an earlier, longer
    save survives. *)
Theorem saveMemory_overwrites (JSON_stringify : Json -> string) (memory earlier : Memory)
  (w : World) :
  never_full w ->
  saveMemory JSON_stringify memory (saveMemory JSON_stringify earlier w)
  = saveMemory JSON_stringify memory w.
Proof.
  intros Hfull.
  rewrite (saveMemory_never_full JSON_stringify earlier w Hfull).
  rewrite !saveMemory_never_full
    by (try apply never_full_set_localStorage; exact Hfull).
  rewrite set_localStorage_twice. cbn [localStorage set_localStorage].
  unfold set_localStorage. f_equal.
  apply map_eq. intros key.
  destruct (chunk_key_or_foreign key) as [(j & Hj & ->) | Hkey].
  - now rewrite !lookup_saved.
  - now rewrite !lookup_saved_foreign.
Qed.

End StorageTheorems.

Section LoadTheorems.
Import QuantumMemory.
#[local] Opaque CHUNK_SIZE.

(** X12.  With no first chunk in the storage, or an empty one, [loadMemory]
    changes nothing: the memory and the world are the ones it was called
    with, whatever the other chunk keys hold. *)
Theorem loadMemory_nothing_stored (JSON_parse : string -> option Json) (memory : Memory)
  (w : World) :
  loadMemoryChunk 0 (localStorage w) = None
  \/ loadMemoryChunk 0 (localStorage w) = Some EmptyString ->
  loadMemory JSON_parse memory w = (memory, w).
Proof.
  intros H. unfold loadMemory. change MAX_CHUNKS with 10%nat. cbn [read_chunks].
  destruct H as [-> | ->]; reflexivity.
Qed.

(** X13.  [loadMemory] reads the chunks up to the first missing one and
    nothing behind it: two storages with the same gap and the same chunks
    before the gap load the same memory. *)
Theorem loadMemory_stops_at_gap (JSON_parse : string -> option Json) (memory : Memory)
  (w : World) (other : gmap string string) (gap : nat) :
  localStorage w !! chunk_key gap = None ->
  other !! chunk_key gap = None ->
  (forall j, (j < gap)%nat -> localStorage w !! chunk_key j = other !! chunk_key j) ->
  fst (loadMemory JSON_parse memory (set_localStorage other w))
  = fst (loadMemory JSON_parse memory w).
Proof.
  intros Hg Hg' Hsame. unfold loadMemory. cbn [localStorage set_localStorage].
  rewrite (read_chunks_gap (localStorage w) other gap Hg Hg' Hsame MAX_CHUNKS 0) by lia.
  destruct (JsString.is_empty (read_chunks other 0 MAX_CHUNKS)); [reflexivity |].
  destruct (JSON_parse (read_chunks other 0 MAX_CHUNKS) ≫= revive); reflexivity.
Qed.

End LoadTheorems.

Section StorageInstances.
Import QuantumMemory.
#[local] Opaque CHUNK_SIZE.

Lemma chunk_key_0 : chunk_key 0 = "quantum_holographic_network_0"%string.
Proof. reflexivity. Qed.

Lemma chunk_key_1 : chunk_key 1 = "quantum_holographic_network_1"%string.
Proof. reflexivity. Qed.

Lemma chunk_key_2 : chunk_key 2 = "quantum_holographic_network_2"%string.
Proof. reflexivity. Qed.


Lemma sample_world_never_full (rnd clk : nat -> R) : never_full (sample_world rnd clk).
Proof. intros ls k v. reflexivity. Qed.


(** X11 at a world whose storage refuses no write. *)
Lemma saveMemory_overwrites_witness :
  let w := sample_world (fun _ => 0%R) (fun _ => 0%R) in
  never_full w
  /\ saveMemory silent empty_memory (saveMemory silent (memory_of one_word) w)
     = saveMemory silent empty_memory w.
Proof.
  split; [apply sample_world_never_full |].
  exact (saveMemory_overwrites silent empty_memory (memory_of one_word)
           (sample_world (fun _ => 0%R) (fun _ => 0%R))
           (sample_world_never_full _ _)).
Defined.

(** X12 at a storage that holds a second chunk and no first one. *)
Lemma loadMemory_nothing_stored_witness :
  let w := set_localStorage {[ "quantum_holographic_network_1"%string := "{}"%string ]}
                            (sample_world (fun _ => 0%R) (fun _ => 0%R)) in
  (loadMemoryChunk 0 (localStorage w) = None
   \/ loadMemoryChunk 0 (localStorage w) = Some EmptyString)
  /\ loadMemory (fun _ => Some (serializable (memory_of one_word))) empty_memory w
     = (empty_memory, w).
Proof.
  assert (loadMemoryChunk 0
            (localStorage
               (set_localStorage {[ "quantum_holographic_network_1"%string := "{}"%string ]}
                                 (sample_world (fun _ => 0%R) (fun _ => 0%R))))
          = None) as H.
  { unfold loadMemoryChunk. cbn [localStorage set_localStorage].
    apply lookup_singleton_None. rewrite chunk_key_0. discriminate. }
  split; [left; exact H |].
  exact (loadMemory_nothing_stored (fun _ => Some (serializable (memory_of one_word)))
           empty_memory _ (or_introl H)).
Defined.

(** X13 at two storages with the same first chunk and no second one, one of
    which holds a third chunk. *)
Lemma loadMemory_stops_at_gap_witness :
  let w := set_localStorage {[ "quantum_holographic_network_0"%string := "{}"%string ]}
                            (sample_world (fun _ => 0%R) (fun _ => 0%R)) in
  let other : gmap string string :=
    <[ "quantum_holographic_network_2"%string := "]"%string ]>
      {[ "quantum_holographic_network_0"%string := "{}"%string ]} in
  localStorage w !! chunk_key 1 = None
  /\ other !! chunk_key 1 = None
  /\ (forall j, (j < 1)%nat -> localStorage w !! chunk_key j = other !! chunk_key j)
  /\ fst (loadMemory (fun _ => None) empty_memory (set_localStorage other w))
     = fst (loadMemory (fun _ => None) empty_memory w).
Proof.
  cbv zeta.
  assert (localStorage
            (set_localStorage {[ "quantum_holographic_network_0"%string := "{}"%string ]}
                              (sample_world (fun _ => 0%R) (fun _ => 0%R)))
          !! chunk_key 1 = None) as H1.
  { cbn [localStorage set_localStorage]. apply lookup_singleton_None.
    rewrite chunk_key_1. discriminate. }
  assert ((<[ "quantum_holographic_network_2"%string := "]"%string ]>
             {[ "quantum_holographic_network_0"%string := "{}"%string ]}
           : gmap string string) !! chunk_key 1 = None) as H2.
  { rewrite lookup_insert_ne by (rewrite chunk_key_1; discriminate).
    apply lookup_singleton_None. rewrite chunk_key_1. discriminate. }
  assert (forall j, (j < 1)%nat ->
            localStorage
              (set_localStorage {[ "quantum_holographic_network_0"%string := "{}"%string ]}
                                (sample_world (fun _ => 0%R) (fun _ => 0%R)))
            !! chunk_key j
            = (<[ "quantum_holographic_network_2"%string := "]"%string ]>
                 {[ "quantum_holographic_network_0"%string := "{}"%string ]}
               : gmap string string) !! chunk_key j) as H3.
  { intros j Hj. assert (j = 0)%nat as -> by lia.
    cbn [localStorage set_localStorage].
    rewrite lookup_insert_ne by (rewrite chunk_key_0; discriminate). reflexivity. }
  split; [exact H1 | split; [exact H2 | split; [exact H3 |]]].
  exact (loadMemory_stops_at_gap (fun _ => None) empty_memory _ _ 1 H1 H2 H3).
Defined.

End StorageInstances.

Section ContextFacts.
Import QuantumMemory Panel.

Lemma in_unique_from (l acc : list string) (x : string) :
  In x (fold_left (fun s d => JsSet.add d s) l acc) <-> In x acc \/ In x l.
Proof.
  revert acc. induction l as [| d l IH]; intros acc; cbn [fold_left In]; [tauto |].
  rewrite IH, in_add. split; [intros [[-> | H] | H] | intros [H | [-> | H]]]; auto.
Qed.

Lemma in_unique (l : list string) (x : string) : In x (unique l) <-> In x l.
Proof. unfold unique. rewrite in_unique_from. cbn [In]. tauto. Qed.

Lemma NoDup_unique_from (l acc : list string) :
  List.NoDup acc -> List.NoDup (fold_left (fun s d => JsSet.add d s) l acc).
Proof.
  revert acc. induction l as [| d l IH]; intros acc H; cbn [fold_left]; [exact H |].
  apply IH, NoDup_add, H.
Qed.

Lemma NoDup_firstn (n : nat) (l : list string) : List.NoDup l -> List.NoDup (firstn n l).
Proof.
  intros H. rewrite <- (firstn_skipn n l) in H. now apply List.NoDup_app_remove_r in H.
Qed.

Lemma in_firstn (n : nat) (l : list string) (x : string) : In x (firstn n l) -> In x l.
Proof.
  intros H. rewrite <- (firstn_skipn n l). apply in_or_app. now left.
Qed.

End ContextFacts.

Section ContextTheorems.
Import QuantumMemory Panel.

(** X14.  The documents [getRelevantContext] describes are at most five,
    each listed once, and each is a document of the node of some token of
    the prompt; when fewer than five are listed, every document of every
    such node is among them. *)
Theorem relevantDocuments_spec (memory : Memory) (input : string) :
  List.NoDup (relevantDocuments memory input)
  /\ (length (relevantDocuments memory input) <= 5)%nat
  /\ (forall d, In d (relevantDocuments memory input) ->
        exists word node, In word (Tokenizer.tokenize input)
                          /\ nodes memory !! word = Some node /\ In d (documents node))
  /\ ((length (relevantDocuments memory input) < 5)%nat ->
      forall word node d,
        In word (Tokenizer.tokenize input) -> nodes memory !! word = Some node ->
        In d (documents node) -> In d (relevantDocuments memory input)).
Proof.
  unfold relevantDocuments.
  set (collected := flat_map _ (Tokenizer.tokenize input)).
  assert (forall d, In d collected <->
            exists word node, In word (Tokenizer.tokenize input)
                              /\ nodes memory !! word = Some node /\ In d (documents node))
    as Hcollected.
  { intros d. unfold collected. rewrite in_flat_map. split.
    - intros (word & Hw & Hd). destruct (nodes memory !! word) as [node |] eqn:E; [| destruct Hd].
      exists word, node. auto.
    - intros (word & node & Hw & Hn & Hd). exists word. rewrite Hn. auto. }
  split; [| split; [| split]].
  - apply NoDup_firstn, NoDup_unique_from. constructor.
  - apply firstn_le_length.
  - intros d Hd. apply Hcollected, in_unique, (in_firstn 5), Hd.
  - intros Hlen word node d Hw Hn Hd.
    rewrite length_firstn in Hlen.
    rewrite firstn_all2 by lia.
    apply in_unique, Hcollected. eauto.
Qed.

(** X15.  For a prompt none of whose tokens has a node the context is the
    empty string. *)
Theorem getRelevantContext_unknown (memory : Memory) (input : string) :
  (forall word, In word (Tokenizer.tokenize input) -> nodes memory !! word = None) ->
  getRelevantContext memory input = EmptyString.
Proof.
  intros H. unfold getRelevantContext, relevantDocuments.
  assert (flat_map (fun word => match nodes memory !! word with
                                | Some node => documents node
                                | None => []
                                end) (Tokenizer.tokenize input) = []) as ->.
  { induction (Tokenizer.tokenize input) as [| t ts IH]; [reflexivity |].
    cbn [flat_map]. rewrite (H t) by now left.
    apply IH. intros word Hw. apply H. now right. }
  reflexivity.
Qed.

(** X15 at the prompt "hello there" and the memory of the one word "a". *)
Lemma getRelevantContext_unknown_witness :
  (forall word, In word (Tokenizer.tokenize "hello there") ->
                nodes (memory_of one_word) !! word = None)
  /\ getRelevantContext (memory_of one_word) "hello there" = EmptyString.
Proof.
  assert (forall word, In word (Tokenizer.tokenize "hello there") ->
                       nodes (memory_of one_word) !! word = None) as H.
  { intros word Hw. vm_compute in Hw.
    destruct Hw as [<- | [<- | []]]; apply lookup_singleton_None; discriminate. }
  split; [exact H | exact (getRelevantContext_unknown _ _ H)].
Defined.

End ContextTheorems.

Section TokenFacts.

Lemma app_empty_r (s : string) : s +:+ EmptyString = s.
Proof.
  induction s as [| c s IH]; [reflexivity |].
  change (String c (s +:+ EmptyString) = String c s). now rewrite IH.
Qed.

Lemma app_assoc_string (a b c : string) : (a +:+ b) +:+ c = a +:+ (b +:+ c).
Proof.
  induction a as [| x a IH]; [reflexivity |].
  change (String x ((a +:+ b) +:+ c) = String x (a +:+ (b +:+ c))). now rewrite IH.
Qed.

Lemma all_chars_app (p : ascii -> bool) (a b : string) :
  all_chars p (a +:+ b) = all_chars p a && all_chars p b.
Proof.
  induction a as [| c a IH]; [reflexivity |].
  change (p c && all_chars p (a +:+ b) = p c && all_chars p a && all_chars p b).
  rewrite IH. now destruct (p c).
Qed.

Lemma lower_char_not_upper (c : ascii) : Tokenizer.is_upper (Tokenizer.lower_char c) = false.
Proof. destruct c as [[] [] [] [] [] [] [] []]; reflexivity. Qed.

Lemma toLowerCase_not_upper (s : string) :
  all_chars (fun c => negb (Tokenizer.is_upper c)) (Tokenizer.toLowerCase s) = true.
Proof.
  induction s as [| c s IH]; cbn; [reflexivity |].
  now rewrite lower_char_not_upper, IH.
Qed.

Lemma toLowerCase_fixed (s : string) :
  all_chars (fun c => negb (Tokenizer.is_upper c)) s = true -> Tokenizer.toLowerCase s = s.
Proof.
  induction s as [| c s IH]; cbn; [reflexivity |].
  intros H. apply andb_prop in H. destruct H as [Hc Hs].
  unfold Tokenizer.lower_char. apply negb_true_iff in Hc. rewrite Hc, (IH Hs). reflexivity.
Qed.

Lemma flush_tokens (cur : string) (acc : list string) :
  all_chars lower_word_char cur = true ->
  Forall (fun t => is_token t = true) acc ->
  Forall (fun t => is_token t = true) (Tokenizer.flush cur acc).
Proof.
  intros Hcur Hacc. destruct cur as [| c cur]; [exact Hacc |].
  unfold Tokenizer.flush. apply Forall_app. split; [exact Hacc |].
  constructor; [| constructor]. unfold is_token. now rewrite Hcur.
Qed.

Lemma match_words_tokens (s : string) :
  all_chars (fun c => negb (Tokenizer.is_upper c)) s = true ->
  forall (cur : string) (acc : list string),
    all_chars lower_word_char cur = true ->
    Forall (fun t => is_token t = true) acc ->
    Forall (fun t => is_token t = true) (Tokenizer.match_words s cur acc).
Proof.
  induction s as [| c s IH]; intros Hs cur acc Hcur Hacc; cbn [Tokenizer.match_words].
  - now apply flush_tokens.
  - cbn [all_chars] in Hs. apply andb_prop in Hs. destruct Hs as [Hc Hs].
    destruct (Tokenizer.is_word_char c) eqn:Ew.
    + apply IH; [exact Hs | | exact Hacc].
      rewrite all_chars_app, Hcur. cbn. unfold lower_word_char. now rewrite Ew, Hc.
    + apply IH; [exact Hs | reflexivity | now apply flush_tokens].
Qed.

Lemma match_words_run (t rest cur : string) (acc : list string) :
  all_chars Tokenizer.is_word_char t = true ->
  Tokenizer.match_words (t +:+ rest) cur acc = Tokenizer.match_words rest (cur +:+ t) acc.
Proof.
  revert cur. induction t as [| c t IH]; intros cur H.
  - now rewrite app_empty_r.
  - cbn [all_chars] in H. apply andb_prop in H. destruct H as [Hc Ht].
    change (String c t +:+ rest) with (String c (t +:+ rest)).
    cbn [Tokenizer.match_words]. rewrite Hc, (IH _ Ht), app_assoc_string. reflexivity.
Qed.

Lemma token_word_chars (t : string) :
  is_token t = true ->
  all_chars Tokenizer.is_word_char t = true
  /\ all_chars (fun c => negb (Tokenizer.is_upper c)) t = true
  /\ t <> EmptyString.
Proof.
  unfold is_token. intros H. apply andb_prop in H. destruct H as [Hne H].
  repeat split.
  - clear Hne. induction t as [| c t IH]; [reflexivity |].
    cbn [all_chars] in *. apply andb_prop in H. destruct H as [Hc Ht].
    unfold lower_word_char in Hc. apply andb_prop in Hc. destruct Hc as [Hw _].
    now rewrite Hw, (IH Ht).
  - clear Hne. induction t as [| c t IH]; [reflexivity |].
    cbn [all_chars] in *. apply andb_prop in H. destruct H as [Hc Ht].
    unfold lower_word_char in Hc. apply andb_prop in Hc. destruct Hc as [_ Hu].
    now rewrite Hu, (IH Ht).
  - intros ->. discriminate.
Qed.

Lemma join_not_upper (ws : list string) :
  Forall (fun t => is_token t = true) ws ->
  all_chars (fun c => negb (Tokenizer.is_upper c)) (Tokenizer.join ws) = true.
Proof.
  induction ws as [| t ws IH]; intros H; [reflexivity |].
  apply Forall_cons in H. destruct H as [Ht Hws].
  destruct (token_word_chars t Ht) as (_ & Hu & _).
  destruct ws as [| t2 ws]; [exact Hu |].
  change (Tokenizer.join (t :: t2 :: ws)) with (t +:+ " " +:+ Tokenizer.join (t2 :: ws)).
  rewrite !all_chars_app, Hu, (IH Hws). reflexivity.
Qed.

Lemma match_words_join (ws : list string) :
  Forall (fun t => is_token t = true) ws ->
  forall acc, Tokenizer.match_words (Tokenizer.join ws) EmptyString acc = acc ++ ws.
Proof.
  induction ws as [| t ws IH]; intros H acc.
  - cbn. now rewrite app_nil_r.
  - apply Forall_cons in H. destruct H as [Ht Hws].
    destruct (token_word_chars t Ht) as (Hw & _ & Hne).
    destruct ws as [| t2 ws].
    + cbn [Tokenizer.join]. rewrite <- (app_empty_r t) at 1.
      rewrite match_words_run by exact Hw. cbn [Tokenizer.match_words String.append].
      destruct t; [congruence | reflexivity].
    + change (Tokenizer.join (t :: t2 :: ws))
        with (t +:+ String " "%char (Tokenizer.join (t2 :: ws))).
      rewrite match_words_run by exact Hw. cbn [Tokenizer.match_words String.append].
      change (Tokenizer.is_word_char " ") with false. cbv iota.
      rewrite (IH Hws). destruct t; [congruence |].
      change (EmptyString +:+ String a t) with (String a t).
      cbn [Tokenizer.flush]. rewrite <- app_assoc. reflexivity.
Qed.

End TokenFacts.

Section TokenTheorems.

(** X16.  Every token is a non-empty string of digits, underscores and
    lower-case letters. *)
Theorem tokenize_tokens (text : string) :
  Forall (fun t => is_token t = true) (Tokenizer.tokenize text).
Proof.
  unfold Tokenizer.tokenize. apply match_words_tokens.
  - apply toLowerCase_not_upper.
  - reflexivity.
  - constructor.
Qed.

(** X17.  Joining tokens by single spaces and tokenizing the result gives
    the tokens back. *)
Theorem tokenize_join (ws : list string) :
  Forall (fun t => is_token t = true) ws ->
  Tokenizer.tokenize (Tokenizer.join ws) = ws.
Proof.
  intros H. unfold Tokenizer.tokenize.
  rewrite toLowerCase_fixed by now apply join_not_upper.
  now rewrite match_words_join.
Qed.

(** X17 at the tokens "hello" and "there". *)
Lemma tokenize_join_witness :
  Forall (fun t => is_token t = true) ["hello"%string; "there"%string]
  /\ Tokenizer.tokenize (Tokenizer.join ["hello"%string; "there"%string])
     = ["hello"%string; "there"%string].
Proof.
  assert (Forall (fun t => is_token t = true) ["hello"%string; "there"%string]) as H.
  { repeat constructor. }
  split; [exact H | exact (tokenize_join _ H)].
Defined.

(** X18.  Tokenizing is idempotent up to joining: the tokens of the joined
    tokens of a text are the tokens of the text. *)
Theorem tokenize_join_tokenize (text : string) :
  Tokenizer.tokenize (Tokenizer.join (Tokenizer.tokenize text)) = Tokenizer.tokenize text.
Proof.
  rewrite <- (app_nil_l (Tokenizer.tokenize text)) at 2.
  unfold Tokenizer.tokenize at 1.
  assert (Forall (fun t => is_token t = true)
                 (Tokenizer.match_words (Tokenizer.toLowerCase text) EmptyString [])) as H.
  { apply match_words_tokens; [apply toLowerCase_not_upper | reflexivity | constructor]. }
  rewrite toLowerCase_fixed by (apply join_not_upper, H).
  apply match_words_join, H.
Qed.

End TokenTheorems.

Section TableCounts.
Import DocumentProcessor.

(** The entry [addWordTransition] writes: the old entry of the word, or a
    fresh one, with one more occurrence and one more transition. *)
Lemma addWordTransition_words (st : State) (a b : string) :
  exists wd0,
    (words st !! a = Some wd0
     \/ (words st !! a = None /\ frequency wd0 = O /\ totalTransitions wd0 = O
         /\ nextWords wd0 = [] /\ word wd0 = a))
    /\ words (addWordTransition st a b)
       = <[a := {| word := word wd0;
                   frequency := S (frequency wd0);
                   hue := hue wd0;
                   saturation := saturation wd0;
                   nextWords :=
                     JsMap.set b (S (match JsMap.get b (nextWords wd0) with
                                     | Some c => c
                                     | None => O
                                     end)) (nextWords wd0);
                   totalTransitions := S (totalTransitions wd0) |}]> (words st).
Proof.
  unfold addWordTransition. destruct (words st !! a) as [wa |] eqn:Ea.
  - exists wa. split; [now left |]. rewrite Ea. reflexivity.
  - cbn [words]. rewrite lookup_insert_eq.
    exists {| word := a; frequency := 0;
              hue := random st (draws st);
              saturation := ((5 # 10) + random st (S (draws st)) * (5 # 10))%Q;
              nextWords := []; totalTransitions := 0 |}.
    split.
    + right. repeat split.
    + cbn [words]. rewrite insert_insert_eq. reflexivity.
Qed.

Lemma frequency_of_add (st : State) (a b k : string) :
  frequency_of (addWordTransition st a b) k
  = (frequency_of st k + if decide (a = k) then 1 else 0)%nat
  /\ total_of (addWordTransition st a b) k
     = (total_of st k + if decide (a = k) then 1 else 0)%nat.
Proof.
  unfold frequency_of, total_of.
  destruct (addWordTransition_words st a b) as (wd0 & Hold & ->).
  rewrite lookup_insert. destruct (decide (a = k)) as [<- | Hne]; [| split; lia].
  destruct Hold as [-> | (-> & Hf & Ht & _)]; cbn; split; lia.
Qed.

Lemma transition_count_add (st : State) (a b x y : string) :
  transition_count (addWordTransition st a b) x y
  = (transition_count st x y + if pair_eq_dec (a, b) (x, y) then 1 else 0)%nat.
Proof.
  unfold transition_count.
  destruct (addWordTransition_words st a b) as (wd0 & Hold & ->).
  rewrite lookup_insert. destruct (decide (a = x)) as [<- | Hne].
  - cbn [nextWords].
    assert (match words st !! a with
            | Some wd => match JsMap.get y (nextWords wd) with Some c => c | None => O end
            | None => O
            end
            = match JsMap.get y (nextWords wd0) with Some c => c | None => O end) as ->.
    { destruct Hold as [-> | (-> & _ & _ & -> & _)]; reflexivity. }
    destruct (decide (b = y)) as [<- | Hb].
    + rewrite get_set_same.
      destruct (pair_eq_dec (a, b) (a, b)); [lia | congruence].
    + rewrite get_set_other by congruence.
      destruct (pair_eq_dec (a, b) (a, y)); [congruence | lia].
  - destruct (pair_eq_dec (a, b) (x, y)); [congruence | lia].
Qed.

Lemma counts_fold (ps : list (string * string)) (st : State) :
  (forall k,
      frequency_of (fold_left (fun s p => addWordTransition s (fst p) (snd p)) ps st) k
      = (frequency_of st k + count_occ string_dec (List.map fst ps) k)%nat
      /\ total_of (fold_left (fun s p => addWordTransition s (fst p) (snd p)) ps st) k
         = (total_of st k + count_occ string_dec (List.map fst ps) k)%nat)
  /\ (forall x y,
         transition_count (fold_left (fun s p => addWordTransition s (fst p) (snd p)) ps st)
                          x y
         = (transition_count st x y + count_occ pair_eq_dec ps (x, y))%nat).
Proof.
  revert st. induction ps as [| [a b] ps IH]; intros st.
  - cbn. split; [intros k; split; lia | intros x y; lia].
  - cbn [fold_left fst snd]. destruct (IH (addWordTransition st a b)) as [IH1 IH2].
    split.
    + intros k. destruct (IH1 k) as [-> ->].
      destruct (frequency_of_add st a b k) as [-> ->].
      cbn [List.map fst count_occ].
      destruct (decide (a = k)), (string_dec a k); try congruence; split; lia.
    + intros x y. rewrite IH2, transition_count_add. cbn [count_occ].
      destruct (pair_eq_dec (a, b) (x, y)); lia.
Qed.

End TableCounts.

Section ProbabilityFacts.
Import DocumentProcessor.
Local Open Scope Q_scope.

Lemma Qsum_Permutation (l l' : list Q) : Permutation l l' -> Qsum l == Qsum l'.
Proof.
  induction 1 as [| x l l' _ IH | x y l | l l' l'' _ IH1 _ IH2]; cbn.
  - reflexivity.
  - now rewrite IH.
  - ring.
  - now rewrite IH1.
Qed.

Lemma ratio_add (a b t : nat) : ratio (a + b) t == ratio a t + ratio b t.
Proof.
  unfold ratio. rewrite Nat2Z.inj_add, inject_Z_plus. unfold Qdiv. ring.
Qed.

Lemma Qsum_ratios (m : list (string * nat)) (t : nat) :
  Qsum (List.map (fun e => ratio (snd e) t) m) == ratio (counts_total m) t.
Proof.
  unfold counts_total. induction m as [| [k c] m IH]; cbn.
  - unfold ratio. cbn. unfold Qdiv. ring.
  - rewrite IH. cbn [snd]. symmetry. apply ratio_add.
Qed.

Lemma ratio_whole (t : nat) : (0 < t)%nat -> ratio t t == 1.
Proof.
  intros H. unfold ratio, Qdiv. apply Qmult_inv_r.
  intros E. unfold Qeq in E. cbn in E. lia.
Qed.

End ProbabilityFacts.

Section TableTheorems.
Import DocumentProcessor.
Local Open Scope Q_scope.

(** X19.  [processText] of the document processor counts what it reads: the
    frequency and the transition total of a word grow by the number of its
    occurrences among the tokens other than the last, and the count of a
    transition grows by the number of times the two words follow each other
    in the tokens. *)
Theorem DocumentProcessor_processText_counts (st : State) (text : string) :
  (forall k,
      frequency_of (DocumentProcessor.processText st text) k
      = (frequency_of st k
         + count_occ string_dec (removelast (Tokenizer.tokenize text)) k)%nat
      /\ total_of (DocumentProcessor.processText st text) k
         = (total_of st k
            + count_occ string_dec (removelast (Tokenizer.tokenize text)) k)%nat)
  /\ (forall a b,
         transition_count (DocumentProcessor.processText st text) a b
         = (transition_count st a b
            + count_occ pair_eq_dec (JsArray.pairs (Tokenizer.tokenize text)) (a, b))%nat).
Proof.
  unfold DocumentProcessor.processText.
  destruct (counts_fold (JsArray.pairs (Tokenizer.tokenize text)) st) as [H1 H2].
  split; [| exact H2].
  intros k. rewrite <- pairs_firsts. exact (H1 k).
Qed.

(** X20.  In every table built by [addWordTransition] the probabilities
    listed for a word of the table add up to 1, and for any other word the
    list is empty. *)
Theorem getNextWordProbabilities_sum (rnd : nat -> Q) (calls : list (string * string))
  (w : string) :
  match words (replay rnd calls) !! w with
  | Some _ =>
      Qsum (List.map probability (getNextWordProbabilities (replay rnd calls) w)) == 1
  | None => getNextWordProbabilities (replay rnd calls) w = []
  end.
Proof.
  unfold getNextWordProbabilities.
  destruct (words (replay rnd calls) !! w) as [wd |] eqn:E; [| reflexivity].
  destruct (totals_agree_replay rnd calls w wd E) as [Htotal Hpos].
  rewrite (Qsum_Permutation _ _ (Permutation_map probability
             (sort_Permutation by_probability _))).
  rewrite List.map_map. cbn [probability].
  rewrite Qsum_ratios, <- Htotal. now apply ratio_whole.
Qed.

End TableTheorems.

Section ResponseFacts.
Import DocumentProcessor.
Local Open Scope Q_scope.

Lemma state_fold (ps : list (string * string)) (t : DocumentTable.Table) :
  DocumentTable.state
    (fold_left (fun t0 p => DocumentTable.addWordTransition t0 (fst p) (snd p)) ps t)
  = fold_left (fun s p => addWordTransition s (fst p) (snd p)) ps (DocumentTable.state t).
Proof.
  revert t. induction ps as [| p ps IH]; intros t; [reflexivity |].
  cbn [fold_left]. now rewrite IH.
Qed.

Lemma addWordTransition_random (st : State) (a b : string) :
  random (addWordTransition st a b) = random st.
Proof.
  unfold addWordTransition. destruct (words st !! a) as [wa |] eqn:Ea.
  - now rewrite Ea.
  - cbn [words]. now rewrite lookup_insert_eq.
Qed.

Lemma fold_random (ps : list (string * string)) (st : State) :
  random (fold_left (fun s p => addWordTransition s (fst p) (snd p)) ps st) = random st.
Proof.
  revert st. induction ps as [| p ps IH]; intros st; [reflexivity |].
  cbn [fold_left]. now rewrite IH, addWordTransition_random.
Qed.

Lemma keys_agree_add (t : DocumentTable.Table) (a b : string) :
  keys_agree t -> keys_agree (DocumentTable.addWordTransition t a b).
Proof.
  intros [Hnd Hkeys]. unfold keys_agree, DocumentTable.addWordTransition.
  cbn [DocumentTable.keys DocumentTable.state].
  destruct (addWordTransition_words (DocumentTable.state t) a b) as (wd0 & _ & ->).
  unfold DocumentTable.has.
  destruct (words (DocumentTable.state t) !! a) as [wa |] eqn:Ea.
  - split; [exact Hnd |]. intros w. rewrite Hkeys, lookup_insert.
    destruct (decide (a = w)) as [<- |]; [| reflexivity].
    rewrite Ea. split; intros _; eauto.
  - split.
    + apply NoDup_ListNoDup, NoDup_app. split; [now apply NoDup_ListNoDup |].
      split; [| apply NoDup_singleton].
      intros x Hx Hx'. apply list_elem_of_singleton in Hx'. subst x.
      apply list_elem_of_In, Hkeys in Hx. rewrite Ea in Hx. now destruct Hx.
    + intros w. rewrite in_app_iff, Hkeys, lookup_insert. cbn [In].
      destruct (decide (a = w)) as [<- |].
      * split; intros _; eauto.
      * split; [intros [H | [H | []]]; [exact H | congruence] | now left].
Qed.

Lemma keys_agree_fold (ps : list (string * string)) (t : DocumentTable.Table) :
  keys_agree t ->
  keys_agree (fold_left (fun t0 p => DocumentTable.addWordTransition t0 (fst p) (snd p)) ps t).
Proof.
  revert t. induction ps as [| p ps IH]; intros t H; [exact H |].
  cbn [fold_left]. apply IH, keys_agree_add, H.
Qed.

Lemma keys_agree_empty (rnd : nat -> Q) : keys_agree (DocumentTable.empty_table rnd).
Proof.
  split; [constructor |]. intros w. cbn. rewrite lookup_empty.
  split; [tauto | intros [x Hx]; discriminate].
Qed.

Lemma select_in (l : list TransitionProbability) :
  forall (r c : Q) (chosen : string),
    DocumentTable.select l r c chosen = chosen
    \/ In (DocumentTable.select l r c chosen) (List.map tp_word l).
Proof.
  induction l as [| tp l IH]; intros r c chosen; cbn [DocumentTable.select List.map In];
    [now left |].
  destruct (Qle_bool r (c + probability tp)); [right; now left |].
  destruct (IH r (c + probability tp) chosen); [now left | right; now right].
Qed.

Lemma probabilities_words (st : State) (w : string) (x : string) :
  In x (List.map tp_word (getNextWordProbabilities st w)) ->
  exists wd, words st !! w = Some wd /\ In x (List.map fst (nextWords wd)).
Proof.
  unfold getNextWordProbabilities. destruct (words st !! w) as [wd |]; [| intros []].
  intros H. exists wd. split; [reflexivity |].
  eapply Permutation_in in H;
    [| apply Permutation_map, sort_Permutation].
  rewrite List.map_map in H. exact H.
Qed.

Lemma follows_words (st st' : State) :
  words st = words st' ->
  forall cont prev, follows st prev cont -> follows st' prev cont.
Proof.
  intros E. induction cont as [| x rest IH]; intros prev; cbn [follows]; [auto |].
  rewrite E. intros [H1 H2]. split; [exact H1 | now apply IH].
Qed.

(** What the loop of [generateResponse] does: it appends at most [fuel]
    words, a walk along stored transitions, takes one draw for each, and
    leaves the table as it was. *)
Lemma respond_shape (fuel : nat) :
  forall (st : State) (currentWord : string) (response : list string),
  exists cont,
    fst (DocumentTable.respond fuel st currentWord response) = response ++ cont
    /\ (length cont <= fuel)%nat
    /\ follows st currentWord cont
    /\ words (snd (DocumentTable.respond fuel st currentWord response)) = words st
    /\ random (snd (DocumentTable.respond fuel st currentWord response)) = random st
    /\ draws (snd (DocumentTable.respond fuel st currentWord response))
       = (draws st + length cont)%nat.
Proof.
  induction fuel as [| fuel IH]; intros st cur response.
  - exists []. cbn. rewrite app_nil_r. repeat split; auto.
  - cbn [DocumentTable.respond].
    destruct (getNextWordProbabilities st cur) as [| first rest] eqn:E.
    { exists []. cbn. rewrite app_nil_r. repeat split; auto with arith. }
    unfold DocumentTable.Math_random.
    set (st1 := {| words := words st; random := random st; draws := S (draws st) |}).
    set (nextWord := DocumentTable.select (first :: rest) (random st (draws st)) 0
                                          (tp_word first)).
    destruct (IH st1 nextWord (response ++ [nextWord]))
      as (cont & H1 & H2 & H3 & H4 & H5 & H6).
    exists (nextWord :: cont). rewrite H1, H4, H5, H6. repeat split.
    + now rewrite <- app_assoc.
    + cbn [length]. lia.
    + apply probabilities_words. rewrite E.
      destruct (select_in (first :: rest) (random st (draws st)) 0 (tp_word first))
        as [H | H]; [| exact H].
      fold nextWord in H. rewrite H. now left.
    + apply (follows_words st1 st); [reflexivity | exact H3].
    + cbn [draws st1 length]. lia.
Qed.

Lemma sentence_length_bound (r : Q) :
  r < 1 ->
  (Z.to_nat (Qfloor (r * inject_Z (DocumentTable.MAX_SENTENCE_LENGTH
                                   - DocumentTable.MIN_SENTENCE_LENGTH + 1))
             + DocumentTable.MIN_SENTENCE_LENGTH - 1) <= 14)%nat.
Proof.
  intros Hr. change (DocumentTable.MAX_SENTENCE_LENGTH
                     - DocumentTable.MIN_SENTENCE_LENGTH + 1)%Z with 11%Z.
  change DocumentTable.MIN_SENTENCE_LENGTH with 5%Z.
  assert (Qfloor (r * inject_Z 11) < 11)%Z as H.
  { rewrite Zlt_Qlt. eapply Qle_lt_trans; [apply Qfloor_le |].
    change (inject_Z 11) with (11 # 1). 
    apply Qlt_le_trans with (1 * (11 # 1)); [| apply Qle_refl].
    apply Qmult_lt_compat_r; [reflexivity | exact Hr]. }
  lia.
Qed.

End ResponseFacts.

Section ResponseTheorems.
Import DocumentProcessor.
Local Open Scope Q_scope.

(** The parts of what [generateResponse] returns, for a prompt with at
    least one token. *)
Lemma generateResponse_parts (t : DocumentTable.Table) (input : string) :
  Tokenizer.tokenize input <> [] ->
  let t1 := fold_left (fun t0 p => DocumentTable.addWordTransition t0 (fst p) (snd p))
                      (JsArray.pairs (Tokenizer.tokenize input)) t in
  let st2 := snd (DocumentTable.Math_random (DocumentTable.state t1)) in
  let fuel :=
    Z.to_nat (Qfloor (fst (DocumentTable.Math_random (DocumentTable.state t1))
                      * inject_Z (DocumentTable.MAX_SENTENCE_LENGTH
                                  - DocumentTable.MIN_SENTENCE_LENGTH + 1))
              + DocumentTable.MIN_SENTENCE_LENGTH - 1) in
  DocumentTable.generateResponse t input
  = match DocumentTable.start_word t1 (Tokenizer.tokenize input) with
    | None => (EmptyString, {| DocumentTable.state := st2;
                               DocumentTable.keys := DocumentTable.keys t1 |})
    | Some start =>
        (Tokenizer.join (fst (DocumentTable.respond fuel st2 start [start])),
         {| DocumentTable.state := snd (DocumentTable.respond fuel st2 start [start]);
            DocumentTable.keys := DocumentTable.keys t1 |})
    end.
Proof.
  intros Hne. cbv zeta. unfold DocumentTable.generateResponse.
  destruct (Tokenizer.tokenize input) as [| t0 ts]; [congruence |].
  unfold DocumentTable.Math_random. cbn [fst snd].
  match goal with
  | |- match ?s with _ => _ end = match ?s with _ => _ end => destruct s as [start |]
  end; [| reflexivity].
  match goal with
  | |- context [DocumentTable.respond ?f ?s ?c ?r] =>
      destruct (DocumentTable.respond f s c r) as [response st3]
  end.
  reflexivity.
Qed.

(** X21.  [generateResponse] learns from the prompt: it leaves the table
    that [processText] leaves on the same text, whatever it answers; the
    key list of the table stays in agreement with the table. *)
Theorem generateResponse_learns (t : DocumentTable.Table) (input : string) :
  words (DocumentTable.state (snd (DocumentTable.generateResponse t input)))
  = words (DocumentProcessor.processText (DocumentTable.state t) input)
  /\ (keys_agree t -> keys_agree (snd (DocumentTable.generateResponse t input))).
Proof.
  destruct (Tokenizer.tokenize input) as [| t0 ts] eqn:E.
  - unfold DocumentTable.generateResponse, DocumentProcessor.processText. rewrite E.
    cbn. auto.
  - assert (Tokenizer.tokenize input <> []) as Hne by (rewrite E; discriminate).
    rewrite (generateResponse_parts t input Hne).
    unfold DocumentProcessor.processText. rewrite <- state_fold.
    set (t1 := fold_left _ (JsArray.pairs (Tokenizer.tokenize input)) t).
    assert (keys_agree t -> keys_agree t1) as Hkeys by apply keys_agree_fold.
    destruct (DocumentTable.start_word t1 (Tokenizer.tokenize input)) as [start |].
    + match goal with
      | |- context [DocumentTable.respond ?f ?s ?c ?r] =>
          destruct (respond_shape f s c r) as (cont & _ & _ & _ & Hw & _)
      end.
      cbn [snd DocumentTable.state DocumentTable.keys]. rewrite Hw. cbn [words snd].
      split; [reflexivity |]. intros H. destruct (Hkeys H) as [H1 H2].
      split; [exact H1 |]. intros w. cbn [DocumentTable.keys DocumentTable.state].
      rewrite Hw. exact (H2 w).
    + cbn [snd DocumentTable.state DocumentTable.keys words].
      split; [reflexivity |]. intros H. exact (Hkeys H).
Qed.

(** X22.  With draws below 1, [generateResponse] answers with at most 15
    words joined by single spaces; after the first, each word is a stored
    successor of the word before it, and the first is the last token of the
    prompt whenever the table, with the prompt learnt, has that token. *)
Theorem generateResponse_walks (t : DocumentTable.Table) (input : string) :
  (forall i, random (DocumentTable.state t) i < 1) ->
  exists response,
    fst (DocumentTable.generateResponse t input) = Tokenizer.join response
    /\ (length response <= 15)%nat
    /\ match response with
       | [] => True
       | start :: continuation =>
           follows (DocumentTable.state (snd (DocumentTable.generateResponse t input)))
                   start continuation
       end
    /\ (Tokenizer.tokenize input <> [] ->
        DocumentTable.has (snd (DocumentTable.generateResponse t input))
                          (List.last (Tokenizer.tokenize input) EmptyString) = true ->
        List.head response = Some (List.last (Tokenizer.tokenize input) EmptyString)).
Proof.
  intros Hr.
  destruct (Tokenizer.tokenize input) as [| t0 ts] eqn:E.
  - exists []. unfold DocumentTable.generateResponse. rewrite E. cbn.
    repeat split; auto with arith. congruence.
  - assert (Tokenizer.tokenize input <> []) as Hne by (rewrite E; discriminate).
    rewrite (generateResponse_parts t input Hne). rewrite E.
    set (t1 := fold_left _ (JsArray.pairs (t0 :: ts)) t).
    assert (random (DocumentTable.state t1) = random (DocumentTable.state t)) as Hrnd.
    { unfold t1. rewrite state_fold. apply fold_random. }
    destruct (DocumentTable.start_word t1 (t0 :: ts)) as [start |] eqn:Es.
    + match goal with
      | |- context [DocumentTable.respond ?f ?s ?c ?r] =>
          destruct (respond_shape f s c r) as (cont & H1 & H2 & H3 & Hw & _);
            assert (f <= 14)%nat as Hfuel
      end.
      { apply sentence_length_bound. unfold DocumentTable.Math_random. cbn [fst].
        rewrite Hrnd. apply Hr. }
      cbn [fst snd DocumentTable.state]. rewrite H1.
      exists (start :: cont). repeat split.
      * cbn [length]. lia.
      * eapply follows_words; [| exact H3]. now rewrite Hw.
      * intros _ Hhas.
        assert (DocumentTable.has t1 (List.last (t0 :: ts) EmptyString) = true) as Hh.
        { unfold DocumentTable.has in *. cbn [DocumentTable.state] in Hhas.
          rewrite Hw in Hhas. exact Hhas. }
        unfold DocumentTable.start_word in Es. rewrite Hh in Es.
        cbn [List.head]. symmetry. exact Es.
    + exists []. cbn [fst snd]. repeat split; auto with arith.
      intros _ Hhas.
      assert (DocumentTable.has t1 (List.last (t0 :: ts) EmptyString) = true) as Hh
          by exact Hhas.
      unfold DocumentTable.start_word in Es. rewrite Hh in Es. discriminate.
Qed.

(** X23.  Asked with a single word that the table does not have,
    [generateResponse] starts from the first word ever added to the table;
    when the table is empty it answers with the empty string. *)
Theorem generateResponse_unknown_word (t : DocumentTable.Table) (input w : string) :
  Tokenizer.tokenize input = [w] ->
  DocumentTable.has t w = false ->
  match DocumentTable.keys t with
  | [] => fst (DocumentTable.generateResponse t input) = EmptyString
  | first :: _ =>
      exists continuation,
        fst (DocumentTable.generateResponse t input)
        = Tokenizer.join (first :: continuation)
  end.
Proof.
  intros E Hhas.
  assert (Tokenizer.tokenize input <> []) as Hne by (rewrite E; discriminate).
  rewrite (generateResponse_parts t input Hne). rewrite E.
  cbn [JsArray.pairs fold_left].
  unfold DocumentTable.start_word. cbn [List.last List.find]. rewrite Hhas.
  destruct (DocumentTable.keys t) as [| first rest]; [reflexivity |].
  cbn [List.head fst].
  match goal with
  | |- context [DocumentTable.respond ?f ?s ?c ?r] =>
      destruct (respond_shape f s c r) as (cont & H1 & _)
  end.
  exists cont. now rewrite H1.
Qed.

End ResponseTheorems.

Section WordStatsFacts.
Import DocumentProcessor.

Lemma by_frequency_total (a b : WordData) :
  DocumentTable.by_frequency a b = false -> DocumentTable.by_frequency b a = true.
Proof.
  unfold DocumentTable.by_frequency. intros H.
  apply Nat.leb_gt in H. apply Nat.leb_le. lia.
Qed.

Lemma by_frequency_trans (a b c : WordData) :
  DocumentTable.by_frequency a b = true -> DocumentTable.by_frequency b c = true ->
  DocumentTable.by_frequency a c = true.
Proof.
  unfold DocumentTable.by_frequency. rewrite !Nat.leb_le. lia.
Qed.

Lemma length_omap_total {A B : Type} (f : A -> option B) (l : list A) :
  (forall a, In a l -> is_Some (f a)) -> length (omap f l) = length l.
Proof.
  induction l as [| a l IH]; intros H; [reflexivity |].
  cbn [omap list_omap]. destruct (H a (or_introl eq_refl)) as [b ->].
  cbn [length]. f_equal. apply IH. intros a' Ha'. apply H. now right.
Qed.

Lemma keys_agree_replay (rnd : nat -> Q) (calls : list (string * string)) :
  keys_agree (replay_table rnd calls).
Proof. apply keys_agree_fold, keys_agree_empty. Qed.

Lemma length_keys (t : DocumentTable.Table) :
  keys_agree t -> length (DocumentTable.keys t) = size (words (DocumentTable.state t)).
Proof.
  intros [Hnd Hkeys].
  rewrite <- size_dom, <- (size_list_to_set (C := gset string));
    [| now apply NoDup_ListNoDup].
  f_equal. apply set_eq. intros w.
  rewrite elem_of_list_to_set, list_elem_of_In, Hkeys, elem_of_dom. reflexivity.
Qed.

End WordStatsFacts.

Section WordStatsTheorems.
Import DocumentProcessor.

(** X24.  In a table built by [addWordTransition], [getWordStats] lists the
    entry of every word of the table, each once, in descending order of
    frequency. *)
Theorem getWordStats_spec (rnd : nat -> Q) (calls : list (string * string)) :
  let t := replay_table rnd calls in
  StronglySorted (fun a b => (frequency b <= frequency a)%nat) (DocumentTable.getWordStats t)
  /\ (forall wd, In wd (DocumentTable.getWordStats t)
                 <-> exists w, words (DocumentTable.state t) !! w = Some wd)
  /\ length (DocumentTable.getWordStats t) = size (words (DocumentTable.state t)).
Proof.
  intros t. pose proof (keys_agree_replay rnd calls) as Hagree. fold t in Hagree.
  unfold DocumentTable.getWordStats.
  pose proof (sort_Permutation DocumentTable.by_frequency (DocumentTable.values t)) as Hperm.
  split; [| split].
  - eapply StronglySorted_weaken;
      [| apply sort_sorted; [apply by_frequency_total | apply by_frequency_trans]].
    intros a b H. now apply Nat.leb_le.
  - intros wd. split.
    + intros H. eapply Permutation_in in H; [| exact Hperm].
      apply list_elem_of_In, list_elem_of_omap in H. destruct H as (w & _ & Hw). eauto.
    + intros (w & Hw). eapply Permutation_in; [symmetry; exact Hperm |].
      apply list_elem_of_In, list_elem_of_omap. exists w. split; [| exact Hw].
      apply list_elem_of_In, (proj2 Hagree). eauto.
  - rewrite (Permutation_length Hperm). unfold DocumentTable.values.
    rewrite length_omap_total; [now apply length_keys |].
    intros w Hw. now apply (proj2 Hagree).
Qed.

End WordStatsTheorems.

Section ResponseInstances.
Import DocumentProcessor.
Local Open Scope Q_scope.

(** X22 at the empty table and the prompt "the cat sat". *)
Lemma generateResponse_walks_witness :
  let t := DocumentTable.empty_table (fun _ => 0) in
  (forall i, random (DocumentTable.state t) i < 1)
  /\ exists response,
       fst (DocumentTable.generateResponse t "the cat sat") = Tokenizer.join response
       /\ (length response <= 15)%nat
       /\ match response with
          | [] => True
          | start :: continuation =>
              follows (DocumentTable.state
                         (snd (DocumentTable.generateResponse t "the cat sat")))
                      start continuation
          end
       /\ (Tokenizer.tokenize "the cat sat" <> [] ->
           DocumentTable.has (snd (DocumentTable.generateResponse t "the cat sat"))
                             (List.last (Tokenizer.tokenize "the cat sat") EmptyString)
           = true ->
           List.head response
           = Some (List.last (Tokenizer.tokenize "the cat sat") EmptyString)).
Proof.
  assert (forall i : nat,
             random (DocumentTable.state (DocumentTable.empty_table (fun _ => 0))) i < 1)
    as H by (intros i; reflexivity).
  split; [exact H |].
  exact (generateResponse_walks (DocumentTable.empty_table (fun _ => 0)) "the cat sat" H).
Defined.

(** X23 at the table that has learnt "a b" and the prompt "zzz". *)
Lemma generateResponse_unknown_word_witness :
  let t := replay_table (fun _ => 0) [("a"%string, "b"%string)] in
  Tokenizer.tokenize "zzz" = ["zzz"%string]
  /\ DocumentTable.has t "zzz" = false
  /\ exists continuation,
       fst (DocumentTable.generateResponse t "zzz")
       = Tokenizer.join ("a"%string :: continuation).
Proof.
  assert (Tokenizer.tokenize "zzz" = ["zzz"%string]) as H1 by (vm_compute; reflexivity).
  assert (DocumentTable.has (replay_table (fun _ => 0) [("a"%string, "b"%string)]) "zzz"
          = false) as H2 by (vm_compute; reflexivity).
  split; [exact H1 | split; [exact H2 |]].
  exact (generateResponse_unknown_word
           (replay_table (fun _ => 0) [("a"%string, "b"%string)]) "zzz" "zzz" H1 H2).
Defined.

End ResponseInstances.

Section SecondTokenizerFacts.

Lemma word_char_not_space (c : ascii) :
  Tokenizer.is_word_char c = true -> DocumentText.is_space c = false.
Proof. destruct c as [[] [] [] [] [] [] [] []]; cbv; congruence. Qed.

Lemma lower_char_hyphen (c : ascii) :
  DocumentText.is_hyphen (Tokenizer.lower_char c) = DocumentText.is_hyphen c.
Proof. destruct c as [[] [] [] [] [] [] [] []]; reflexivity. Qed.

Lemma toLowerCase_no_hyphen (s : string) :
  all_chars (fun c => negb (DocumentText.is_hyphen c)) (Tokenizer.toLowerCase s)
  = all_chars (fun c => negb (DocumentText.is_hyphen c)) s.
Proof.
  induction s as [| c s IH]; [reflexivity |].
  cbn [Tokenizer.toLowerCase all_chars]. now rewrite lower_char_hyphen, IH.
Qed.

Lemma flush_acc (cur : string) (acc : list string) :
  Tokenizer.flush cur acc = acc ++ Tokenizer.flush cur [].
Proof. destruct cur; cbn; [now rewrite app_nil_r | reflexivity]. Qed.

Lemma match_words_acc (s : string) :
  forall (cur : string) (acc : list string),
    Tokenizer.match_words s cur acc = acc ++ Tokenizer.match_words s cur [].
Proof.
  induction s as [| c s IH]; intros cur acc; cbn [Tokenizer.match_words].
  - apply flush_acc.
  - destruct (Tokenizer.is_word_char c); [apply IH |].
    rewrite IH, (IH _ (Tokenizer.flush cur [])), app_assoc. f_equal. apply flush_acc.
Qed.

Lemma filter_flush (cur : string) :
  List.filter (fun word => negb (String.length word =? 0)%nat) [cur]
  = Tokenizer.flush cur [].
Proof. destruct cur; reflexivity. Qed.

Lemma split_spaces_words (s : string) :
  all_chars (fun c => negb (DocumentText.is_hyphen c)) s = true ->
  forall (cur : string) (after_space : bool),
    (after_space = true -> cur = EmptyString) ->
    List.filter (fun word => negb (String.length word =? 0)%nat)
                (DocumentText.split_spaces (DocumentText.blank_others s) cur after_space)
    = Tokenizer.match_words s cur [].
Proof.
  induction s as [| c s IH]; intros Hs cur after_space Hcur.
  - cbn [DocumentText.blank_others DocumentText.split_spaces Tokenizer.match_words].
    apply filter_flush.
  - cbn [all_chars] in Hs. apply andb_prop in Hs. destruct Hs as [Hc Hs].
    apply negb_true_iff in Hc.
    cbn [DocumentText.blank_others DocumentText.split_spaces Tokenizer.match_words].
    destruct (Tokenizer.is_word_char c) eqn:Ew.
    + cbn [orb]. rewrite (word_char_not_space c Ew).
      apply IH; [exact Hs | discriminate].
    + rewrite Hc. cbn [orb]. rewrite orb_false_r.
      assert (DocumentText.is_space (if DocumentText.is_space c then c else " "%char)
              = true) as ->.
      { destruct (DocumentText.is_space c) eqn:Esp; [exact Esp | reflexivity]. }
      rewrite match_words_acc.
      destruct after_space.
      * rewrite (Hcur eq_refl). cbn [Tokenizer.flush app].
        apply IH; [exact Hs | reflexivity].
      * change (cur :: ?l) with ([cur] ++ l).
        rewrite List.filter_app, filter_flush. f_equal.
        apply IH; [exact Hs | reflexivity].
Qed.

End SecondTokenizerFacts.

Section SecondTokenizerTheorems.

(** X25.  On a text without a hyphen the two tokenizers agree:
    [tokenizeText] of the document processor gives the words that the
    component matches with [/\b\w+\b/g], and [countTokens] their number. *)
Theorem tokenizeText_agrees (text : string) :
  all_chars (fun c => negb (DocumentText.is_hyphen c)) text = true ->
  DocumentText.tokenizeText text = Tokenizer.tokenize text
  /\ DocumentText.countTokens text = length (Tokenizer.tokenize text).
Proof.
  intros H.
  assert (DocumentText.tokenizeText text = Tokenizer.tokenize text) as E.
  { unfold DocumentText.tokenizeText, Tokenizer.tokenize.
    apply split_spaces_words; [| discriminate].
    now rewrite toLowerCase_no_hyphen. }
  split; [exact E |]. unfold DocumentText.countTokens. now rewrite E.
Qed.

(** X25 at the text "Hello, World!". *)
Lemma tokenizeText_agrees_witness :
  all_chars (fun c => negb (DocumentText.is_hyphen c)) "Hello, World!" = true
  /\ DocumentText.tokenizeText "Hello, World!" = Tokenizer.tokenize "Hello, World!"
  /\ DocumentText.countTokens "Hello, World!" = length (Tokenizer.tokenize "Hello, World!").
Proof.
  split; [reflexivity |].
  exact (tokenizeText_agrees "Hello, World!" eq_refl).
Defined.

End SecondTokenizerTheorems.

Section SavedSnapshot.
Import QuantumMemory.
Local Open Scope R_scope.
#[local] Opaque PATTERN_CELLS CHUNK_SIZE.

Lemma captured_lookup (memory : Memory) (store : gmap string WordNode) (k : string) :
  k ∈ dom (nodes memory) -> nodes (captured memory store) !! k = store !! k.
Proof.
  intros Hk. unfold captured. cbn [nodes].
  destruct (store !! k) as [n |] eqn:En.
  - apply map_lookup_filter_Some. split; [exact En | exact Hk].
  - apply map_lookup_filter_None. left. exact En.
Qed.

Lemma captured_dom (memory : Memory) (store : gmap string WordNode) :
  dom (nodes memory) ⊆ dom store -> dom (nodes (captured memory store)) = dom (nodes memory).
Proof.
  intros Hsub. apply set_eq. intros k. rewrite elem_of_dom. split.
  - intros [n Hn]. unfold captured in Hn. cbn [nodes] in Hn.
    apply map_lookup_filter_Some in Hn. exact (proj2 Hn).
  - intros Hk. rewrite (captured_lookup memory store k Hk).
    apply elem_of_dom, Hsub, Hk.
Qed.

(** X26.  What [processText] and [consolidateMemory] save is the memory of
    the render they were called in, with its node objects as the call has
    left them: after an ingest the saved memory has the old words only, the
    old document count, coherence and document texts; after a consolidation
    it has every old word, the pruned ones included, each decayed, and the
    old consolidation time. *)
Theorem saved_snapshot_is_stale (JSON_stringify : Json -> string) (memory : Memory)
  (w : World) :
  (forall text documentId,
      exists saved w1,
        snd (processText JSON_stringify memory text documentId w)
        = saveMemory JSON_stringify saved w1
        /\ dom (nodes saved) = dom (nodes memory)
        /\ (forall k, k ∈ dom (nodes memory) ->
              nodes saved !! k
              = nodes (fst (processText JSON_stringify memory text documentId w)) !! k)
        /\ totalDocuments saved = totalDocuments memory
        /\ quantumCoherence saved = quantumCoherence memory
        /\ documentContents saved = documentContents memory)
  /\ exists saved w1,
       snd (consolidateMemory JSON_stringify memory w) = saveMemory JSON_stringify saved w1
       /\ nodes saved = decay (clock w (ticks w)) <$> nodes memory
       /\ lastConsolidation saved = lastConsolidation memory.
Proof.
  split.
  - intros text documentId.
    pose proof (processText_nodes JSON_stringify memory text documentId w) as Hnodes.
    unfold processText in *.
    set (w0 := if (MAX_DOCUMENT_SIZE <? String.length text)%nat
               then console_warn oversize_warning w else w) in *.
    pose proof (dom_ingest_fold (dom (nodes memory)) documentId
                  (JsArray.pairs (Tokenizer.tokenize (ingested_text text)))
                  (nodes memory, w0)) as Hdom.
    unfold ingested_text in Hdom. subst w0.
    destruct (MAX_DOCUMENT_SIZE <? String.length text)%nat;
      match goal with
      | |- context [fold_left ?f ?l ?a] => destruct (fold_left f l a) as [newNodes w1]
      end;
      cbn [fst snd nodes] in *;
      exists (captured memory newNodes), w1;
      (split; [reflexivity |]);
      (split; [apply captured_dom; rewrite Hdom; apply union_subseteq_l |]);
      (split; [intros k Hk; now apply captured_lookup | repeat split]).
  - exists (captured memory (decay (clock w (ticks w)) <$> nodes memory)).
    eexists. split; [reflexivity |]. split; [| reflexivity].
    unfold captured. cbn [nodes]. apply map_filter_id.
    intros k n Hk. cbn [fst]. rewrite lookup_fmap in Hk.
    apply elem_of_dom. destruct (nodes memory !! k); [eauto | discriminate].
Qed.

End SavedSnapshot.

Section GateFacts.
Import QuantumMemory.
Local Open Scope R_scope.

Lemma PATTERN_CELLS_pos : (0 < PATTERN_CELLS)%nat.
Proof. unfold PATTERN_CELLS. lia. Qed.

#[local] Opaque PATTERN_CELLS.

Lemma Cabs_mul (a b : Complex) : Cabs (Cmul a b) = Cabs a * Cabs b.
Proof.
  unfold Cabs, Cmul. cbn [re im].
  rewrite <- sqrt_mult_alt by nra. f_equal. ring.
Qed.

Lemma Cabs_conjugate (a : Complex) : Cabs (Cconjugate a) = Cabs a.
Proof. unfold Cabs, Cconjugate. cbn [re im]. f_equal. ring. Qed.

Lemma Cneg_involutive (a : Complex) : Cneg (Cneg a) = a.
Proof. destruct a as [r i]. unfold Cneg. cbn [re im]. f_equal; ring. Qed.

Lemma sqrt2_sqrt2 : sqrt 2 * sqrt 2 = 2.
Proof. apply sqrt_sqrt. lra. Qed.

Lemma hadamard_twice (state : QuantumState) :
  amplitude (applyHadamardGate (applyHadamardGate state))
  = Cscale (amplitude state) (1 / 2).
Proof.
  pose proof sqrt2_sqrt2 as Hs.
  assert (sqrt 2 <> 0) as Hne by (intros E; rewrite E in Hs; lra).
  assert ((1 / sqrt 2) * (1 / sqrt 2) = 1 / 2) as Hk.
  { transitivity (1 / (sqrt 2 * sqrt 2)); [field; exact Hne | now rewrite Hs]. }
  unfold applyHadamardGate, Cscale, Cmul. cbn [amplitude re im].
  set (k := 1 / sqrt 2) in *.
  f_equal.
  - transitivity (re (amplitude state) * (k * k)); [ring | rewrite Hk; ring].
  - transitivity (im (amplitude state) * (k * k)); [ring | rewrite Hk; ring].
Qed.

Lemma Rsum_map_const {A : Type} (c : R) (l : list A) :
  Rsum (List.map (fun _ => c) l) = INR (length l) * c.
Proof.
  induction l as [| a l IH]; [unfold Rsum; cbn; lra |].
  cbn [List.map]. rewrite Rsum_cons, IH.
  change (length (a :: l)) with (S (length l)). rewrite S_INR. lra.
Qed.

Lemma Rsum_map_bounds {A : Type} (f : A -> R) (lo hi : R) (l : list A) :
  (forall a, In a l -> lo <= f a < hi) ->
  INR (length l) * lo <= Rsum (List.map f l)
  /\ (l <> [] -> Rsum (List.map f l) < INR (length l) * hi).
Proof.
  induction l as [| a l IH]; intros H.
  - unfold Rsum. cbn. split; [lra | congruence].
  - cbn [List.map]. rewrite Rsum_cons.
    change (length (a :: l)) with (S (length l)). rewrite S_INR.
    destruct (H a (or_introl eq_refl)) as [Hlo Hhi].
    destruct IH as [IH1 IH2]; [intros a' Ha'; apply H; now right |].
    split; [lra |]. intros _.
    destruct l as [| b l].
    + unfold Rsum in *. cbn in *. lra.
    + specialize (IH2 ltac:(discriminate)). lra.
Qed.

End GateFacts.

Section GateTheorems.
Import QuantumMemory.
Local Open Scope R_scope.
#[local] Opaque PATTERN_CELLS.

(** X27.  The two gates: [applyCNOTGate] returns its control unchanged,
    keeps the phase and the magnitude of its target, and applied twice with
    the same control gives the target back; [applyHadamardGate] keeps the
    phase and applied twice halves the amplitude. *)
Theorem gates_twice (control target : QuantumState) :
  fst (applyCNOTGate control target) = control
  /\ phase (snd (applyCNOTGate control target)) = phase target
  /\ Cabs (amplitude (snd (applyCNOTGate control target))) = Cabs (amplitude target)
  /\ snd (applyCNOTGate control (snd (applyCNOTGate control target))) = target
  /\ phase (applyHadamardGate (applyHadamardGate target)) = phase target
  /\ amplitude (applyHadamardGate (applyHadamardGate target))
     = Cscale (amplitude target) (1 / 2).
Proof.
  split; [apply applyCNOTGate_control |].
  split; [unfold applyCNOTGate; now destruct (Rlt_dec 0.5 (Cabs (amplitude control))) |].
  split.
  { rewrite applyCNOTGate_target.
    destruct (Rlt_dec 0.5 (Cabs (amplitude control))); [apply Cabs_neg | reflexivity]. }
  split.
  { unfold applyCNOTGate.
    destruct (Rlt_dec 0.5 (Cabs (amplitude control))) as [Hc | Hc]; cbn [snd]; [| reflexivity].
    cbn [amplitude phase]. rewrite Cneg_involutive. now destruct target. }
  split; [reflexivity | apply hadamard_twice].
Qed.

(** X28.  [quantumInterference] is symmetric, its magnitude is at most the
    product of the magnitudes of the two amplitudes, and a state interferes
    with itself by the square of its magnitude. *)
Theorem quantumInterference_bounds (state1 state2 : QuantumState) :
  quantumInterference state1 state2 = quantumInterference state2 state1
  /\ Rabs (quantumInterference state1 state2)
     <= Cabs (amplitude state1) * Cabs (amplitude state2)
  /\ quantumInterference state1 state1 = Cabs (amplitude state1) ^ 2.
Proof.
  unfold quantumInterference. rewrite !Cabs_mul, !Cabs_conjugate.
  pose proof (Cabs_nonneg (amplitude state1)) as H1.
  pose proof (Cabs_nonneg (amplitude state2)) as H2.
  split; [| split].
  - replace (phase state2 - phase state1) with (- (phase state1 - phase state2)) by ring.
    rewrite cos_neg. ring.
  - rewrite Rabs_mult, (Rabs_pos_eq (_ * _)) by nra.
    pose proof (COS_bound (phase state1 - phase state2)) as [Hlo Hhi].
    assert (Rabs (cos (phase state1 - phase state2)) <= 1) as Hc
        by (apply Rabs_le; lra).
    pose proof (Rabs_pos (cos (phase state1 - phase state2))) as Hp.
    set (c := Rabs (cos (phase state1 - phase state2))) in *.
    set (p := Cabs (amplitude state1) * Cabs (amplitude state2)).
    assert (0 <= p) as H0 by (unfold p; nra).
    nra.
  - replace (phase state1 - phase state1) with 0 by ring. rewrite cos_0. ring.
Qed.

(** X29.  Reading back a pattern that was just written: with draws in
    [0, 1), [reconstructHologram] of the pattern [createHolographicPattern]
    makes of a state has the magnitude of the state's amplitude as its real
    amplitude, no imaginary part, and a phase that is at least the state's
    and less than 0.1 above it. *)
Theorem hologram_round_trip (state : QuantumState) (w : World) :
  (forall i, 0 <= random w i < 1) ->
  amplitude (reconstructHologram (fst (createHolographicPattern state w)))
  = {| re := Cabs (amplitude state); im := 0 |}
  /\ phase state <= phase (reconstructHologram (fst (createHolographicPattern state w)))
     < phase state + 0.1.
Proof.
  intros Hr. pose proof PATTERN_CELLS_pos as Hpos.
  assert (0 < INR PATTERN_CELLS) as Hn by (apply lt_0_INR; exact Hpos).
  unfold reconstructHologram, createHolographicPattern.
  cbn [fst intensity pattern_phase amplitude phase].
  rewrite !length_map, length_seq. split.
  - f_equal. rewrite Rsum_map_const, length_seq.
    replace (INR PATTERN_CELLS * Cabs (amplitude state) ^ 2 / INR PATTERN_CELLS)
      with (Cabs (amplitude state) ^ 2) by (field; lra).
    replace (Cabs (amplitude state) ^ 2)
      with (Cabs (amplitude state) * Cabs (amplitude state)) by ring.
    apply sqrt_square, Cabs_nonneg.
  - destruct (Rsum_map_bounds
                (fun i : nat => phase state + random w (draws w + i) * 0.1)
                (phase state) (phase state + 0.1) (seq 0 PATTERN_CELLS)) as [Hlo Hhi].
    { intros i _. specialize (Hr (draws w + i)%nat). lra. }
    rewrite length_seq in Hlo, Hhi.
    assert (seq 0 PATTERN_CELLS <> []) as Hne.
    { intros E. apply (f_equal (@length nat)) in E. rewrite length_seq in E.
      cbn in E. lia. }
    specialize (Hhi Hne).
    split.
    + apply Rmult_le_reg_r with (INR PATTERN_CELLS); [exact Hn |].
      unfold Rdiv. rewrite Rmult_assoc, Rinv_l by lra. lra.
    + apply Rmult_lt_reg_r with (INR PATTERN_CELLS); [exact Hn |].
      unfold Rdiv. rewrite Rmult_assoc, Rinv_l by lra. lra.
Qed.

(** X29 at the state of amplitude 3 + 4i and phase 1, every draw 0. *)
Lemma hologram_round_trip_witness :
  let state := {| amplitude := {| re := 3; im := 4 |}; phase := 1 |} in
  let w := sample_world (fun _ => 0) (fun _ => 0) in
  (forall i, 0 <= random w i < 1)
  /\ amplitude (reconstructHologram (fst (createHolographicPattern state w)))
     = {| re := Cabs (amplitude state); im := 0 |}
  /\ phase state <= phase (reconstructHologram (fst (createHolographicPattern state w)))
     < phase state + 0.1.
Proof.
  assert (forall i : nat, 0 <= random (sample_world (fun _ => 0) (fun _ => 0)) i < 1) as H
      by (intros i; cbn; lra).
  split; [exact H |].
  exact (hologram_round_trip {| amplitude := {| re := 3; im := 4 |}; phase := 1 |}
                             (sample_world (fun _ => 0) (fun _ => 0)) H).
Defined.

End GateTheorems.

Section TrimFacts.
Import DocumentText.

Lemma trimStart_blank (s : string) :
  all_chars is_space s = true -> trimStart s = EmptyString.
Proof.
  induction s as [| c s IH]; [reflexivity |].
  cbn [all_chars trimStart]. intros H. apply andb_prop in H. destruct H as [-> Hs]. auto.
Qed.

Lemma trimStart_inked (s : string) :
  all_chars is_space s = false ->
  exists c r, trimStart s = String c r /\ is_space c = false.
Proof.
  induction s as [| c s IH]; [discriminate |].
  cbn [all_chars trimStart]. destruct (is_space c) eqn:E; cbn [andb]; [exact IH |].
  intros _. exists c, s. auto.
Qed.

Lemma trimEnd_head (c : ascii) (s : string) :
  is_space c = false -> exists r, trimEnd (String c s) = String c r.
Proof.
  intros H. cbn [trimEnd]. destruct (trimEnd s); [rewrite H |]; eauto.
Qed.

Lemma trimEnd_trimEnd (s : string) : trimEnd (trimEnd s) = trimEnd s.
Proof.
  induction s as [| c s IH]; [reflexivity |].
  cbn [trimEnd]. destruct (trimEnd s) as [| d r] eqn:E.
  - destruct (is_space c) eqn:Ec; [reflexivity |]. cbn [trimEnd]. now rewrite Ec.
  - cbn [trimEnd]. cbn [trimEnd] in IH. rewrite IH. reflexivity.
Qed.

Lemma trim_blank (s : string) : all_chars is_space s = true -> trim s = EmptyString.
Proof. intros H. unfold trim. now rewrite trimStart_blank. Qed.

Lemma trim_inked (s : string) :
  all_chars is_space s = false -> trim s <> EmptyString /\ trim (trim s) = trim s.
Proof.
  intros H. unfold trim. destruct (trimStart_inked s H) as (c & r & -> & Hc).
  destruct (trimEnd_head c r Hc) as [r' E]. rewrite E. split; [discriminate |].
  cbn [trimStart]. rewrite Hc, <- E. apply trimEnd_trimEnd.
Qed.

Lemma blank_app (a b : string) :
  all_chars is_space (a +:+ b) = all_chars is_space a && all_chars is_space b.
Proof. apply all_chars_app. Qed.

Lemma terminator_not_space (c : ascii) : is_terminator c = true -> is_space c = false.
Proof. destruct c as [[] [] [] [] [] [] [] []]; cbv; congruence. Qed.

(** Every match holds a terminator, so none is blank. *)
Lemma scan_sentences_inked (s : string) :
  forall (mode : Scan) (cur : string),
    (mode = Tail -> all_chars is_space cur = false) ->
    Forall (fun sentence => all_chars is_space sentence = false) (scan_sentences s mode cur).
Proof.
  induction s as [| c s IH]; intros mode cur Hcur.
  - cbn [scan_sentences]. destruct mode; constructor; [now apply Hcur | constructor].
  - cbn [scan_sentences]. destruct (is_terminator c) eqn:Et.
    + assert (all_chars is_space (cur +:+ String c EmptyString) = false) as Hink.
      { rewrite blank_app. cbn [all_chars]. rewrite (terminator_not_space c Et).
        now rewrite andb_false_r. }
      destruct mode; apply IH; try discriminate; intros _; exact Hink.
    + destruct mode; try (apply IH; discriminate).
      constructor; [now apply Hcur | apply IH; discriminate].
Qed.

Lemma scan_sentences_none (s : string) :
  all_chars (fun c => negb (is_terminator c)) s = true ->
  forall (mode : Scan) (cur : string), mode <> Tail -> scan_sentences s mode cur = [].
Proof.
  induction s as [| c s IH]; intros H mode cur Hmode.
  - destruct mode; [reflexivity | reflexivity | congruence].
  - cbn [all_chars] in H. apply andb_prop in H. destruct H as [Hc Hs].
    apply negb_true_iff in Hc. cbn [scan_sentences]. rewrite Hc.
    destruct mode; [apply IH | apply IH | congruence]; auto; discriminate.
Qed.

End TrimFacts.

Section ChunkLoopFacts.
Import DocumentText.

Variable CHUNK_SIZE : option nat.

(** What the chunks written so far look like. *)
Lemma chunk_step_invariant (st : list DocumentChunk * string) (sentence : string) :
  List.map index (fst st) = seq 0 (length (fst st)) ->
  Forall (fun chunk => chunk_text chunk <> EmptyString
                       /\ trim (chunk_text chunk) = chunk_text chunk) (fst st) ->
  (snd st = EmptyString \/ all_chars is_space (snd st) = false) ->
  all_chars is_space sentence = false ->
  List.map index (fst (chunk_step CHUNK_SIZE st sentence))
  = seq 0 (length (fst (chunk_step CHUNK_SIZE st sentence)))
  /\ Forall (fun chunk => chunk_text chunk <> EmptyString
                          /\ trim (chunk_text chunk) = chunk_text chunk)
            (fst (chunk_step CHUNK_SIZE st sentence))
  /\ all_chars is_space (snd (chunk_step CHUNK_SIZE st sentence)) = false.
Proof.
  destruct st as [chunks currentChunk]. cbn [fst snd]. intros Hidx Htexts Hcur Hsentence.
  unfold chunk_step.
  destruct (exceeds CHUNK_SIZE (currentChunk +:+ sentence)
            && negb (JsString.is_empty currentChunk)) eqn:E; cbn [fst snd].
  - apply andb_prop in E. destruct E as [_ E].
    assert (all_chars is_space currentChunk = false) as Hink.
    { destruct Hcur as [-> | H]; [discriminate | exact H]. }
    split; [| split; [| exact Hsentence]].
    + rewrite List.map_app, length_app, Hidx. cbn [List.map index length].
      rewrite Nat.add_1_r, seq_S. reflexivity.
    + apply Forall_app. split; [exact Htexts |].
      constructor; [| constructor]. cbn [chunk_text]. now apply trim_inked.
  - split; [exact Hidx | split; [exact Htexts |]].
    rewrite blank_app, Hsentence. apply andb_false_r.
Qed.

Lemma chunk_loop_invariant (sentences : list string) :
  Forall (fun sentence => all_chars is_space sentence = false) sentences ->
  forall st : list DocumentChunk * string,
    List.map index (fst st) = seq 0 (length (fst st)) ->
    Forall (fun chunk => chunk_text chunk <> EmptyString
                         /\ trim (chunk_text chunk) = chunk_text chunk) (fst st) ->
    (snd st = EmptyString \/ all_chars is_space (snd st) = false) ->
    List.map index (fst (fold_left (chunk_step CHUNK_SIZE) sentences st))
    = seq 0 (length (fst (fold_left (chunk_step CHUNK_SIZE) sentences st)))
    /\ Forall (fun chunk => chunk_text chunk <> EmptyString
                            /\ trim (chunk_text chunk) = chunk_text chunk)
              (fst (fold_left (chunk_step CHUNK_SIZE) sentences st)).
Proof.
  induction sentences as [| sentence sentences IH]; intros Hall st H1 H2 H3;
    [cbn; auto |].
  apply Forall_cons in Hall. destruct Hall as [Hs Hall].
  cbn [fold_left].
  destruct (chunk_step_invariant st sentence H1 H2 H3 Hs) as (H1' & H2' & H3').
  apply IH; auto.
Qed.

(** The loop over the one sentence of a text without a match. *)
Lemma chunk_loop_single (text : string) :
  fold_left (chunk_step CHUNK_SIZE) [text] ([], EmptyString) = ([], text).
Proof.
  cbn [fold_left]. unfold chunk_step. cbn [JsString.is_empty negb].
  replace (JsString.is_empty EmptyString) with true by reflexivity.
  cbn [negb]. rewrite andb_false_r. reflexivity.
Qed.

Lemma chunk_loop_start (text : string) :
  List.map index (fst (fold_left (chunk_step CHUNK_SIZE) (sentences_of text)
                                 ([], EmptyString)))
  = seq 0 (length (fst (fold_left (chunk_step CHUNK_SIZE) (sentences_of text)
                                  ([], EmptyString))))
  /\ Forall (fun chunk => chunk_text chunk <> EmptyString
                          /\ trim (chunk_text chunk) = chunk_text chunk)
            (fst (fold_left (chunk_step CHUNK_SIZE) (sentences_of text) ([], EmptyString))).
Proof.
  unfold sentences_of.
  pose proof (scan_sentences_inked text Skip EmptyString) as Hink.
  destruct (scan_sentences text Skip EmptyString) as [| s0 l].
  - rewrite chunk_loop_single. cbn. split; [reflexivity | constructor].
  - apply chunk_loop_invariant.
    + apply Hink. discriminate.
    + reflexivity.
    + constructor.
    + now left.
Qed.

End ChunkLoopFacts.

Section ChunkTheorems.
Import DocumentText.

(** X30.  Whatever [this.CHUNK_SIZE] reads, the chunks [createChunks]
    returns are numbered from 0 in order, each carries their number as its
    total, and no chunk text is empty or has white space at either end.  A
    text without '.', '!' and '?' is never split: it gives its trimmed self
    as the one chunk, or no chunk when it is blank.  With [CHUNK_SIZE] read
    as [undefined], as the class has no such member, there is at most one
    chunk. *)
Theorem createChunks_spec (CHUNK_SIZE : option nat) (text : string) :
  let chunks := createChunks CHUNK_SIZE text in
  List.map index chunks = seq 0 (length chunks)
  /\ Forall (fun chunk => total chunk = Z.of_nat (length chunks)) chunks
  /\ Forall (fun chunk => chunk_text chunk <> EmptyString
                          /\ trim (chunk_text chunk) = chunk_text chunk) chunks
  /\ (all_chars (fun c => negb (is_terminator c)) text = true ->
      List.map chunk_text chunks
      = if JsString.is_empty (trim text) then [] else [trim text])
  /\ (CHUNK_SIZE = None -> (length chunks <= 1)%nat).
Proof.
  cbv zeta. unfold createChunks.
  destruct (chunk_loop_start CHUNK_SIZE text) as [Hidx Htexts].
  assert (all_chars (fun c => negb (is_terminator c)) text = true ->
          fold_left (chunk_step CHUNK_SIZE) (sentences_of text) ([], EmptyString)
          = ([], text)) as Hnone.
  { intros H. unfold sentences_of.
    rewrite (scan_sentences_none text H Skip EmptyString) by discriminate.
    apply chunk_loop_single. }
  assert (CHUNK_SIZE = None ->
          fst (fold_left (chunk_step CHUNK_SIZE) (sentences_of text) ([], EmptyString))
          = []) as Hundefined.
  { intros ->.
    assert (forall l st, fst st = [] ->
              fst (fold_left (chunk_step None) l st) = []) as Hloop.
    { induction l as [| s l IH]; intros [chunks cur] Hst; [exact Hst |].
      cbn [fold_left]. apply IH. cbn [fst] in Hst. subst chunks. reflexivity. }
    now apply Hloop. }
  destruct (fold_left (chunk_step CHUNK_SIZE) (sentences_of text) ([], EmptyString))
    as [chunks currentChunk].
  cbn [fst] in Hidx, Htexts, Hundefined.
  set (chunks' := if JsString.is_empty (trim currentChunk) then chunks
                  else chunks ++ [{| chunk_text := trim currentChunk;
                                     index := length chunks; total := (-1)%Z |}]).
  assert (List.map index chunks' = seq 0 (length chunks')) as Hidx'.
  { unfold chunks'. destruct (JsString.is_empty (trim currentChunk)); [exact Hidx |].
    rewrite List.map_app, length_app, Hidx. cbn [List.map index length].
    rewrite Nat.add_1_r, seq_S. reflexivity. }
  assert (Forall (fun chunk => chunk_text chunk <> EmptyString
                               /\ trim (chunk_text chunk) = chunk_text chunk) chunks')
    as Htexts'.
  { unfold chunks'. destruct (JsString.is_empty (trim currentChunk)) eqn:E; [exact Htexts |].
    apply Forall_app. split; [exact Htexts |]. constructor; [| constructor].
    cbn [chunk_text].
    destruct (all_chars is_space currentChunk) eqn:Eb.
    - rewrite (trim_blank _ Eb) in E. discriminate.
    - now apply trim_inked. }
  rewrite length_map, !List.map_map. cbn [index chunk_text].
  split; [exact Hidx' |]. split.
  { apply Forall_forall. intros chunk Hin. apply list_elem_of_In, in_map_iff in Hin.
    destruct Hin as (c0 & <- & _). reflexivity. }
  split.
  { apply Forall_forall. intros chunk Hin. apply list_elem_of_In, in_map_iff in Hin.
    destruct Hin as (c0 & <- & Hc0). cbn [chunk_text].
    rewrite Forall_forall in Htexts'. apply Htexts', list_elem_of_In, Hc0. }
  split.
  - intros H. specialize (Hnone H). injection Hnone as -> ->. unfold chunks'.
    destruct (JsString.is_empty (trim text)); reflexivity.
  - intros H. unfold chunks'. rewrite (Hundefined H).
    destruct (JsString.is_empty (trim currentChunk)); cbn; lia.
Qed.

End ChunkTheorems.

Section ConversionFacts.
Import QuantumMemory.
Local Open Scope R_scope.


















End ConversionFacts.

Section PersistenceClaims.
Import QuantumMemory.










#[local] Opaque CHUNK_SIZE.


End PersistenceClaims.

Section OversizedClaims.
Import QuantumMemory.
Local Open Scope R_scope.
#[local] Opaque MAX_DOCUMENT_SIZE.
















End OversizedClaims.
